(** * Laser chess engine: the alpha-beta search core (src/search.cpp)

    A shallow embedding of the principal-variation search, the quiescence
    search, the transposition-table probe and the move-selection helper of
    [search.cpp], together with the properties the specification states
    about them.  A second part adds the rest of search.cpp (the root of the
    search, the iterative-deepening driver, the statistics, the line as an
    array) and the packed scores of eval.h, with further properties of the
    code.

    Conventions of the embedding.
    - A C++ [int] score, depth or ply is a [Z]; signed overflow is undefined
      behaviour in the source and is not modelled.
    - An [unsigned int] list index is a [nat].
    - The globals of the translation unit ([transpositionTable],
      [searchParams], [searchStats], [isStop]) and the wall clock are one
      record [Globals] that every search function threads explicitly.
    - [Board], [Hash], [SearchSpace] and the constants of common.h are not
      part of search.cpp: they are interfaces (type classes) here.
    - The recursion of the search is not structural; the search functions
      take a [nat] of fuel and return [None] when it runs out. *)

From Stdlib Require Import ZArith Bool Lia Sorted.
From stdpp Require Import list.

Local Open Scope Z_scope.

(** ** Moves, scores and the constants of common.h *)

Definition Move := Z.

(** The constants search.cpp takes from common.h.  Their values are not in
    the sources at hand, so they are parameters. *)
Class SearchConstants := {
  MATE_SCORE : Z;
  INFTY : Z;
  MAX_DEPTH : Z;
  PAWN_VALUE : Z;
  KNIGHT_VALUE : Z;
  QUEEN_VALUE : Z;
  MAX_POS_SCORE : Z;
  NULL_MOVE : Move;
  WHITE : Z;
  isCapture : Move -> bool;
  isPromotion : Move -> bool;
  getStartSq : Move -> Z;
  getEndSq : Move -> Z
}.

(** ** MoveList and ScoreList: arrays with [get], [size] and [swap] *)

Definition MoveList := list Move.
Definition ScoreList := list Z.

(** [l.get(i)]; reading past the end is undefined in the source and reads 0
    here. *)
Definition get (l : list Z) (i : nat) : Z := default 0 (l !! i).

(** [l.swap(i, j)]: exchange the elements at [i] and [j]. *)
Definition swap {A} (l : list A) (i j : nat) : list A :=
  match l !! i, l !! j with
  | Some a, Some b => <[i := b]> (<[j := a]> l)
  | _, _ => l
  end.

Section NextMove.
Context `{SearchConstants}.

(** The inner loop of [nextMove] (search.cpp:755-760):
    [for (i = index + 1; i < moves.size(); i++)], with [n] iterations left,
    carrying [bestIndex] and [bestScore]. *)
Fixpoint scanBest (scores : ScoreList) (n i bestIndex : nat) (bestScore : Z)
  : nat :=
  match n with
  | O => bestIndex
  | S n' =>
      if get scores i >? bestScore
      then scanBest scores n' (S i) i (get scores i)
      else scanBest scores n' (S i) bestIndex bestScore
  end.

(** [nextMove(moves, scores, index)] (search.cpp:749-765).  The two lists
    are passed by reference: the result carries them after the swap. *)
Definition nextMove (moves : MoveList) (scores : ScoreList) (index : nat)
  : Move * MoveList * ScoreList :=
  if (length moves <=? index)%nat then (NULL_MOVE, moves, scores)
  else
    let bestIndex :=
      scanBest scores (length moves - S index) (S index) index
               (get scores index) in
    let moves' := swap moves bestIndex index in
    let scores' := swap scores bestIndex index in
    (get moves' index, moves', scores').

(** The way quiescence drives [nextMove] (search.cpp:593-594): calls with
    index, index+1, ... on the same two lists.  [successive n] makes [n]
    calls and collects each returned move with the score found at the
    index just filled. *)
Fixpoint successive (n : nat) (moves : MoveList) (scores : ScoreList)
    (index : nat) : list (Move * Z) :=
  match n with
  | O => []
  | S n' =>
      let '(m, moves', scores') := nextMove moves scores index in
      (m, get scores' index) :: successive n' moves' scores' (S index)
  end.

End NextMove.

(** ** The principal variation (struct SearchPV, search.cpp:35-42)

    [pv[0 .. pvLength-1]] is the only part of the array that is ever read,
    so a [SearchPV] is the list of those moves; a fresh [SearchPV] (its
    constructor sets [pvLength = 0]) is the empty list. *)
Definition SearchPV := list Move.

(** [changePV(best, parent, child)] (search.cpp:767-773): the parent line
    becomes [best] followed by the child line. *)
Definition changePV (best : Move) (child : SearchPV) : SearchPV :=
  best :: child.

(** ** Search statistics (struct SearchStatistics, search.cpp:13-33) *)
Record SearchStatistics := mkStats {
  nodes : Z;
  hashProbes : Z;
  hashHits : Z;
  hashScoreCuts : Z;
  hashMoveAttempts : Z;
  hashMoveCuts : Z;
  failHighs : Z;
  firstFailHighs : Z;
  qsNodes : Z;
  qsFailHighs : Z;
  qsFirstFailHighs : Z
}.

(** [SearchStatistics::reset] (search.cpp:25-32). *)
Definition resetStats : SearchStatistics := mkStats 0 0 0 0 0 0 0 0 0 0 0.

Definition inc_nodes (s : SearchStatistics) : SearchStatistics :=
  mkStats (nodes s + 1) (hashProbes s) (hashHits s) (hashScoreCuts s)
    (hashMoveAttempts s) (hashMoveCuts s) (failHighs s) (firstFailHighs s)
    (qsNodes s) (qsFailHighs s) (qsFirstFailHighs s).
Definition inc_hashProbes (s : SearchStatistics) : SearchStatistics :=
  mkStats (nodes s) (hashProbes s + 1) (hashHits s) (hashScoreCuts s)
    (hashMoveAttempts s) (hashMoveCuts s) (failHighs s) (firstFailHighs s)
    (qsNodes s) (qsFailHighs s) (qsFirstFailHighs s).
Definition inc_hashHits (s : SearchStatistics) : SearchStatistics :=
  mkStats (nodes s) (hashProbes s) (hashHits s + 1) (hashScoreCuts s)
    (hashMoveAttempts s) (hashMoveCuts s) (failHighs s) (firstFailHighs s)
    (qsNodes s) (qsFailHighs s) (qsFirstFailHighs s).
Definition inc_hashScoreCuts (s : SearchStatistics) : SearchStatistics :=
  mkStats (nodes s) (hashProbes s) (hashHits s) (hashScoreCuts s + 1)
    (hashMoveAttempts s) (hashMoveCuts s) (failHighs s) (firstFailHighs s)
    (qsNodes s) (qsFailHighs s) (qsFirstFailHighs s).
Definition inc_hashMoveAttempts (s : SearchStatistics) : SearchStatistics :=
  mkStats (nodes s) (hashProbes s) (hashHits s) (hashScoreCuts s)
    (hashMoveAttempts s + 1) (hashMoveCuts s) (failHighs s) (firstFailHighs s)
    (qsNodes s) (qsFailHighs s) (qsFirstFailHighs s).
Definition inc_hashMoveCuts (s : SearchStatistics) : SearchStatistics :=
  mkStats (nodes s) (hashProbes s) (hashHits s) (hashScoreCuts s)
    (hashMoveAttempts s) (hashMoveCuts s + 1) (failHighs s) (firstFailHighs s)
    (qsNodes s) (qsFailHighs s) (qsFirstFailHighs s).
Definition inc_failHighs (s : SearchStatistics) : SearchStatistics :=
  mkStats (nodes s) (hashProbes s) (hashHits s) (hashScoreCuts s)
    (hashMoveAttempts s) (hashMoveCuts s) (failHighs s + 1) (firstFailHighs s)
    (qsNodes s) (qsFailHighs s) (qsFirstFailHighs s).
Definition inc_firstFailHighs (s : SearchStatistics) : SearchStatistics :=
  mkStats (nodes s) (hashProbes s) (hashHits s) (hashScoreCuts s)
    (hashMoveAttempts s) (hashMoveCuts s) (failHighs s) (firstFailHighs s + 1)
    (qsNodes s) (qsFailHighs s) (qsFirstFailHighs s).
Definition inc_qsNodes (s : SearchStatistics) : SearchStatistics :=
  mkStats (nodes s) (hashProbes s) (hashHits s) (hashScoreCuts s)
    (hashMoveAttempts s) (hashMoveCuts s) (failHighs s) (firstFailHighs s)
    (qsNodes s + 1) (qsFailHighs s) (qsFirstFailHighs s).
Definition inc_qsFailHighs (s : SearchStatistics) : SearchStatistics :=
  mkStats (nodes s) (hashProbes s) (hashHits s) (hashScoreCuts s)
    (hashMoveAttempts s) (hashMoveCuts s) (failHighs s) (firstFailHighs s)
    (qsNodes s) (qsFailHighs s + 1) (qsFirstFailHighs s).
Definition inc_qsFirstFailHighs (s : SearchStatistics) : SearchStatistics :=
  mkStats (nodes s) (hashProbes s) (hashHits s) (hashScoreCuts s)
    (hashMoveAttempts s) (hashMoveCuts s) (failHighs s) (firstFailHighs s)
    (qsNodes s) (qsFailHighs s) (qsFirstFailHighs s + 1).

(** ** Search parameters (struct SearchParameters, searchspace.h)

    Modelled from the spec: the struct is declared outside search.cpp; the
    fields are those of section 4.3.  [killers[ply][0..1]] is a pair per
    ply and [historyTable[color][piece][square]] a counter per triple;
    indexing outside the arrays is undefined in the source and both are
    total functions here. *)
Definition HistoryTable := Z -> Z -> Z -> Z.

Record SearchParameters := mkParams {
  ply : Z;
  nullMoveCount : Z;
  killers : Z -> Move * Move;
  historyTable : HistoryTable;
  rootMoveNumber : Z;
  timeLimit : Z
}.

Definition set_ply (p : SearchParameters) (v : Z) : SearchParameters :=
  mkParams v (nullMoveCount p) (killers p) (historyTable p)
    (rootMoveNumber p) (timeLimit p).
Definition set_nullMoveCount (p : SearchParameters) (v : Z)
  : SearchParameters :=
  mkParams (ply p) v (killers p) (historyTable p) (rootMoveNumber p)
    (timeLimit p).
Definition set_killers (p : SearchParameters) (k : Z -> Move * Move)
  : SearchParameters :=
  mkParams (ply p) (nullMoveCount p) k (historyTable p) (rootMoveNumber p)
    (timeLimit p).
Definition set_historyTable (p : SearchParameters) (h : HistoryTable)
  : SearchParameters :=
  mkParams (ply p) (nullMoveCount p) (killers p) h (rootMoveNumber p)
    (timeLimit p).

(** [historyTable[c][p][s] += v]. *)
Definition history_add (h : HistoryTable) (c p s v : Z) : HistoryTable :=
  fun c' p' s' =>
    if (c' =? c) && (p' =? p) && (s' =? s) then h c' p' s' + v
    else h c' p' s'.

(** The killer update of the quiet beta cutoff (search.cpp:423-426), at
    ply [p]. *)
Definition updateKillers (k : Z -> Move * Move) (p : Z) (m : Move)
  : Z -> Move * Move :=
  if negb (m =? fst (k p)) then
    fun q => if q =? p then (m, fst (k p)) else k q
  else k.

(** ** Transposition table (hash.h) *)
Inductive NodeType := PV_NODE | CUT_NODE | ALL_NODE.

Definition NodeType_eqb (a b : NodeType) : bool :=
  match a, b with
  | PV_NODE, PV_NODE | CUT_NODE, CUT_NODE | ALL_NODE, ALL_NODE => true
  | _, _ => false
  end.

(** Modelled from the spec: a transposition entry (section 3); only the
    members [probeTT] reads are kept. *)
Record HashEntry := mkEntry {
  he_score : Z;
  he_depth : Z;
  he_m : Move;
  he_nodeType : NodeType
}.

(** [Hash::get] and [Hash::add] as search.cpp calls them. *)
Class HashOps (Hash Board : Type) := {
  tt_get : Hash -> Board -> option HashEntry;
  tt_add : Hash -> Board -> Z -> Move -> Z -> NodeType -> Z -> Hash
}.

(** ** The Board interface (board.h), as far as search.cpp uses it

    [doPseudoLegalMove] and [doHashMove] play a move on a copy and report
    whether it was legal: [Some] carries the copy after the move, [None] is
    the [false] result (the copy is then dropped by the caller).
    [staticCopy] is the identity on values.  [doNullMove] changes the board
    in place, so the search returns the board it was given. *)
Class BoardOps (Board : Type) := {
  getPlayerToMove : Board -> Z;
  isDraw : Board -> bool;
  isInCheck : Board -> Z -> bool;
  evaluate : Board -> Z;
  evaluateMaterial : Board -> Z;
  evaluatePositional : Board -> Z;
  getNonPawnMaterial : Board -> Z -> Z;
  doNullMove : Board -> Board;
  doPseudoLegalMove : Board -> Move -> Z -> option Board;
  doHashMove : Board -> Move -> Z -> option Board;
  isCheckMove : Board -> Move -> Z -> bool;
  getPieceOnSquare : Board -> Z -> Z -> Z;
  valueOfPiece : Board -> Z -> Z;
  getMVVLVAScore : Board -> Z -> Move -> Z;
  getExchangeScore : Board -> Z -> Move -> Z;
  getSEE : Board -> Z -> Z -> Z;
  getPseudoLegalCaptures : Board -> Z -> bool -> MoveList;
  getPseudoLegalPromotions : Board -> Z -> MoveList;
  getPseudoLegalChecks : Board -> Z -> MoveList;
  getPseudoLegalCheckEscapes : Board -> Z -> MoveList
}.

(** ** The move iterator (class SearchSpace, searchspace.h)

    Modelled from the spec: SearchSpace is declared outside search.cpp.
    Section 4.4 makes it an iterator over the ordered pseudo-legal moves of
    the node: [generateMoves(hashed)] fixes the order ([ss_generateMoves]),
    [nextMove()] yields the moves one by one and [NULL_MOVE] at the end,
    and [reduceBadHistories(best)] lowers the history counters of the quiet
    moves yielded so far ([ss_reduceBadHistories], which is given those
    moves, most recent first). *)
Class SearchSpaceOps (Board : Type) := {
  ss_generateMoves :
    Board -> Z -> Z -> bool -> bool -> SearchParameters -> Move -> MoveList;
  ss_reduceBadHistories :
    Board -> Z -> Z -> list Move -> Move -> HistoryTable -> HistoryTable
}.

(** Modelled from the spec: [SearchSpace::nodeIsReducible] "returns true
    when the current node is not in check and not a PV node". *)
Definition nodeIsReducible (isPVNode isInCheck : bool) : bool :=
  negb isInCheck && negb isPVNode.

(** ** The globals of search.cpp and the clock

    [clock k] is what the [k]-th call of [getTimeElapsed] in the move loop
    reports, in the unit of [timeLimit]; [clockReads] counts the calls. *)
Record Globals {Hash : Type} := mkGlobals {
  transpositionTable : Hash;
  searchParams : SearchParameters;
  searchStats : SearchStatistics;
  isStop : bool;
  clockReads : nat;
  clock : nat -> Z
}.
Arguments Globals : clear implicits.
Arguments mkGlobals {Hash}.

Section GlobalUpdates.
Context {Hash : Type}.
Implicit Type g : Globals Hash.

Definition set_transpositionTable g (t : Hash) : Globals Hash :=
  mkGlobals t (searchParams g) (searchStats g) (isStop g) (clockReads g)
    (clock g).
Definition set_searchParams g (p : SearchParameters) : Globals Hash :=
  mkGlobals (transpositionTable g) p (searchStats g) (isStop g)
    (clockReads g) (clock g).
Definition set_searchStats g (s : SearchStatistics) : Globals Hash :=
  mkGlobals (transpositionTable g) (searchParams g) s (isStop g)
    (clockReads g) (clock g).
Definition set_isStop g (v : bool) : Globals Hash :=
  mkGlobals (transpositionTable g) (searchParams g) (searchStats g) v
    (clockReads g) (clock g).

(** One call of [getTimeElapsed(searchParams.startTime)]. *)
Definition readClock g : Z * Globals Hash :=
  (clock g (clockReads g),
   mkGlobals (transpositionTable g) (searchParams g) (searchStats g)
     (isStop g) (S (clockReads g)) (clock g)).

Definition stat g (f : SearchStatistics -> SearchStatistics) : Globals Hash :=
  set_searchStats g (f (searchStats g)).

(** [searchParams.ply++] and [searchParams.ply--]. *)
Definition inc_ply g : Globals Hash :=
  set_searchParams g (set_ply (searchParams g) (ply (searchParams g) + 1)).
Definition dec_ply g : Globals Hash :=
  set_searchParams g (set_ply (searchParams g) (ply (searchParams g) - 1)).

(** [searchParams.nullMoveCount++] and [searchParams.nullMoveCount--]. *)
Definition inc_nullMoveCount g : Globals Hash :=
  set_searchParams g
    (set_nullMoveCount (searchParams g) (nullMoveCount (searchParams g) + 1)).
Definition dec_nullMoveCount g : Globals Hash :=
  set_searchParams g
    (set_nullMoveCount (searchParams g) (nullMoveCount (searchParams g) - 1)).

End GlobalUpdates.

(** Early [return] out of a block of a C++ function: a block either
    returns from the function with a score or falls through with the values
    of the local variables it changed. *)
Inductive Flow (A : Type) :=
| Return (r : Z)
| Continue (a : A).
Arguments Return {A}.
Arguments Continue {A}.

(** ** The search functions of search.cpp *)
Section Search.
Context `{SearchConstants} {Board Hash : Type}
        `{BoardOps Board} `{HashOps Hash Board} `{SearchSpaceOps Board}.

(** [FUTILITY_MARGIN] and [REVERSE_FUTILITY_MARGIN] (search.cpp:44-53). *)
Definition FUTILITY_MARGIN : list Z :=
  [0; MAX_POS_SCORE; MAX_POS_SCORE + KNIGHT_VALUE;
   MAX_POS_SCORE + QUEEN_VALUE].

Definition REVERSE_FUTILITY_MARGIN : list Z :=
  [0; MAX_POS_SCORE; MAX_POS_SCORE + 2 * PAWN_VALUE].

(** *** Quiescence search *)

(** The state quiescence touches: it reads [searchParams.ply] and counts in
    [searchStats]; it reads no other global, [isStop] included. *)
Definition QSfun : Type :=
  Board -> Z -> Z -> Z -> SearchStatistics -> option (Z * SearchStatistics).

(** Loop variables of the quiescence move loops: [alpha], [score], [j]. *)
Definition QVars : Type := Z * Z * Z.

(** Searching one child in quiescence, after the move was played on
    [copy]; the same statements at search.cpp:606-618, 633-645, 659-672
    and 703-715, with [rec] the function that is called on the child. *)
Definition qsVisit (rec : QSfun) (copy : Board) (plies alpha beta j : Z)
    (st : SearchStatistics) : option (Flow QVars * SearchStatistics) :=
  let st := inc_qsNodes (inc_nodes st) in
  match rec copy (plies + 1) (- beta) (- alpha) st with
  | None => None
  | Some (r, st) =>
      let score := - r in
      if score >=? beta then
        let st := inc_qsFailHighs st in
        let st := if j =? 0 then inc_qsFirstFailHighs st else st in
        Some (Return beta, st)
      else
        Some (Continue (if score >? alpha then score else alpha, score, j + 1),
              st)
  end.

(** The capture loop (search.cpp:593-619), driven by [nextMove] with
    [i = 0, 1, ...]; [n] bounds the iterations left, [n = size - i], and at
    [n = 0] the call [nextMove(.., i)] has [i >= size] and ends the loop. *)
Fixpoint qsCaptures (rec : QSfun) (b : Board) (color plies beta standPat : Z)
    (n i : nat) (moves : MoveList) (scores : ScoreList)
    (alpha score j : Z) (st : SearchStatistics)
    : option (Flow QVars * SearchStatistics) :=
  match n with
  | O => Some (Continue (alpha, score, j), st)
  | S n' =>
      let '(m, moves, scores) := nextMove moves scores i in
      if m =? NULL_MOVE then Some (Continue (alpha, score, j), st)
      else if standPat
                + valueOfPiece b
                    (getPieceOnSquare b (Z.lxor color 1) (getEndSq m))
              <? alpha - MAX_POS_SCORE
      then qsCaptures rec b color plies beta standPat n' (S i) moves scores
             alpha score j st
      else if (getExchangeScore b color m <? 0)
              && (getSEE b color (getEndSq m) <? - MAX_POS_SCORE)
      then qsCaptures rec b color plies beta standPat n' (S i) moves scores
             alpha score j st
      else
        match doPseudoLegalMove b m color with
        | None =>
            qsCaptures rec b color plies beta standPat n' (S i) moves scores
              alpha score j st
        | Some copy =>
            match qsVisit rec copy plies alpha beta j st with
            | None => None
            | Some (Return r, st) => Some (Return r, st)
            | Some (Continue (alpha, score, j), st) =>
                qsCaptures rec b color plies beta standPat n' (S i) moves
                  scores alpha score j st
            end
        end
  end.

(** The loops over a move list in index order: promotions
    (search.cpp:622-646, [skip m] is [getSEE(color, getEndSq(m)) < 0]),
    checks (search.cpp:652-673) and check escapes (search.cpp:696-716),
    the last two without a skip test. *)
Fixpoint qsLoop (rec : QSfun) (skip : Move -> bool) (b : Board)
    (color plies beta : Z) (moves : MoveList) (alpha score j : Z)
    (st : SearchStatistics) : option (Flow QVars * SearchStatistics) :=
  match moves with
  | [] => Some (Continue (alpha, score, j), st)
  | m :: rest =>
      if skip m then qsLoop rec skip b color plies beta rest alpha score j st
      else
        match doPseudoLegalMove b m color with
        | None => qsLoop rec skip b color plies beta rest alpha score j st
        | Some copy =>
            match qsVisit rec copy plies alpha beta j st with
            | None => None
            | Some (Return r, st) => Some (Return r, st)
            | Some (Continue (alpha, score, j), st) =>
                qsLoop rec skip b color plies beta rest alpha score j st
            end
        end
  end.

(** [checkQuiescence] (search.cpp:689-730), with [qs] the quiescence
    function it calls on the children. *)
Definition checkQuiescence_body (qs : QSfun) (ply : Z) : QSfun :=
  fun b plies alpha beta st =>
  let color := getPlayerToMove b in
  let legalMoves := getPseudoLegalCheckEscapes b color in
  match qsLoop qs (fun _ => false) b color plies beta legalMoves
               alpha (- INFTY) 0 st with
  | None => None
  | Some (Return r, st) => Some (r, st)
  | Some (Continue (alpha, score, j), st) =>
      if score =? - INFTY then
        let score := - MATE_SCORE + ply + plies in
        if score >=? beta then Some (beta, st)
        else Some (if score >? alpha then score else alpha, st)
      else Some (alpha, st)
  end.

(** [quiescence] (search.cpp:556-683) at ply [ply]. *)
Fixpoint quiescence (fuel : nat) (ply : Z) (b : Board)
    (plies alpha beta : Z) (st : SearchStatistics) {struct fuel}
    : option (Z * SearchStatistics) :=
  match fuel with
  | O => None
  | S fuel' =>
      let checkQuiescence := checkQuiescence_body (quiescence fuel' ply) ply in
      let color := getPlayerToMove b in
      if isInCheck b color then checkQuiescence b plies alpha beta st
      else
        let standPat :=
          if color =? WHITE then evaluateMaterial b
          else - evaluateMaterial b in
        if standPat >=? beta + MAX_POS_SCORE then Some (beta, st)
        else if standPat <? alpha - 2 * MAX_POS_SCORE - QUEEN_VALUE
        then Some (alpha, st)
        else
          let standPat :=
            standPat + (if color =? WHITE then evaluatePositional b
                        else - evaluatePositional b) in
          let alpha := if alpha <? standPat then standPat else alpha in
          if standPat >=? beta then Some (beta, st)
          else if standPat <? alpha - MAX_POS_SCORE - QUEEN_VALUE
          then Some (alpha, st)
          else
            let legalCaptures := getPseudoLegalCaptures b color false in
            let scores := map (getMVVLVAScore b color) legalCaptures in
            match qsCaptures (quiescence fuel' ply) b color plies beta
                    standPat (length legalCaptures) 0%nat legalCaptures
                    scores alpha (- INFTY) 0 st with
            | None => None
            | Some (Return r, st) => Some (r, st)
            | Some (Continue (alpha, score, j), st) =>
                match qsLoop (quiescence fuel' ply)
                        (fun m => getSEE b color (getEndSq m) <? 0)
                        b color plies beta
                        (getPseudoLegalPromotions b color)
                        alpha score j st with
                | None => None
                | Some (Return r, st) => Some (r, st)
                | Some (Continue (alpha, score, j), st) =>
                    if plies <=? 0 then
                      match qsLoop checkQuiescence (fun _ => false)
                              b color plies beta
                              (getPseudoLegalChecks b color)
                              alpha score j st with
                      | None => None
                      | Some (Return r, st) => Some (r, st)
                      | Some (Continue (alpha, _, _), st) => Some (alpha, st)
                      end
                    else Some (alpha, st)
                end
            end
  end.

(** [checkQuiescence] with the fuel of the quiescence calls it makes. *)
Definition checkQuiescence (fuel : nat) (ply : Z) : QSfun :=
  checkQuiescence_body (quiescence fuel ply) ply.

(** *** Principal-variation search *)

(** A search frame returns its score, the board it was given (a reference
    in the source, changed in place by the null moves), the line it wrote
    through [pvLine], and the globals. *)
Definition PVSfun : Type :=
  Board -> Z -> Z -> Z -> SearchPV -> Globals Hash ->
  option (Z * Board * SearchPV * Globals Hash).

(** [scoreMate] (search.cpp:532-547); it reads [searchParams.ply]. *)
Definition scoreMate (ply : Z) (isInCheck : bool) (depth alpha beta : Z) : Z :=
  let score := if isInCheck then - MATE_SCORE + ply else 0 in
  if score >=? beta then beta
  else if score >? alpha then score else alpha.

(** The draw return of PVS (search.cpp:251-258). *)
Definition drawScore (alpha beta : Z) : Z :=
  if 0 >=? beta then beta
  else if 0 >? alpha then 0 else alpha.

(** The hit branch of [probeTT] (search.cpp:469-527) on the entry that
    [transpositionTable.get(b)] returned.  The result is the returned
    score followed by the reference parameters [hashed], [alpha] and
    [pvLine] as [probeTT] leaves them. *)
Definition probeEntry (self : PVSfun) (entry : HashEntry) (b : Board)
    (hashed : Move) (depth alpha beta : Z) (pvLine : SearchPV)
    (g : Globals Hash)
    : option (Z * Move * Z * SearchPV * Globals Hash) :=
  let g := stat g inc_hashHits in
  let hashScore := he_score entry in
  let nodeType := he_nodeType entry in
  if NodeType_eqb nodeType ALL_NODE then
    if (he_depth entry >=? depth) && (hashScore <=? alpha)
    then Some (alpha, hashed, alpha, pvLine, stat g inc_hashScoreCuts)
    else Some (- INFTY, hashed, alpha, pvLine, g)
  else
    let hashed := he_m entry in
    if (he_depth entry >=? depth)
       && (NodeType_eqb nodeType CUT_NODE && (hashScore >=? beta))
    then
      Some (beta, hashed, alpha, pvLine,
            stat (stat (stat g inc_hashScoreCuts) inc_failHighs)
                 inc_firstFailHighs)
    else
      match doHashMove b hashed (getPlayerToMove b) with
      | Some copy =>
          let g := inc_ply (stat (stat g inc_hashMoveAttempts) inc_nodes) in
          match self copy (depth - 1) (- beta) (- alpha) [] g with
          | None => None
          | Some (r, _, line, g) =>
              let g := dec_ply g in
              let score := - r in
              if score >=? beta
              then Some (beta, hashed, alpha, pvLine, stat g inc_hashMoveCuts)
              else if score >? alpha
              then Some (- INFTY, hashed, score, changePV hashed line, g)
              else Some (- INFTY, hashed, alpha, pvLine, g)
          end
      | None => Some (- INFTY, NULL_MOVE, alpha, pvLine, g)
      end.

(** [probeTT] (search.cpp:467-529). *)
Definition probeTT (self : PVSfun) (b : Board) (hashed : Move)
    (depth alpha beta : Z) (pvLine : SearchPV) (g : Globals Hash)
    : option (Z * Move * Z * SearchPV * Globals Hash) :=
  match tt_get (transpositionTable g) b with
  | Some entry => probeEntry self entry b hashed depth alpha beta pvLine g
  | None => Some (- INFTY, hashed, alpha, pvLine, g)
  end.

(** The condition of the null-move excursion (search.cpp:292-293). *)
Definition nullMoveCond (depth : Z) (isPVNode isInCheck : bool)
    (nullMoves staticEval beta nonPawnMaterial : Z) : bool :=
  (depth >=? 3) && negb isPVNode && negb isInCheck && (nullMoves <? 2)
  && (staticEval >=? beta) && negb (nonPawnMaterial =? 0).

(** The null-move reduction (search.cpp:294-303); [/] of C++ truncates. *)
Definition nullMoveReduction (depth staticEval beta : Z) : Z :=
  let reduction :=
    if depth >=? 11 then 4 else if depth >=? 6 then 3 else 2 in
  Z.min (depth - 2) (reduction + (staticEval - beta) ÷ PAWN_VALUE).

(** The null-move block of PVS (search.cpp:292-319): it returns beta from
    PVS or falls through; either way it leaves the board, the local
    [line] and the globals changed. *)
Definition nullMovePruning (self : PVSfun) (b : Board)
    (depth alpha beta : Z) (isPVNode isInCheck : bool) (staticEval color : Z)
    (line : SearchPV) (g : Globals Hash)
    : option (Flow unit * Board * SearchPV * Globals Hash) :=
  if nullMoveCond depth isPVNode isInCheck (nullMoveCount (searchParams g))
       staticEval beta (getNonPawnMaterial b color)
  then
    let reduction := nullMoveReduction depth staticEval beta in
    let b := doNullMove b in
    let g := inc_ply (inc_nullMoveCount g) in
    match self b (depth - 1 - reduction) (- beta) (- alpha) line g with
    | None => None
    | Some (r, b, line, g) =>
        let g := dec_ply g in
        let nullScore := - r in
        if nullScore >=? beta
        then Some (Return beta, doNullMove b, line, dec_nullMoveCount g)
        else Some (Continue tt, doNullMove b, line, dec_nullMoveCount g)
    end
  else Some (Continue tt, b, line, g).

(** The condition of reverse futility pruning (search.cpp:326-327). *)
Definition reverseFutilityCond (b : Board) (depth beta : Z)
    (isPVNode isInCheck : bool) (staticEval color : Z) : bool :=
  negb isPVNode && negb isInCheck
  && ((depth <=? 2)
      && (staticEval - get REVERSE_FUTILITY_MARGIN (Z.to_nat depth) >=? beta))
  && negb (getNonPawnMaterial b color =? 0).

(** The condition of futility pruning in the move loop
    (search.cpp:356-358). *)
Definition futilityCond (b : Board) (depth alpha : Z)
    (isPVNode isInCheck : bool) (staticEval color : Z) (m : Move) : bool :=
  (depth <=? 3)
  && (staticEval <=? alpha - get FUTILITY_MARGIN (Z.to_nat depth))
  && nodeIsReducible isPVNode isInCheck && negb (isCapture m)
  && (Z.abs alpha <? QUEEN_VALUE) && negb (isPromotion m)
  && negb (isCheckMove b m color).

(** The late-move reduction (search.cpp:385-392).  The source computes
    [(int) ((depth - 3) / 4.0 + movesSearched / 9.5)] in doubles; for the
    non-negative integers at hand that is the integer part of
    [(19 * (depth - 3) + 8 * movesSearched) / 76]. *)
Definition lateMoveReduction (copy : Board) (depth alpha prevAlpha : Z)
    (isPVNode inCheck : bool) (color movesSearched : Z) (m : Move)
    (k : Move * Move) : Z :=
  if nodeIsReducible isPVNode inCheck && negb (isCapture m)
     && (depth >=? 3) && (movesSearched >? 2) && (alpha <=? prevAlpha)
     && negb (m =? fst k) && negb (m =? snd k)
     && negb (isPromotion m) && negb (isInCheck copy (Z.lxor color 1))
  then Z.min (depth - 2) ((19 * (depth - 3) + 8 * movesSearched) ÷ 76)
  else 0.

(** Searching one move of the move loop (search.cpp:395-412): the
    null-window search with its re-search, or the full-window search of the
    first move.  [copy] is the board after the move; the re-search gets
    the same object, as the first search left it. *)
Definition searchMove (self : PVSfun) (copy : Board)
    (depth reduction alpha beta movesSearched : Z) (line : SearchPV)
    (g : Globals Hash) : option (Z * SearchPV * Globals Hash) :=
  if negb (movesSearched =? 0) then
    match self copy (depth - 1 - reduction) (- alpha - 1) (- alpha) line
               (inc_ply g) with
    | None => None
    | Some (r, copy, line, g) =>
        let g := dec_ply g in
        let score := - r in
        if (alpha <? score) && (score <? beta) then
          match self copy (depth - 1) (- beta) (- alpha) line (inc_ply g) with
          | None => None
          | Some (r, _, line, g) => Some (- r, line, dec_ply g)
          end
        else Some (score, line, g)
    end
  else
    match self copy (depth - 1) (- beta) (- alpha) line (inc_ply g) with
    | None => None
    | Some (r, _, line, g) => Some (- r, line, dec_ply g)
    end.

(** The history update of a quiet best move (search.cpp:428-430 and
    452-454): [historyTable[color][piece][to] += depth * depth], then
    [ss.reduceBadHistories(m)]. *)
Definition addHistory (b : Board) (color depth : Z) (m : Move)
    (yielded : list Move) (g : Globals Hash) : Globals Hash :=
  let p := searchParams g in
  let h :=
    history_add (historyTable p) color
      (getPieceOnSquare b color (getStartSq m)) (getEndSq m)
      (depth * depth) in
  set_searchParams g
    (set_historyTable p (ss_reduceBadHistories b color depth yielded m h)).

(** What PVS records on a beta cutoff before it returns beta
    (search.cpp:414-431). *)
Definition recordCutoff (b : Board) (color depth : Z) (m : Move)
    (beta movesSearched : Z) (yielded : list Move) (g : Globals Hash)
    : Globals Hash :=
  let g := stat g inc_failHighs in
  let g := if movesSearched =? 0 then stat g inc_firstFailHighs else g in
  let g :=
    set_transpositionTable g
      (tt_add (transpositionTable g) b depth m beta CUT_NODE
              (rootMoveNumber (searchParams g))) in
  if negb (isCapture m) then
    let p := searchParams g in
    let g := set_searchParams g
               (set_killers p (updateKillers (killers p) (ply p) m)) in
    addHistory b color depth m yielded g
  else g.

(** What PVS records after the move loop, before it returns alpha
    (search.cpp:447-461). *)
Definition recordResult (b : Board) (color depth prevAlpha alpha beta : Z)
    (toHash : Move) (yielded : list Move) (g : Globals Hash)
    : Globals Hash :=
  if negb (toHash =? NULL_MOVE) && (prevAlpha <? alpha) && (alpha <? beta)
  then
    let g :=
      set_transpositionTable g
        (tt_add (transpositionTable g) b depth toHash alpha PV_NODE
                (rootMoveNumber (searchParams g))) in
    if negb (isCapture toHash) then addHistory b color depth toHash yielded g
    else g
  else if alpha <=? prevAlpha then
    set_transpositionTable g
      (tt_add (transpositionTable g) b depth NULL_MOVE alpha ALL_NODE
              (rootMoveNumber (searchParams g)))
  else g.

(** The time check that opens every iteration of the move loop
    (search.cpp:343-345). *)
Definition checkTimeout (g : Globals Hash) : Globals Hash :=
  let '(timeSoFar, g) := readClock g in
  if timeSoFar >? timeLimit (searchParams g) then set_isStop g true else g.

(** What the move loop leaves behind when it ends: [alpha], [score],
    [toHash] and the moves the iterator yielded. *)
Definition LoopVars : Type := Z * Z * Move * list Move.

(** The move loop of PVS (search.cpp:340-441).  [pending] are the moves
    [ss.nextMove()] has still to yield, in order; the loop ends at the end
    of the list or at the first [NULL_MOVE].  The result carries the line
    as the loop left it behind [pvLine]: what [changePV] wrote for an
    earlier move stays written when a later iteration returns from PVS. *)
Fixpoint moveLoop (self : PVSfun) (b : Board)
    (color depth beta prevAlpha staticEval : Z) (isPVNode inCheck : bool)
    (pending : MoveList) (yielded : list Move) (alpha score : Z)
    (toHash : Move) (movesSearched : Z) (pvLine line : SearchPV)
    (g : Globals Hash) : option (Flow LoopVars * SearchPV * Globals Hash) :=
  match pending with
  | [] => Some (Continue (alpha, score, toHash, yielded), pvLine, g)
  | m :: pending =>
      if m =? NULL_MOVE
      then Some (Continue (alpha, score, toHash, yielded), pvLine, g)
      else
        let yielded := m :: yielded in
        let g := checkTimeout g in
        if isStop g then Some (Return (- INFTY), pvLine, g)
        else if futilityCond b depth alpha isPVNode inCheck staticEval color m
        then
          moveLoop self b color depth beta prevAlpha staticEval isPVNode
            inCheck pending yielded alpha alpha toHash movesSearched pvLine
            line g
        else
          match doPseudoLegalMove b m color with
          | None =>
              moveLoop self b color depth beta prevAlpha staticEval isPVNode
                inCheck pending yielded alpha score toHash movesSearched
                pvLine line g
          | Some copy =>
              let g := stat g inc_nodes in
              let reduction :=
                lateMoveReduction copy depth alpha prevAlpha isPVNode inCheck
                  color movesSearched m
                  (killers (searchParams g) (ply (searchParams g))) in
              match searchMove self copy depth reduction alpha beta
                      movesSearched line g with
              | None => None
              | Some (score, line, g) =>
                  if score >=? beta then
                    Some (Return beta, pvLine,
                          recordCutoff b color depth m beta movesSearched
                            yielded g)
                  else if score >? alpha then
                    moveLoop self b color depth beta prevAlpha staticEval
                      isPVNode inCheck pending yielded score score m
                      (movesSearched + 1) (changePV m line) line g
                  else
                    moveLoop self b color depth beta prevAlpha staticEval
                      isPVNode inCheck pending yielded alpha score toHash
                      (movesSearched + 1) pvLine line g
              end
          end
  end.

(** What PVS does once the probe gave no cutoff (search.cpp:275-463);
    [alpha] and [pvLine] are as the probe left them, [prevAlpha] is the
    alpha PVS was called with. *)
Definition searchNode (self : PVSfun) (b : Board)
    (depth prevAlpha alpha beta : Z) (hashed : Move) (pvLine : SearchPV)
    (g : Globals Hash) : option (Z * Board * SearchPV * Globals Hash) :=
  let color := getPlayerToMove b in
  let line : SearchPV := [] in
  let isPVNode := negb (beta - alpha =? 1) in
  let inCheck := isInCheck b color in
  let staticEval := if color =? WHITE then evaluate b else - evaluate b in
  match nullMovePruning self b depth alpha beta isPVNode inCheck staticEval
          color line g with
  | None => None
  | Some (Return r, b, _, g) => Some (r, b, pvLine, g)
  | Some (Continue _, b, line, g) =>
      if reverseFutilityCond b depth beta isPVNode inCheck staticEval color
      then Some (beta, b, pvLine, g)
      else
        let pending :=
          ss_generateMoves b color depth isPVNode inCheck (searchParams g)
            hashed in
        let movesSearched := if hashed =? NULL_MOVE then 0 else 1 in
        match moveLoop self b color depth beta prevAlpha staticEval isPVNode
                inCheck pending [] alpha (- INFTY) NULL_MOVE movesSearched
                pvLine line g with
        | None => None
        | Some (Return r, pvLine, g) => Some (r, b, pvLine, g)
        | Some (Continue (alpha, score, toHash, yielded), pvLine, g) =>
            if score =? - INFTY then
              Some (scoreMate (ply (searchParams g)) inCheck depth alpha beta,
                    b, pvLine, g)
            else
              Some (alpha, b, pvLine,
                    recordResult b color depth prevAlpha alpha beta toHash
                      yielded g)
        end
  end.

(** One frame of [PVS] (search.cpp:243-464), with [self] the function its
    recursive calls go to and [qs ply] the quiescence search. *)
Definition PVS_F (self : PVSfun) (qs : Z -> QSfun) : PVSfun :=
  fun b depth alpha beta pvLine g =>
  if depth <=? 0 then
    match qs (ply (searchParams g)) b 0 alpha beta (searchStats g) with
    | None => None
    | Some (r, st) => Some (r, b, [], set_searchStats g st)
    end
  else if isDraw b then Some (drawScore alpha beta, b, pvLine, g)
  else
    let prevAlpha := alpha in
    let g := stat g inc_hashProbes in
    match probeTT self b NULL_MOVE depth alpha beta pvLine g with
    | None => None
    | Some (hashScore, hashed, alpha, pvLine, g) =>
        if negb (hashScore =? - INFTY) then Some (hashScore, b, pvLine, g)
        else searchNode self b depth prevAlpha alpha beta hashed pvLine g
    end.

(** [PVS] with [fuel] frames of recursion left. *)
Fixpoint PVS (fuel : nat) : PVSfun :=
  match fuel with
  | O => fun _ _ _ _ _ _ => None
  | S fuel' => PVS_F (PVS fuel') (quiescence fuel)
  end.

(** [PVS] with the assertion [nullMoveCount <= 2] at the entry of every
    frame: a frame entered with a larger counter fails. *)
Definition assertNullMoves (f : PVSfun) : PVSfun :=
  fun b depth alpha beta pvLine g =>
  if nullMoveCount (searchParams g) <=? 2 then f b depth alpha beta pvLine g
  else None.

Fixpoint PVS_checked (fuel : nat) : PVSfun :=
  match fuel with
  | O => fun _ _ _ _ _ _ => None
  | S fuel' => assertNullMoves (PVS_F (PVS_checked fuel') (quiescence fuel))
  end.

(** A window inside the root window of the search,
    [-MATE_SCORE <= alpha < beta <= MATE_SCORE] (search.cpp:159-160). *)
Definition inWindow (alpha beta : Z) : bool :=
  (- MATE_SCORE <=? alpha) && (alpha <? beta) && (beta <=? MATE_SCORE).

(** [PVS] with the assertion [inWindow alpha beta] at the entry of every
    frame: a frame entered with another window fails. *)
Definition assertWindow (f : PVSfun) : PVSfun :=
  fun b depth alpha beta pvLine g =>
  if inWindow alpha beta then f b depth alpha beta pvLine g else None.

Fixpoint PVS_windowed (fuel : nat) : PVSfun :=
  match fuel with
  | O => fun _ _ _ _ _ _ => None
  | S fuel' => assertWindow (PVS_F (PVS_windowed fuel') (quiescence fuel))
  end.

End Search.

(** ** Notions the properties are stated with *)

(** [clamp(x, lo, hi)] of the specification. *)
Definition clamp (x lo hi : Z) : Z := Z.max lo (Z.min x hi).

(** No ply holds the same non-null move in both killer slots. *)
Definition killersDistinct `{SearchConstants} (k : Z -> Move * Move) : Prop :=
  forall p, fst (k p) = snd (k p) -> fst (k p) = NULL_MOVE.

Section Notions.
Context `{SearchConstants} {Board Hash : Type}
        `{BoardOps Board} `{HashOps Hash Board} `{SearchSpaceOps Board}.

(** A stalemated position: the side to move is not in check and none of
    its moves can be played. *)
Definition stalemated (b : Board) : Prop :=
  isInCheck b (getPlayerToMove b) = false /\
  forall m, doPseudoLegalMove b m (getPlayerToMove b) = None /\
            doHashMove b m (getPlayerToMove b) = None.

(** The moves from which quiescence always recurses: captures, promotions
    and check escapes. *)
Definition quiescenceMoves (b : Board) : list Move :=
  getPseudoLegalCaptures b (getPlayerToMove b) false
  ++ getPseudoLegalPromotions b (getPlayerToMove b)
  ++ getPseudoLegalCheckEscapes b (getPlayerToMove b).

(** A measure that bounds the quiescence search below a position: no move
    raises it, and the moves of [quiescenceMoves] lower it. *)
Definition quiescenceRank (qrank : Board -> nat) : Prop :=
  (forall b m c b',
      doPseudoLegalMove b m c = Some b' -> (qrank b' <= qrank b)%nat) /\
  (forall b m c b',
      doHashMove b m c = Some b' -> (qrank b' <= qrank b)%nat) /\
  (forall b, (qrank (doNullMove b) <= qrank b)%nat) /\
  (forall b m b',
      In m (quiescenceMoves b) ->
      doPseudoLegalMove b m (getPlayerToMove b) = Some b' ->
      (qrank b' < qrank b)%nat).

(** What a frame leaves of the search parameters it was entered with. *)
Definition Restores (g g' : Globals Hash) : Prop :=
  nullMoveCount (searchParams g') = nullMoveCount (searchParams g) /\
  ply (searchParams g') = ply (searchParams g) /\
  (killersDistinct (killers (searchParams g)) ->
   killersDistinct (killers (searchParams g'))) /\
  (isStop g = true -> isStop g' = true).

(** What a frame called on [b] with window [alpha, beta] and globals [g]
    returns: a board no higher in [qrank], globals that restore the
    parameters, and a score inside the window or the stop sentinel. *)
Definition FramePost (qrank : Board -> nat) (b : Board) (alpha beta : Z)
    (g : Globals Hash) (res : Z * Board * SearchPV * Globals Hash) : Prop :=
  let '(r, b', _, g') := res in
  (qrank b' <= qrank b)%nat /\
  Restores g g' /\
  (alpha <= beta ->
   alpha <= r <= beta \/ (r = - INFTY /\ isStop g' = true)).

(** [self] returns, with [FramePost], whenever depth plus rank is below [n]
    and at most [K] null moves are counted. *)
Definition frameSpec (qrank : Board -> nat) (K : Z) (n : nat)
    (self : Board -> Z -> Z -> Z -> SearchPV -> Globals Hash ->
            option (Z * Board * SearchPV * Globals Hash)) : Prop :=
  forall b depth alpha beta pv g,
    (Z.to_nat depth + qrank b < n)%nat ->
    nullMoveCount (searchParams g) <= K ->
    exists res,
      self b depth alpha beta pv g = Some res /\
      FramePost qrank b alpha beta g res.

(** [qs] returns a score inside the window on every board of rank below
    [n]. *)
Definition qsSpec (qrank : Board -> nat) (n : nat)
    (qs : Board -> Z -> Z -> Z -> SearchStatistics ->
          option (Z * SearchStatistics)) : Prop :=
  forall b plies alpha beta st,
    (qrank b < n)%nat ->
    exists r st',
      qs b plies alpha beta st = Some (r, st') /\
      (alpha <= beta -> alpha <= r <= beta).

(** [rec] returns on [copy], whatever the window. *)
Definition returnsOn
    (rec : Board -> Z -> Z -> Z -> SearchStatistics ->
           option (Z * SearchStatistics)) (copy : Board) : Prop :=
  forall plies alpha beta st,
    exists r st', rec copy plies alpha beta st = Some (r, st').

(** The outcome of a quiescence loop entered with [alpha]: a return of
    beta, or an alpha that only grew and stays below beta. *)
Definition qsFlowOK (alpha beta : Z) (fl : Flow (Z * Z * Z)) : Prop :=
  match fl with
  | Return r => r = beta
  | Continue (a, _, _) => alpha <= a <= beta
  end.

(** The outcome of the move loop of PVS entered with [alpha]: a return of
    beta or of the stop sentinel with the stop flag up, or an alpha that
    only grew and stays below beta. *)
Definition loopFlowOK (alpha beta : Z) (g' : Globals Hash)
    (fl : Flow (Z * Z * Move * list Move)) : Prop :=
  match fl with
  | Return r => r = beta \/ (r = - INFTY /\ isStop g' = true)
  | Continue (a, _, _, _) => alpha <= a <= beta
  end.

(** Entered with at most [K] null moves counted, whatever [self] returns,
    [self'] returns too; the result restores the parameters and lies in
    the window, or is the stop sentinel. *)
Definition frameAgree (K : Z)
    (self self' : Board -> Z -> Z -> Z -> SearchPV -> Globals Hash ->
                  option (Z * Board * SearchPV * Globals Hash)) : Prop :=
  forall b depth alpha beta pv g res,
    nullMoveCount (searchParams g) <= K ->
    self b depth alpha beta pv g = Some res ->
    self' b depth alpha beta pv g = Some res /\
    Restores g (snd res) /\
    (alpha <= beta ->
     alpha <= fst (fst (fst res)) <= beta \/
     (fst (fst (fst res)) = - INFTY /\ isStop (snd res) = true)).

(** Whatever [qs] returns lies in the window. *)
Definition qsInWindow
    (qs : Board -> Z -> Z -> Z -> SearchStatistics ->
          option (Z * SearchStatistics)) : Prop :=
  forall b plies alpha beta st r st',
    alpha <= beta -> qs b plies alpha beta st = Some (r, st') ->
    alpha <= r <= beta.

(** On a window inside the root window, whatever [self] returns, [self']
    returns too. *)
Definition windowAgree
    (self self' : Board -> Z -> Z -> Z -> SearchPV -> Globals Hash ->
                  option (Z * Board * SearchPV * Globals Hash)) : Prop :=
  forall b depth alpha beta pv g res,
    inWindow alpha beta = true ->
    self b depth alpha beta pv g = Some res ->
    self' b depth alpha beta pv g = Some res.

(** Whatever [f] returns, [f'] returns too. *)
Definition refines
    (f f' : Board -> Z -> Z -> Z -> SearchPV -> Globals Hash ->
            option (Z * Board * SearchPV * Globals Hash)) : Prop :=
  forall b depth alpha beta pv g res,
    f b depth alpha beta pv g = Some res ->
    f' b depth alpha beta pv g = Some res.

End Notions.

(** ** A small concrete instance, for examples

    Positions are finite game trees: a node carries a hash key, the side to
    move, the draw and in-check flags, a static evaluation, the non-pawn
    material of the side to move, and its pseudo-legal moves in generation
    order, each with the position it leads to ([None]: the move leaves the
    own king in check). *)
Module Example.

#[warnings="-register-all"]
Inductive ToyBoard :=
| ToyNode (key side : Z) (draw inCheck : bool) (eval material : Z)
          (moves : list (Move * option ToyBoard)).

Definition toy_key (b : ToyBoard) : Z :=
  match b with ToyNode k _ _ _ _ _ _ => k end.
Definition toy_side (b : ToyBoard) : Z :=
  match b with ToyNode _ s _ _ _ _ _ => s end.
Definition toy_draw (b : ToyBoard) : bool :=
  match b with ToyNode _ _ d _ _ _ _ => d end.
Definition toy_inCheck (b : ToyBoard) : bool :=
  match b with ToyNode _ _ _ c _ _ _ => c end.
Definition toy_eval (b : ToyBoard) : Z :=
  match b with ToyNode _ _ _ _ e _ _ => e end.
Definition toy_material (b : ToyBoard) : Z :=
  match b with ToyNode _ _ _ _ _ n _ => n end.
Definition toy_moves (b : ToyBoard) : list (Move * option ToyBoard) :=
  match b with ToyNode _ _ _ _ _ _ ms => ms end.

(** The height of the tree. *)
Fixpoint toy_rank (b : ToyBoard) : nat :=
  match b with
  | ToyNode _ _ _ _ _ _ ms =>
      S (fold_right
           (fun p acc =>
              match snd p with
              | Some c => Nat.max (toy_rank c) acc
              | None => acc
              end) 0%nat ms)
  end.

(** Playing move [m]: the first entry for [m] decides. *)
Fixpoint toy_play (ms : list (Move * option ToyBoard)) (m : Move)
  : option ToyBoard :=
  match ms with
  | [] => None
  | (m', c) :: rest => if m' =? m then c else toy_play rest m
  end.

(** Score constants for the examples ([INFTY] just above [MATE_SCORE], as
    the specification asks), and a move encoding: moves 1000..1999 are
    captures, moves from 2000 on are promotions. *)
#[export] Instance toyConstants : SearchConstants := {|
  MATE_SCORE := 32766;
  INFTY := 32767;
  MAX_DEPTH := 127;
  PAWN_VALUE := 100;
  KNIGHT_VALUE := 320;
  QUEEN_VALUE := 975;
  MAX_POS_SCORE := 120;
  NULL_MOVE := 0;
  WHITE := 0;
  isCapture := fun m => (1000 <=? m) && (m <? 2000);
  isPromotion := fun m => 2000 <=? m;
  getStartSq := fun m => (m / 64) mod 64;
  getEndSq := fun m => m mod 64
|}.

#[export] Instance toyBoardOps : BoardOps ToyBoard := {|
  getPlayerToMove := toy_side;
  isDraw := toy_draw;
  isInCheck := fun b _ => toy_inCheck b;
  evaluate := toy_eval;
  evaluateMaterial := toy_eval;
  evaluatePositional := fun _ => 0;
  getNonPawnMaterial := fun b _ => toy_material b;
  doNullMove := fun b =>
    match b with
    | ToyNode k s d c e n ms => ToyNode k (Z.lxor s 1) d c e n ms
    end;
  doPseudoLegalMove := fun b m _ => toy_play (toy_moves b) m;
  doHashMove := fun b m _ => toy_play (toy_moves b) m;
  isCheckMove := fun b m _ =>
    match toy_play (toy_moves b) m with
    | Some c => toy_inCheck c
    | None => false
    end;
  getPieceOnSquare := fun _ _ _ => 0;
  valueOfPiece := fun _ _ => 100;
  getMVVLVAScore := fun _ _ m => m;
  getExchangeScore := fun _ _ _ => 0;
  getSEE := fun _ _ _ => 0;
  getPseudoLegalCaptures := fun b _ _ =>
    filter (fun m => isCapture m = true) (map fst (toy_moves b));
  getPseudoLegalPromotions := fun b _ =>
    filter (fun m => isPromotion m = true) (map fst (toy_moves b));
  getPseudoLegalChecks := fun b _ => [];
  getPseudoLegalCheckEscapes := fun b _ => map fst (toy_moves b)
|}.

(** The table is the list of the entries added, newest first, each under
    the key of its position; [get] returns the newest entry of the key. *)
Definition ToyHash := list (Z * HashEntry).

Fixpoint toy_get (t : ToyHash) (k : Z) : option HashEntry :=
  match t with
  | [] => None
  | (k', e) :: rest => if k' =? k then Some e else toy_get rest k
  end.

#[export] Instance toyHashOps : HashOps ToyHash ToyBoard := {|
  tt_get := fun t b => toy_get t (toy_key b);
  tt_add := fun t b depth m score nodeType _ =>
    (toy_key b, mkEntry score depth m nodeType) :: t
|}.

#[export] Instance toySearchSpaceOps : SearchSpaceOps ToyBoard := {|
  ss_generateMoves := fun b _ _ _ _ _ hashed =>
    filter (fun m => m <> hashed) (map fst (toy_moves b));
  ss_reduceBadHistories := fun _ _ _ _ _ h => h
|}.

(** The search parameters after [reset], at ply [p], with time limit
    [limit]. *)
Definition toyParams (p limit : Z) : SearchParameters :=
  mkParams p 0 (fun _ => (0, 0)) (fun _ _ _ => 0) 1 limit.

(** Globals with an empty table, the stop flag [stop], and a clock that
    always reports [now]. *)
Definition toyGlobals (p limit now : Z) (stop : bool) : Globals ToyHash :=
  mkGlobals [] (toyParams p limit) resetStats stop 0%nat (fun _ => now).

(** A leaf: no moves, side [s] to move. *)
Definition leaf (k s : Z) (inCheck : bool) (eval : Z) : ToyBoard :=
  ToyNode k s false inCheck eval 0 [].

(** White to move, one quiet move (move 1) that mates black. *)
Definition mateInOne : ToyBoard :=
  ToyNode 1 0 false false 0 0 [(1, Some (leaf 2 1 true 0))].

(** White to move, one capture (move 1000) into a quiet position that the
    evaluation scores 50 for white. *)
Definition oneCapture : ToyBoard :=
  ToyNode 3 0 false false 0 0 [(1000, Some (leaf 4 1 false 50))].

(** White to move and stalemated: not in check, and the only pseudo-legal
    move (move 1) leaves the king in check.  [eval] is the static
    evaluation; white has non-pawn material. *)
Definition stalemate (eval : Z) : ToyBoard :=
  ToyNode 5 0 false false eval 5 [(1, None)].

(** White to move, not in check, no pseudo-legal move at all. *)
Definition noMoves : ToyBoard := ToyNode 7 0 false false 0 0 [].

(** The score a search returned. *)
Definition scoreOf
    (x : option (Z * ToyBoard * SearchPV * Globals ToyHash)) : option Z :=
  option_map (fun x => fst (fst (fst x))) x.

End Example.

(** * The rest of the sources: eval.h and the root of the search *)

From Stdlib Require String Ascii.

(** ** Packed evaluation scores (eval.h:71-90)

    A [Score] is a [uint32_t]: a [Z] in [0, 2^32), with the wrap-around of
    unsigned arithmetic written out. *)
Module PackedScore.

Definition Score := Z.

Definition wrap32 (x : Z) : Z := x mod 2 ^ 32.

(** The macro [E(mg, eg)] (eval.h:76):
    [(Score) ((((int32_t) eg) << 16) + ((int32_t) mg))]. *)
Definition E (mg eg : Z) : Score := wrap32 (Z.shiftl eg 16 + mg).

(** [decEvalMg] and [decEvalEg] (eval.h:79-85). *)
Definition decEvalMg (encodedValue : Score) : Z :=
  Z.land encodedValue 65535 - 32768.

Definition decEvalEg (encodedValue : Score) : Z :=
  Z.shiftr encodedValue 16 - 32768.

(** [EVAL_ZERO = 0x80008000] (eval.h:90). *)
Definition EVAL_ZERO : Score := 2147516416.

(** [a + b] and [a - b] on [Score]s. *)
Definition add (a b : Score) : Score := wrap32 (a + b).
Definition sub (a b : Score) : Score := wrap32 (a - b).

(** A value of 16 signed bits. *)
Definition int16 (x : Z) : Prop := -32768 <= x <= 32767.

End PackedScore.

(** ** What the counters of [SearchStatistics] keep

    The counters are [uint64_t] in the source; the model counts in [Z],
    which is the same as long as no counter reaches [2^64]. *)

(** From [s] to [s'] only quiescence nodes were counted: the hash and
    fail-high counters of the main search are as they were, every node
    counted is a quiescence node, and of the quiescence nodes some failed
    high, some of these on the first move. *)
Definition QuiescenceCounts (s s' : SearchStatistics) : Prop :=
  hashProbes s' = hashProbes s /\
  hashHits s' = hashHits s /\
  hashScoreCuts s' = hashScoreCuts s /\
  hashMoveAttempts s' = hashMoveAttempts s /\
  hashMoveCuts s' = hashMoveCuts s /\
  failHighs s' = failHighs s /\
  firstFailHighs s' = firstFailHighs s /\
  nodes s' - nodes s = qsNodes s' - qsNodes s /\
  0 <= qsFirstFailHighs s' - qsFirstFailHighs s
    <= qsFailHighs s' - qsFailHighs s /\
  qsFailHighs s' - qsFailHighs s <= qsNodes s' - qsNodes s.

(** From [s] to [s'] no counter fell, and each numerator that
    [printStatistics] prints grew by no more than its denominator; a hash
    hit gave at most one of a score cut and a hash-move attempt. *)
Definition SearchCounts (s s' : SearchStatistics) : Prop :=
  0 <= hashHits s' - hashHits s <= hashProbes s' - hashProbes s /\
  0 <= hashScoreCuts s' - hashScoreCuts s /\
  0 <= hashMoveCuts s' - hashMoveCuts s
    <= hashMoveAttempts s' - hashMoveAttempts s /\
  (hashScoreCuts s' - hashScoreCuts s)
    + (hashMoveAttempts s' - hashMoveAttempts s)
    <= hashHits s' - hashHits s /\
  0 <= firstFailHighs s' - firstFailHighs s
    <= failHighs s' - failHighs s /\
  0 <= qsNodes s' - qsNodes s <= nodes s' - nodes s /\
  0 <= qsFirstFailHighs s' - qsFirstFailHighs s
    <= qsFailHighs s' - qsFailHighs s /\
  qsFailHighs s' - qsFailHighs s <= qsNodes s' - qsNodes s.

(** [getPercentage] (search.cpp:786-792) computes the [uint64_t]
    [tenThousandths] below, with the wrap-around of the product, and
    returns it as a [double] divided by [100.0]; for a zero denominator it
    returns 0.  The model stops at the integer. *)
Definition wrap64 (x : Z) : Z := x mod 2 ^ 64.

Definition tenThousandths (numerator denominator : Z) : Z :=
  if denominator =? 0 then 0
  else wrap64 (numerator * 10000) / denominator.

(** The numbers [printStatistics] (search.cpp:795-808) prints, line by
    line: the rate, in hundredths of a percent, and the count beside it. *)
Definition printStatistics (s : SearchStatistics) : list (Z * Z) :=
  [ (tenThousandths (hashHits s) (hashProbes s), hashProbes s);
    (tenThousandths (hashScoreCuts s) (hashHits s), hashHits s);
    (tenThousandths (hashMoveCuts s) (hashMoveAttempts s), hashMoveAttempts s);
    (tenThousandths (firstFailHighs s) (failHighs s), failHighs s);
    (tenThousandths (qsNodes s) (nodes s), qsNodes s);
    (tenThousandths (qsFirstFailHighs s) (qsFailHighs s), qsFailHighs s) ].

(** ** The principal variation as the source stores it

    [struct SearchPV] (search.cpp:35-42) is a length and an array of
    [MAX_DEPTH + 1] moves; the search functions above carry the moves
    [pv[0 .. pvLength-1]] as a list.  Here are [changePV] and [retrievePV]
    on the array.  A write past the end of the array is undefined in the
    source and does nothing here. *)
Module Line.

Record SearchPV := mkPV {
  pvLength : Z;
  pv : list Move
}.

(** The moves of the line: [pv[0 .. pvLength-1]]. *)
Definition visible (a : SearchPV) : list Move :=
  take (Z.to_nat (pvLength a)) (pv a).

(** The loop [for (i = 0; i < child->pvLength; i++)
    parent->pv[i+1] = child->pv[i]], with [n] iterations left. *)
Fixpoint copyLine (child : list Move) (n i : nat) (parent : list Move)
  : list Move :=
  match n with
  | O => parent
  | S n' => copyLine child n' (S i) (<[S i := get child i]> parent)
  end.

(** [changePV] (search.cpp:767-773); the result is the parent. *)
Definition changePV (best : Move) (parent child : SearchPV) : SearchPV :=
  mkPV (pvLength child + 1)
       (copyLine (pv child) (Z.to_nat (pvLength child)) 0
                 (<[0%nat := best]> (pv parent))).

(** The string [" "]. *)
Definition space : String.string :=
  String.String (Ascii.ascii_of_nat 32) String.EmptyString.

Section Retrieve.
(** [moveToString] is not part of search.cpp. *)
Variable moveToString : Move -> String.string.

(** The loop [for (i = 1; i < pvLength; i++)
    pvStr += " " + moveToString(pv[i])], with [n] iterations left. *)
Fixpoint appendMoves (moves : list Move) (n i : nat) (pvStr : String.string)
  : String.string :=
  match n with
  | O => pvStr
  | S n' =>
      appendMoves moves n' (S i)
        (String.append pvStr
           (String.append space (moveToString (get moves i))))
  end.

(** [retrievePV] (search.cpp:776-783). *)
Definition retrievePV (pvLine : SearchPV) : String.string :=
  appendMoves (pv pvLine) (Z.to_nat (pvLength pvLine - 1)) 1
    (moveToString (get (pv pvLine) 0)).

End Retrieve.

End Line.

(** ** The root of the search *)

(** [Board::doMove], which the root uses on the legal moves; it is not
    part of search.cpp. *)
Class RootOps (Board : Type) := {
  doMove : Board -> Move -> Z -> Board
}.

(** The value of [unsigned int tempMove = -1]. *)
Definition NO_MOVE : Z := 4294967295.

Section Root.
Context `{SearchConstants} {Board Hash : Type}
        `{BoardOps Board} `{HashOps Hash Board} `{SearchSpaceOps Board}
        `{RootOps Board}.

(** The search of root move [i] on [copy] (search.cpp:170-184 and
    212-226): a null-window search and, inside the window, a re-search,
    or the full-window search of the first move. *)
Definition rootSearch (self : PVSfun) (copy : Board) (depth alpha beta : Z)
    (i : nat) (line : SearchPV) (g : Globals Hash)
    : option (Z * SearchPV * Globals Hash) :=
  if negb (Nat.eqb i 0) then
    match self copy (depth - 1) (- alpha - 1) (- alpha) line (inc_ply g) with
    | None => None
    | Some (r, copy, line, g) =>
        let g := dec_ply g in
        let score := - r in
        if (alpha <? score) && (score <? beta) then
          match self copy (depth - 1) (- beta) (- alpha) line (inc_ply g) with
          | None => None
          | Some (r, _, line, g) => Some (- r, line, dec_ply g)
          end
        else Some (score, line, g)
    end
  else
    match self copy (depth - 1) (- beta) (- alpha) line (inc_ply g) with
    | None => None
    | Some (r, _, line, g) => Some (- r, line, dec_ply g)
    end.

(** The loop of [getBestMoveAtDepth] (search.cpp:160-191) from index [i],
    with [n = size - i] iterations left.  The result is [tempMove], the
    reference parameter [bestScore] and the line written through [pvLine]. *)
Fixpoint rootLoop (self : PVSfun) (b : Board) (color depth : Z)
    (legalMoves : MoveList) (n i : nat) (tempMove alpha beta bestScore : Z)
    (pvLine line : SearchPV) (g : Globals Hash)
    : option (Z * Z * SearchPV * Globals Hash) :=
  match n with
  | O => Some (tempMove, alpha, pvLine, g)
  | S n' =>
      if isStop g then Some (tempMove, bestScore, pvLine, g)
      else
        let copy := doMove b (get legalMoves i) color in
        let g := stat g inc_nodes in
        match rootSearch self copy depth alpha beta i line g with
        | None => None
        | Some (score, line, g) =>
            if score >? alpha then
              rootLoop self b color depth legalMoves n' (S i) (Z.of_nat i)
                score beta bestScore (changePV (get legalMoves i) line) line g
            else
              rootLoop self b color depth legalMoves n' (S i) tempMove
                alpha beta bestScore pvLine line g
        end
  end.

(** [getBestMoveAtDepth] (search.cpp:151-196). *)
Definition getBestMoveAtDepth (self : PVSfun) (b : Board)
    (legalMoves : MoveList) (depth bestScore : Z) (pvLine : SearchPV)
    (g : Globals Hash) : option (Z * Z * SearchPV * Globals Hash) :=
  let color := getPlayerToMove b in
  rootLoop self b color depth legalMoves (length legalMoves) 0 NO_MOVE
    (- MATE_SCORE) MATE_SCORE bestScore pvLine [] g.

(** The loop of [getBestMoveForSort] (search.cpp:207-232) from index [i],
    with [n = size - i] iterations left. *)
Fixpoint sortLoop (self : PVSfun) (b : Board) (color depth : Z)
    (legalMoves : MoveList) (n i : nat) (tempMove alpha beta : Z)
    (line : SearchPV) (g : Globals Hash) : option (Z * Globals Hash) :=
  match n with
  | O => Some (tempMove, g)
  | S n' =>
      match doPseudoLegalMove b (get legalMoves i) color with
      | None =>
          sortLoop self b color depth legalMoves n' (S i) tempMove alpha beta
            line g
      | Some copy =>
          match rootSearch self copy depth alpha beta i line g with
          | None => None
          | Some (score, line, g) =>
              if score >? alpha then
                sortLoop self b color depth legalMoves n' (S i) (Z.of_nat i)
                  score beta line g
              else
                sortLoop self b color depth legalMoves n' (S i) tempMove
                  alpha beta line g
          end
      end
  end.

(** [getBestMoveForSort] (search.cpp:199-235); [int tempMove = -1]. *)
Definition getBestMoveForSort (self : PVSfun) (b : Board)
    (legalMoves : MoveList) (depth : Z) (g : Globals Hash)
    : option (Z * Globals Hash) :=
  let color := getPlayerToMove b in
  sortLoop self b color depth legalMoves (length legalMoves) 0 (-1)
    (- MATE_SCORE) MATE_SCORE [] g.

End Root.

(** ** The iterative-deepening driver

    [getBestMove] (search.cpp:79-148) uses code that is not part of
    search.cpp: the methods [reset] and [ageHistoryTable] of
    [SearchParameters], [Board::getMoveNumber] and
    [Board::getAllLegalMoves], the fill of the table, the constants of
    common.h, and arithmetic on [double]s for the time budget and the
    nodes per second.  They are the interface [DriverOps].  The calls of
    [getTimeElapsed] in [getBestMove] read the clock of [Globals], like
    those of the move loop. *)
Class DriverOps (Board Hash : Type) := {
  getMoveNumber : Board -> Z;
  getAllLegalMoves : Board -> Z -> MoveList;
  (** [SearchParameters::reset] and [SearchParameters::ageHistoryTable] *)
  params_reset : SearchParameters -> SearchParameters;
  params_ageHistoryTable : SearchParameters -> SearchParameters;
  (** the modes [TIME] and [DEPTH], and [MAX_TIME] *)
  TIME : Z;
  DEPTH : Z;
  MAX_TIME : Z;
  (** [(uint64_t) (MAX_TIME_FACTOR * value)] *)
  hardTimeLimit : Z -> Z;
  (** [timeSoFar * ONE_SECOND < value * TIME_FACTOR], on the clock reading
      [timeSoFar * ONE_SECOND] and [value] *)
  softTimeLeft : Z -> Z -> bool;
  PAWN_VALUE_EG : Z;
  (** [(uint64_t) ((double) nodes / timeSoFar)], on [nodes] and the clock
      reading *)
  nodesPerSecond : Z -> Z -> Z;
  (** [1000 * transpositionTable.keys / transpositionTable.getSize()] *)
  hashfull : Hash -> Z
}.

Definition set_rootMoveNumber (p : SearchParameters) (v : Z)
  : SearchParameters :=
  mkParams (ply p) (nullMoveCount p) (killers p) (historyTable p) v
    (timeLimit p).
Definition set_timeLimit (p : SearchParameters) (v : Z) : SearchParameters :=
  mkParams (ply p) (nullMoveCount p) (killers p) (historyTable p)
    (rootMoveNumber p) v.

(** The score of an info line: [mate n] or [cp n]. *)
Inductive UciScore :=
| Mate (n : Z)
| Cp (n : Z).

(** What [getBestMove] prints: the info line of an iteration (depth,
    score, time, nodes, nps, hashfull, and the line that [retrievePV]
    prints), the statistics, and the best move. *)
Inductive Output :=
| InfoLine (depth : Z) (score : UciScore) (time nodes nps full : Z)
           (pv : SearchPV)
| StatsLines (lines : list (Z * Z))
| BestMoveLine (m : Move).

(** The conversion of the [unsigned int] index to [int bestMoveIndex]. *)
Definition toInt (x : Z) : Z :=
  if x >=? 2147483648 then x - 4294967296 else x.

Section Driver.
Context `{SearchConstants} {Board Hash : Type}
        `{BoardOps Board} `{HashOps Hash Board} `{SearchSpaceOps Board}
        `{RootOps Board} `{DriverOps Board Hash}.

(** The score as the info line prints it (search.cpp:117-128); [/] of C++
    truncates. *)
Definition uciScore (bestScore : Z) : UciScore :=
  if bestScore >=? MATE_SCORE - MAX_DEPTH
  then Mate ((MATE_SCORE - bestScore) ÷ 2 + 1)
  else if bestScore <=? - MATE_SCORE + MAX_DEPTH
  then Mate ((- MATE_SCORE - bestScore) ÷ 2)
  else Cp (bestScore * 100 ÷ PAWN_VALUE_EG).

(** The deepest iteration the loop condition of [getBestMove] admits
    (search.cpp:137-139): [MAX_DEPTH] in mode [TIME], [value] in mode
    [DEPTH], and the first iteration in any case. *)
Definition depthLimit (mode value : Z) : Z :=
  Z.max 1 (Z.max (if mode =? TIME then MAX_DEPTH else 0)
                 (if mode =? DEPTH then value else 0)).

(** The info line (search.cpp:109-133). *)
Definition infoLine (rootDepth bestScore timeSoFar : Z) (pvLine : SearchPV)
    (g : Globals Hash) : Output :=
  InfoLine rootDepth (uciScore bestScore) timeSoFar (nodes (searchStats g))
    (nodesPerSecond (nodes (searchStats g)) timeSoFar)
    (hashfull (transpositionTable g)) pvLine.

(** The [do ... while] loop of [getBestMove] (search.cpp:95-139), with
    [iters] iterations of fuel; the result is [*bestMove], the lines
    printed and the globals when the loop is left. *)
Fixpoint deepen (iters : nat) (self : PVSfun) (b : Board) (mode value : Z)
    (legalMoves : MoveList) (bestMove : Move) (bestScore rootDepth : Z)
    (out : list Output) (g : Globals Hash)
    : option (Move * list Output * Globals Hash) :=
  match iters with
  | O => None
  | S iters' =>
      let g := set_searchParams g (params_reset (searchParams g)) in
      match getBestMoveAtDepth self b legalMoves rootDepth bestScore [] g with
      | None => None
      | Some (tempMove, bestScore, pvLine, g) =>
          let bestMoveIndex := toInt tempMove in
          if bestMoveIndex =? -1 then Some (bestMove, out, g)
          else
            let legalMoves := swap legalMoves 0 (Z.to_nat bestMoveIndex) in
            let bestMove := get legalMoves 0 in
            let '(timeSoFar, g) := readClock g in
            let out :=
              out ++ [infoLine rootDepth bestScore timeSoFar pvLine g] in
            let rootDepth := rootDepth + 1 in
            if ((mode =? TIME) && softTimeLeft timeSoFar value
                && (rootDepth <=? MAX_DEPTH))
               || ((mode =? DEPTH) && (rootDepth <=? value))
            then deepen iters' self b mode value legalMoves bestMove bestScore
                   rootDepth out g
            else Some (bestMove, out, g)
      end
  end.

(** [getBestMove] (search.cpp:79-148).  [bestScore] is what the
    uninitialised [int bestScore] holds. *)
Definition getBestMove (iters : nat) (self : PVSfun) (b : Board)
    (mode value bestScore : Z) (g : Globals Hash)
    : option (Move * list Output * Globals Hash) :=
  let g := set_searchParams g (params_reset (searchParams g)) in
  let g := set_searchStats g resetStats in
  let g :=
    set_searchParams g
      (set_rootMoveNumber (searchParams g) (getMoveNumber b mod 256)) in
  let color := getPlayerToMove b in
  let legalMoves := getAllLegalMoves b color in
  let bestMove := get legalMoves 0 in
  let g :=
    set_searchParams g
      (set_timeLimit (searchParams g)
         (if mode =? TIME then hardTimeLimit value else MAX_TIME)) in
  let '(_, g) := readClock g in
  match deepen iters self b mode value legalMoves bestMove bestScore 1 [] g
  with
  | None => None
  | Some (bestMove, out, g) =>
      let out := out ++ [StatsLines (printStatistics (searchStats g))] in
      let g := set_searchParams g (params_ageHistoryTable (searchParams g)) in
      let g := set_isStop g true in
      Some (bestMove, out ++ [BestMoveLine bestMove], g)
  end.

End Driver.

(** The root on the concrete instance: [doMove] plays the move on the game
    tree. *)
Module RootExample.
Import Example.

#[export] Instance toyRootOps : RootOps ToyBoard := {|
  doMove := fun b m _ =>
    match toy_play (toy_moves b) m with
    | Some c => c
    | None => b
    end
|}.

(** White to move with two quiet moves, 1 and 3; black answers either
    with one quiet move into a leaf. *)
Definition twoMoves : ToyBoard :=
  ToyNode 10 0 false false 0 5
    [(1, Some (ToyNode 11 1 false false (-30) 5
                 [(2, Some (leaf 12 0 false 30))]));
     (3, Some (ToyNode 13 1 false false 20 5
                 [(4, Some (leaf 14 0 false (-20)))]))].

(** White to move with two quiet moves: move 1 is worth 10, move 3 is
    worth 30.  In the window [0, 20] move 1 raises alpha and move 3 fails
    high. *)
Definition raiseThenCut : ToyBoard :=
  ToyNode 20 0 false false 0 5
    [(1, Some (ToyNode 21 1 false false (-10) 5
                 [(2, Some (leaf 22 0 false 10))]));
     (3, Some (ToyNode 23 1 false false (-30) 5
                 [(4, Some (leaf 24 0 false 30))]))].

(** Black to move, in check, without a move: checkmated. *)
Definition mated : ToyBoard := leaf 2 1 true 0.

(** Globals at ply 0 with time limit 1000, the stop flag down, and a
    clock that reports 0 on its first [k] readings and 2000 from then
    on. *)
Definition lateGlobals (k : nat) : Globals ToyHash :=
  mkGlobals [] (toyParams 0 1000) resetStats false 0%nat
    (fun i => if (i <? k)%nat then 0 else 2000).

(** A driver for the examples: all moves of the tree that can be played
    are legal; [reset] clears ply, null-move count and killers;
    [ageHistoryTable] halves the counters; the soft time budget is
    [value], the hard one three times that. *)
#[export] Instance toyDriverOps : DriverOps ToyBoard ToyHash := {|
  getMoveNumber := fun _ => 1;
  getAllLegalMoves := fun b _ =>
    map fst (filter (fun p => is_Some (snd p)) (toy_moves b));
  params_reset := fun p =>
    mkParams 0 0 (fun _ => (0, 0)) (historyTable p) (rootMoveNumber p)
      (timeLimit p);
  params_ageHistoryTable := fun p =>
    set_historyTable p (fun c q s => historyTable p c q s / 2);
  TIME := 1;
  DEPTH := 2;
  MAX_TIME := 1000000;
  hardTimeLimit := fun value => 3 * value;
  softTimeLeft := fun timeSoFar value => timeSoFar <? value;
  PAWN_VALUE_EG := 100;
  nodesPerSecond := fun n timeSoFar =>
    if timeSoFar =? 0 then 0 else n * 1000 / timeSoFar;
  hashfull := fun t => Z.of_nat (length t)
|}.

(** One character per move, for printing lines. *)
Definition toyMoveToString (m : Move) : String.string :=
  String.String (Ascii.ascii_of_nat (Z.to_nat m)) String.EmptyString.

End RootExample.

(** * Properties *)

(** ** [nextMove]: the partial selection sort *)
Section NextMoveFacts.
Context `{SearchConstants}.

Lemma get_lookup (l : list Z) i x : l !! i = Some x -> get l i = x.
Proof. unfold get. intros ->. reflexivity. Qed.

Lemma lookup_get (l : list Z) i :
  (i < length l)%nat -> l !! i = Some (get l i).
Proof.
  intros Hi. destruct (lookup_lt_is_Some_2 l i Hi) as [x Hx].
  rewrite Hx. f_equal. symmetry. now apply get_lookup.
Qed.

Lemma length_swap {A} (l : list A) i j : length (swap l i j) = length l.
Proof.
  unfold swap. destruct (l !! i), (l !! j); try reflexivity.
  now rewrite !length_insert.
Qed.

(** After [swap l i j], position [j] holds what was at [i]. *)
Lemma lookup_swap_r {A} (l : list A) i j :
  (i < length l)%nat -> (j < length l)%nat -> swap l i j !! j = l !! i.
Proof.
  intros Hi Hj. unfold swap.
  destruct (lookup_lt_is_Some_2 l i Hi) as [a Ha].
  destruct (lookup_lt_is_Some_2 l j Hj) as [b Hb].
  rewrite Ha, Hb. destruct (decide (i = j)) as [->|Hne].
  - rewrite list_lookup_insert_eq by (rewrite length_insert; lia). congruence.
  - rewrite list_lookup_insert_ne by done.
    now rewrite list_lookup_insert_eq by lia.
Qed.

(** Overwriting one element by another element of the list and putting
    the overwritten one in front permutes the list. *)
Lemma insert_front_Permutation {A} (l : list A) j a b :
  l !! j = Some b -> b :: <[j := a]> l ≡ₚ a :: l.
Proof.
  revert j. induction l as [|c l IH]; intros [|j] Hj; simplify_eq/=.
  - apply perm_swap.
  - rewrite perm_swap. rewrite (IH j Hj). apply perm_swap.
Qed.

Lemma insert_insert_Permutation {A} (l : list A) i j a b :
  l !! i = Some a -> l !! j = Some b -> <[i := b]> (<[j := a]> l) ≡ₚ l.
Proof.
  revert i j. induction l as [|c l IH]; intros [|i] [|j] Hi Hj;
    simplify_eq/=; try done.
  - now apply insert_front_Permutation.
  - now apply insert_front_Permutation.
  - f_equiv. now apply IH.
Qed.

Lemma swap_Permutation {A} (l : list A) i j : swap l i j ≡ₚ l.
Proof.
  unfold swap. destruct (l !! i) as [a|] eqn:Hi; [|done].
  destruct (l !! j) as [b|] eqn:Hj; [|done].
  now apply insert_insert_Permutation.
Qed.

Lemma lookup_swap {A} (l : list A) i j k :
  (i < length l)%nat -> (j < length l)%nat ->
  swap l i j !! k
  = if decide (k = i) then l !! j
    else if decide (k = j) then l !! i else l !! k.
Proof.
  intros Hi Hj. unfold swap.
  destruct (lookup_lt_is_Some_2 l i Hi) as [a Ha].
  destruct (lookup_lt_is_Some_2 l j Hj) as [b Hb].
  rewrite Ha, Hb. destruct (decide (k = i)) as [->|Hki].
  - now rewrite list_lookup_insert_eq by (rewrite length_insert; lia).
  - rewrite list_lookup_insert_ne by done.
    destruct (decide (k = j)) as [->|Hkj].
    + now rewrite list_lookup_insert_eq by lia.
    + now rewrite list_lookup_insert_ne by done.
Qed.

Lemma get_swap (l : list Z) i j k :
  (i < length l)%nat -> (j < length l)%nat ->
  get (swap l i j) k
  = if decide (k = i) then get l j
    else if decide (k = j) then get l i else get l k.
Proof.
  intros Hi Hj. unfold get. rewrite lookup_swap by done.
  repeat case_decide; reflexivity.
Qed.

Lemma drop_swap {A} (l : list A) i j :
  (i <= j)%nat -> drop i (swap l j i) = swap (drop i l) (j - i) 0.
Proof.
  intros Hij. unfold swap. rewrite !lookup_drop.
  replace (i + (j - i))%nat with j by lia. replace (i + 0)%nat with i by lia.
  destruct (l !! j) as [a|]; [|done]. destruct (l !! i) as [b|]; [|done].
  rewrite drop_insert_ge by done. rewrite drop_insert_ge by done.
  now replace (i - i)%nat with 0%nat by lia.
Qed.

Lemma zip_swap {A B} (l : list A) (k : list B) i j :
  length l = length k -> zip (swap l i j) (swap k i j) = swap (zip l k) i j.
Proof.
  intros Hlen. unfold swap. rewrite !lookup_zip_with.
  destruct (l !! i) as [a|] eqn:Hli.
  - destruct (lookup_lt_is_Some_2 k i) as [a' Hki].
    { rewrite <- Hlen. now apply (lookup_lt_Some l i a). }
    rewrite Hki. simpl.
    destruct (l !! j) as [b|] eqn:Hlj.
    + destruct (lookup_lt_is_Some_2 k j) as [b' Hkj].
      { rewrite <- Hlen. now apply (lookup_lt_Some l j b). }
      rewrite Hkj. simpl. now rewrite !insert_zip_with.
    + rewrite (proj2 (lookup_ge_None k j)); [done|].
      rewrite <- Hlen. now apply lookup_ge_None.
  - rewrite (proj2 (lookup_ge_None k i)); [done|].
    rewrite <- Hlen. now apply lookup_ge_None.
Qed.

(** The scan keeps the index of a largest score seen so far. *)
Lemma scanBest_spec (scores : ScoreList) (lo : nat) :
  forall n i bestIndex,
    (lo <= bestIndex < i)%nat ->
    (forall k, (lo <= k < i)%nat -> get scores k <= get scores bestIndex) ->
    let j := scanBest scores n i bestIndex (get scores bestIndex) in
    (lo <= j < i + n)%nat /\
    forall k, (lo <= k < i + n)%nat -> get scores k <= get scores j.
Proof.
  induction n as [|n IH]; intros i bestIndex Hb Hmax; simpl.
  - split; [lia|]. intros k Hk. apply Hmax. lia.
  - destruct (Z.gtb_spec (get scores i) (get scores bestIndex)) as [Hgt|Hgt].
    + destruct (IH (S i) i) as [Hr Hm].
      * lia.
      * intros k Hk. destruct (decide (k = i)) as [->|]; [lia|].
        specialize (Hmax k). lia.
      * split; [lia|]. intros k Hk. apply Hm. lia.
    + destruct (IH (S i) bestIndex) as [Hr Hm].
      * lia.
      * intros k Hk. destruct (decide (k = i)) as [->|]; [lia|].
        apply Hmax. lia.
      * split; [lia|]. intros k Hk. apply Hm. lia.
Qed.

Lemma nextMove_past_end moves scores index :
  (length moves <= index)%nat ->
  nextMove moves scores index = (NULL_MOVE, moves, scores).
Proof.
  intros Hle. unfold nextMove.
  now rewrite (proj2 (Nat.leb_le _ _) Hle).
Qed.

(** Inside the list, [nextMove] picks a position [j] of a largest score
    from [index] on, swaps it with [index] in both lists and returns the
    move now at [index]. *)
Lemma nextMove_in_range moves scores index :
  (index < length moves)%nat ->
  exists j,
    (index <= j < length moves)%nat /\
    (forall k, (index <= k < length moves)%nat ->
               get scores k <= get scores j) /\
    nextMove moves scores index
    = (get moves j, swap moves j index, swap scores j index).
Proof.
  intros Hlt. unfold nextMove. unfold MoveList, ScoreList, Move in *.
  rewrite (proj2 (Nat.leb_gt _ _) Hlt).
  destruct (scanBest_spec scores index (length moves - S index) (S index)
              index) as [Hr Hm]; [lia|intros k Hk; assert (k = index) by lia;
                                     subst; lia|].
  set (j := scanBest _ _ _ _ _) in *.
  exists j. split; [lia|]. split.
  - intros k Hk. apply Hm. lia.
  - cbv zeta. f_equal. f_equal.
    apply get_lookup. rewrite lookup_swap_r by lia. apply lookup_get. lia.
Qed.

(** The scores [successive] collects never rise, and none exceeds a bound
    on the scores from [index] on. *)
Lemma successive_sorted :
  forall n moves scores index B,
    length scores = length moves ->
    (n + index <= length moves)%nat ->
    (forall k, (index <= k < length moves)%nat -> get scores k <= B) ->
    let ys := successive n moves scores index in
    Forall (fun p => snd p <= B) ys /\
    StronglySorted (fun p q => snd q <= snd p) ys.
Proof.
  induction n as [|n IH]; intros moves scores index B Hlen Hn HB; simpl.
  - split; constructor.
  - destruct (nextMove_in_range moves scores index) as (j & Hj & Hmax & ->);
      [lia|].
    unfold MoveList, ScoreList, Move in *.
    assert (Hs : get (swap scores j index) index = get scores j).
    { rewrite get_swap by lia. repeat case_decide; congruence. }
    rewrite Hs.
    destruct (IH (swap moves j index) (swap scores j index) (S index)
                (get scores j)) as [HF HS].
    + now rewrite !length_swap.
    + rewrite length_swap. lia.
    + intros k Hk. rewrite length_swap in Hk. rewrite get_swap by lia.
      repeat case_decide; subst; apply Hmax; lia.
    + split.
      * constructor; [simpl; apply HB; lia|].
        eapply Forall_impl; [exact HF|]. simpl. intros p Hp.
        specialize (HB j). lia.
      * constructor; [exact HS|exact HF].
Qed.

(** The moves [successive] collects, each with its own score, are the
    entries of the two lists from [index] on, in some order. *)
Lemma successive_Permutation :
  forall n moves scores index,
    length scores = length moves ->
    (n + index = length moves)%nat ->
    successive n moves scores index ≡ₚ drop index (zip moves scores).
Proof.
  induction n as [|n IH]; intros moves scores index Hlen Hn; simpl.
  - rewrite drop_ge; [done|]. rewrite length_zip_with.
    unfold MoveList, ScoreList, Move in *. lia.
  - destruct (nextMove_in_range moves scores index) as (j & Hj & _ & ->);
      [lia|].
    unfold MoveList, ScoreList, Move in *.
    rewrite IH by (rewrite ?length_swap; lia).
    rewrite zip_swap by done.
    assert (Hz : (length (zip moves scores) = length moves)%nat).
    { rewrite length_zip_with. lia. }
    rewrite <- (swap_Permutation (drop index (zip moves scores))
                  (j - index) 0).
    rewrite <- drop_swap by lia.
    rewrite (drop_S (swap (zip moves scores) j index)
               (get moves j, get (swap scores j index) index) index); [done|].
    rewrite lookup_swap by lia.
    assert (Hl : zip moves scores !! j
                 = Some (get moves j, get (swap scores j index) index)).
    { rewrite lookup_zip_with. rewrite (lookup_get moves j) by lia.
      rewrite (lookup_get scores j) by lia. simpl.
      rewrite get_swap by lia. repeat case_decide; congruence. }
    repeat case_decide; subst; try done.
Qed.

Lemma nextMove_length moves scores index :
  length (snd (fst (nextMove moves scores index))) = length moves.
Proof.
  destruct (Nat.le_gt_cases (length moves) index) as [Hle|Hlt].
  - now rewrite nextMove_past_end.
  - destruct (nextMove_in_range moves scores index Hlt) as (j & _ & _ & ->).
    simpl. apply length_swap.
Qed.

(** C9.  For a move list with a parallel score list: [nextMove] returns
    [NULL_MOVE] and leaves the lists alone when [index] is past the end;
    otherwise it picks a position [j >= index] whose score is largest
    among those from [index] on, swaps it with [index] in both lists, and
    returns that move; on a list of moves, which holds no [NULL_MOVE]
    ([NULL_MOVE] is what ends the loop of the caller, search.cpp:594), the
    result is [NULL_MOVE] exactly when [index] is past the end; and the
    calls with index 0, 1, 2, ... yield all the moves of the list, each
    with its own score, in descending order of score. *)
Theorem nextMove_selection_sort (moves : MoveList) (scores : ScoreList)
    (index : nat) :
  length scores = length moves ->
  ((length moves <= index)%nat ->
   nextMove moves scores index = (NULL_MOVE, moves, scores)) /\
  ((index < length moves)%nat ->
   exists j,
     (index <= j < length moves)%nat /\
     (forall k, (index <= k < length moves)%nat ->
                get scores k <= get scores j) /\
     nextMove moves scores index
     = (get moves j, swap moves j index, swap scores j index) /\
     get (swap scores j index) index = get scores j) /\
  (~ In NULL_MOVE moves ->
   (fst (fst (nextMove moves scores index)) = NULL_MOVE
    <-> (length moves <= index)%nat)) /\
  StronglySorted (fun p q => snd q <= snd p)
    (successive (length moves) moves scores 0) /\
  successive (length moves) moves scores 0 ≡ₚ zip moves scores.
Proof.
  intros Hlen. split; [apply nextMove_past_end|]. split; [|split; [|split]].
  - intros Hlt.
    destruct (nextMove_in_range moves scores index Hlt) as (j & Hj & Hmax & E).
    exists j. repeat split; try assumption; try lia.
    unfold MoveList, ScoreList, Move in *.
    rewrite get_swap by lia. repeat case_decide; congruence.
  - intros Hnull. split.
    + intros Hres. destruct (Nat.le_gt_cases (length moves) index) as [|Hlt];
        [assumption|exfalso].
      destruct (nextMove_in_range moves scores index Hlt) as (j & Hj & _ & E).
      rewrite E in Hres. simpl in Hres. apply Hnull. rewrite <- Hres.
      apply list_elem_of_In. apply (list_elem_of_lookup_2 _ j).
      apply lookup_get. unfold MoveList, Move in *. lia.
    + intros Hle. now rewrite nextMove_past_end.
  - apply (successive_sorted (length moves) moves scores 0
             (Z.max (fold_right Z.max 0 scores) 0)); [assumption|lia|].
    intros k _. unfold get. clear. revert k.
    induction scores as [|x scores IH]; intros k; simpl.
    + destruct k; simpl; lia.
    + destruct k as [|k]; simpl; [lia|]. specialize (IH k). simpl in IH. lia.
  - rewrite successive_Permutation by (assumption || lia). now rewrite drop_0.
Qed.

End NextMoveFacts.

(** ** Quiescence: it returns, inside the window *)
Section QuiescenceFacts.
Context `{SearchConstants} {Board Hash : Type}
        `{BoardOps Board} `{HashOps Hash Board} `{SearchSpaceOps Board}.
Variable qrank : Board -> nat.
Hypothesis Hrank : quiescenceRank qrank.

Lemma qsVisit_spec (rec : QSfun) (copy : Board) plies alpha beta j st :
  returnsOn rec copy ->
  exists fl st',
    qsVisit rec copy plies alpha beta j st = Some (fl, st') /\
    (alpha <= beta -> qsFlowOK alpha beta fl).
Proof.
  intros Hrec. unfold qsVisit.
  destruct (Hrec (plies + 1) (- beta) (- alpha) (inc_qsNodes (inc_nodes st)))
    as (r & st' & ->).
  destruct (Z.geb_spec (- r) beta) as [Hge|Hlt].
  - eexists _, _. split; [reflexivity|]. intros _. reflexivity.
  - eexists _, _. split; [reflexivity|]. intros Hab. simpl.
    destruct (Z.gtb_spec (- r) alpha); lia.
Qed.

Lemma qsLoop_spec (rec : QSfun) skip (b : Board) color plies beta moves :
  (forall m copy, In m moves -> doPseudoLegalMove b m color = Some copy ->
                  returnsOn rec copy) ->
  forall alpha score j st,
  exists fl st',
    qsLoop rec skip b color plies beta moves alpha score j st
    = Some (fl, st') /\
    (alpha <= beta -> qsFlowOK alpha beta fl).
Proof.
  induction moves as [|m moves IH]; intros Hrec alpha score j st; simpl.
  - eexists _, _. split; [reflexivity|]. intros Hab. simpl. lia.
  - assert (Hrest : forall m' copy, In m' moves ->
              doPseudoLegalMove b m' color = Some copy -> returnsOn rec copy).
    { intros m' copy Hin. apply Hrec. now right. }
    destruct (skip m); [now apply IH|].
    destruct (doPseudoLegalMove b m color) as [copy|] eqn:Hmove;
      [|now apply IH].
    destruct (qsVisit_spec rec copy plies alpha beta j st)
      as (fl & st' & -> & Hfl); [apply (Hrec m); [now left|assumption]|].
    destruct fl as [r|[[alpha' score'] j']].
    + eexists _, _. split; [reflexivity|]. exact Hfl.
    + destruct (IH Hrest alpha' score' j' st') as (fl & st'' & -> & Hfl').
      eexists _, _. split; [reflexivity|]. intros Hab.
      specialize (Hfl Hab). simpl in Hfl.
      destruct fl as [r|[[a s] k]]; simpl in *; [apply Hfl'; lia|].
      assert (alpha' <= a <= beta) by (apply Hfl'; lia). lia.
Qed.

Lemma qsCaptures_spec (rec : QSfun) (b : Board) color plies beta standPat :
  forall n i moves scores,
  (forall m copy, In m moves -> doPseudoLegalMove b m color = Some copy ->
                  returnsOn rec copy) ->
  forall alpha score j st,
  exists fl st',
    qsCaptures rec b color plies beta standPat n i moves scores alpha score
      j st = Some (fl, st') /\
    (alpha <= beta -> qsFlowOK alpha beta fl).
Proof.
  induction n as [|n IH]; intros i moves scores Hrec alpha score j st; simpl.
  - eexists _, _. split; [reflexivity|]. intros Hab. simpl. lia.
  - destruct (Nat.le_gt_cases (length moves) i) as [Hle|Hlt].
    { rewrite nextMove_past_end by assumption. rewrite Z.eqb_refl.
      eexists _, _. split; [reflexivity|]. intros Hab. simpl. lia. }
    destruct (nextMove_in_range moves scores i Hlt) as (k & Hk & _ & ->).
    assert (Hin : In (get moves k) moves).
    { apply list_elem_of_In. apply (list_elem_of_lookup_2 _ k).
      apply lookup_get. unfold MoveList, Move in *. lia. }
    assert (Hrec' : forall m copy, In m (swap moves k i) ->
              doPseudoLegalMove b m color = Some copy -> returnsOn rec copy).
    { intros m copy Hm. apply Hrec. apply list_elem_of_In.
      rewrite <- (swap_Permutation moves k i). now apply list_elem_of_In. }
    destruct (get moves k =? NULL_MOVE).
    { eexists _, _. split; [reflexivity|]. intros Hab. simpl. lia. }
    destruct (_ <? _); [now apply IH|].
    destruct (_ && _); [now apply IH|].
    destruct (doPseudoLegalMove b (get moves k) color) as [copy|] eqn:Hmove;
      [|now apply IH].
    destruct (qsVisit_spec rec copy plies alpha beta j st)
      as (fl & st' & -> & Hfl); [now apply (Hrec (get moves k))|].
    destruct fl as [r|[[alpha' score'] j']].
    + eexists _, _. split; [reflexivity|]. exact Hfl.
    + destruct (IH (S i) (swap moves k i) (swap scores k i) Hrec'
                  alpha' score' j' st') as (fl & st'' & -> & Hfl').
      eexists _, _. split; [reflexivity|]. intros Hab.
      specialize (Hfl Hab). simpl in Hfl.
      destruct fl as [r|[[a s] q]]; simpl in *; [apply Hfl'; lia|].
      assert (alpha' <= a <= beta) by (apply Hfl'; lia). lia.
Qed.

(** The bound [n] of the capture loop only has to cover the moves from
    [i] on: a larger bound gives the same result, since the call of
    [nextMove] past the end returns [NULL_MOVE] and ends the loop. *)
Lemma qsCaptures_bound (rec : QSfun) (b : Board) color plies beta standPat k :
  forall n i moves scores alpha score j st,
    (length moves <= i + n)%nat ->
    qsCaptures rec b color plies beta standPat (n + k) i moves scores alpha
      score j st
    = qsCaptures rec b color plies beta standPat n i moves scores alpha
        score j st.
Proof.
  induction n as [|n IH]; intros i moves scores alpha score j st Hlen.
  - destruct k as [|k]; [reflexivity|]. simpl.
    rewrite nextMove_past_end by lia. now rewrite Z.eqb_refl.
  - simpl. pose proof (nextMove_length moves scores i) as Hl.
    destruct (nextMove moves scores i) as [[m moves'] scores'].
    simpl in Hl.
    assert (Hlen' : (length moves' <= S i + n)%nat) by lia.
    destruct (m =? NULL_MOVE); [reflexivity|].
    destruct (_ <? _); [now apply IH|].
    destruct (_ && _); [now apply IH|].
    destruct (doPseudoLegalMove b m color) as [copy|]; [|now apply IH].
    destruct (qsVisit rec copy plies alpha beta j st)
      as [[[r|[[a s] q]] st1]|]; try reflexivity.
    now apply IH.
Qed.

Lemma checkQuiescence_body_spec (qs : QSfun) ply (b : Board) plies alpha
    beta st :
  (forall m copy, In m (getPseudoLegalCheckEscapes b (getPlayerToMove b)) ->
                  doPseudoLegalMove b m (getPlayerToMove b) = Some copy ->
                  returnsOn qs copy) ->
  exists r st',
    checkQuiescence_body qs ply b plies alpha beta st = Some (r, st') /\
    (alpha <= beta -> alpha <= r <= beta).
Proof.
  intros Hrec. unfold checkQuiescence_body.
  destruct (qsLoop_spec qs (fun _ => false) b (getPlayerToMove b) plies beta
              _ Hrec alpha (- INFTY) 0 st) as (fl & st' & -> & Hfl).
  destruct fl as [r|[[a s] j]].
  - eexists _, _. split; [reflexivity|]. intros Hab.
    specialize (Hfl Hab). simpl in Hfl. lia.
  - destruct (s =? - INFTY).
    + destruct (Z.geb_spec (- MATE_SCORE + ply + plies) beta).
      * eexists _, _. split; [reflexivity|]. lia.
      * eexists _, _. split; [reflexivity|]. intros Hab.
        specialize (Hfl Hab). simpl in Hfl.
        destruct (Z.gtb_spec (- MATE_SCORE + ply + plies) a); lia.
    + eexists _, _. split; [reflexivity|]. exact Hfl.
Qed.

Lemma qsSpec_returnsOn (qs : QSfun) n (copy : Board) :
  qsSpec qrank n qs -> (qrank copy < n)%nat -> returnsOn qs copy.
Proof.
  intros Hqs Hlt plies alpha beta st.
  destruct (Hqs copy plies alpha beta st Hlt) as (r & st' & E & _).
  now exists r, st'.
Qed.

(** With fuel above the rank of the board, quiescence returns a score
    inside its window. *)
Lemma quiescence_spec :
  forall fuel ply, qsSpec qrank fuel (quiescence fuel ply).
Proof.
  destruct Hrank as (Hmove & _ & _ & Hquiet).
  induction fuel as [|fuel IH]; intros ply b plies alpha beta st Hb; [lia|].
  specialize (IH ply).
  assert (Hchild : forall m copy,
            In m (quiescenceMoves b) ->
            doPseudoLegalMove b m (getPlayerToMove b) = Some copy ->
            returnsOn (quiescence fuel ply) copy).
  { intros m copy Hin Hm. apply (qsSpec_returnsOn _ fuel); [exact IH|].
    specialize (Hquiet b m copy Hin Hm). lia. }
  assert (Hcheck : forall m copy,
            doPseudoLegalMove b m (getPlayerToMove b) = Some copy ->
            returnsOn (checkQuiescence_body (quiescence fuel ply) ply) copy).
  { intros m copy Hm plies' a' b' st'.
    destruct (checkQuiescence_body_spec (quiescence fuel ply) ply copy
                plies' a' b' st') as (r & st'' & E & _).
    - intros m2 copy2 Hin2 Hm2.
      apply (qsSpec_returnsOn _ fuel); [exact IH|].
      assert (qrank copy2 < qrank copy)%nat.
      { apply (Hquiet copy m2); [|exact Hm2]. unfold quiescenceMoves.
        rewrite !in_app_iff. auto. }
      specialize (Hmove b m _ copy Hm). lia.
    - now exists r, st''. }
  simpl. set (color := getPlayerToMove b) in *.
  destruct (isInCheck b color).
  { apply checkQuiescence_body_spec. intros m copy Hin.
    apply Hchild. unfold quiescenceMoves. rewrite !in_app_iff. auto. }
  set (standPat := if color =? WHITE then evaluateMaterial b
                   else - evaluateMaterial b).
  destruct (Z.geb_spec standPat (beta + MAX_POS_SCORE)).
  { eexists _, _. split; [reflexivity|]. lia. }
  destruct (Z.ltb_spec standPat (alpha - 2 * MAX_POS_SCORE - QUEEN_VALUE)).
  { eexists _, _. split; [reflexivity|]. lia. }
  set (standPat' := standPat + _).
  set (alpha' := if alpha <? standPat' then standPat' else alpha).
  destruct (Z.geb_spec standPat' beta).
  { eexists _, _. split; [reflexivity|]. lia. }
  assert (Ha : alpha <= alpha' /\ (alpha <= beta -> alpha' <= beta)).
  { unfold alpha'. destruct (Z.ltb_spec alpha standPat'); lia. }
  destruct (Z.ltb_spec standPat' (alpha' - MAX_POS_SCORE - QUEEN_VALUE)).
  { eexists _, _. split; [reflexivity|]. lia. }
  destruct (qsCaptures_spec (quiescence fuel ply) b color plies beta standPat'
              (length (getPseudoLegalCaptures b color false)) 0
              (getPseudoLegalCaptures b color false)
              (map (getMVVLVAScore b color)
                   (getPseudoLegalCaptures b color false)))
    with (alpha := alpha') (score := - INFTY) (j := 0) (st := st)
    as (fl & st1 & -> & Hfl).
  { intros m copy Hin. apply Hchild. unfold quiescenceMoves.
    rewrite !in_app_iff. auto. }
  destruct fl as [r|[[a1 s1] j1]].
  { eexists _, _. split; [reflexivity|]. intros Hab.
    assert (r = beta) by (apply Hfl; lia). lia. }
  destruct (qsLoop_spec (quiescence fuel ply)
              (fun m => getSEE b color (getEndSq m) <? 0) b color plies beta
              (getPseudoLegalPromotions b color))
    with (alpha := a1) (score := s1) (j := j1) (st := st1)
    as (fl & st2 & -> & Hfl2).
  { intros m copy Hin. apply Hchild. unfold quiescenceMoves.
    rewrite !in_app_iff. auto. }
  assert (Ha1 : alpha <= beta -> alpha' <= a1 <= beta).
  { intros Hab. apply Hfl. lia. }
  destruct fl as [r|[[a2 s2] j2]].
  { eexists _, _. split; [reflexivity|]. intros Hab.
    assert (r = beta) by (apply Hfl2; lia). lia. }
  assert (Ha2 : alpha <= beta -> a1 <= a2 <= beta).
  { intros Hab. apply Hfl2. lia. }
  destruct (plies <=? 0).
  - destruct (qsLoop_spec (checkQuiescence_body (quiescence fuel ply) ply)
                (fun _ => false) b color plies beta
                (getPseudoLegalChecks b color))
      with (alpha := a2) (score := s2) (j := j2) (st := st2)
      as (fl & st3 & -> & Hfl3).
    { intros m copy _. apply Hcheck. }
    destruct fl as [r|[[a3 s3] j3]].
    + eexists _, _. split; [reflexivity|]. intros Hab.
      assert (r = beta) by (apply Hfl3; lia). lia.
    + eexists _, _. split; [reflexivity|]. intros Hab.
      assert (a2 <= a3 <= beta) by (apply Hfl3; lia). lia.
  - eexists _, _. split; [reflexivity|]. intros Hab. lia.
Qed.

End QuiescenceFacts.

(** ** Quiescence: whatever it returns lies in the window *)
Section QuiescenceWindow.
Context `{SearchConstants} {Board Hash : Type}
        `{BoardOps Board} `{HashOps Hash Board} `{SearchSpaceOps Board}.

Lemma qsVisit_range (rec : QSfun) (copy : Board) plies alpha beta j st fl st' :
  alpha <= beta ->
  qsVisit rec copy plies alpha beta j st = Some (fl, st') ->
  qsFlowOK alpha beta fl.
Proof.
  intros Hab. unfold qsVisit.
  destruct (rec copy _ _ _ _) as [[r st1]|]; [|discriminate].
  destruct (Z.geb_spec (- r) beta).
  - intros [= <- _]. reflexivity.
  - intros [= <- _]. simpl. destruct (Z.gtb_spec (- r) alpha); lia.
Qed.

(** One more child searched: the loop goes on with an alpha that is still
    inside the window, so what the rest of the loop yields is fine for
    the alpha the loop was entered with. *)
Lemma qsFlowOK_step alpha alpha' beta fl :
  alpha <= alpha' <= beta -> qsFlowOK alpha' beta fl -> qsFlowOK alpha beta fl.
Proof.
  intros Ha. destruct fl as [r|[[a s] j]]; simpl; [auto|lia].
Qed.

Lemma qsLoop_range (rec : QSfun) skip (b : Board) color plies beta :
  forall moves alpha score j st fl st',
    alpha <= beta ->
    qsLoop rec skip b color plies beta moves alpha score j st
    = Some (fl, st') ->
    qsFlowOK alpha beta fl.
Proof.
  induction moves as [|m moves IH]; intros alpha score j st fl st' Hab; simpl.
  { intros [= <- _]. simpl. lia. }
  destruct (skip m); [now apply IH|].
  destruct (doPseudoLegalMove b m color) as [copy|]; [|now apply IH].
  destruct (qsVisit rec copy plies alpha beta j st)
    as [[[r|[[a s] k]] st1]|] eqn:E; [| |discriminate].
  - intros [= <- _]. exact (qsVisit_range _ _ _ _ _ _ _ _ _ Hab E).
  - pose proof (qsVisit_range _ _ _ _ _ _ _ _ _ Hab E) as Ha. simpl in Ha.
    intros E'. apply (qsFlowOK_step alpha a); [exact Ha|].
    apply (IH a s k st1 fl st'); [lia|exact E'].
Qed.

Lemma qsCaptures_range (rec : QSfun) (b : Board) color plies beta standPat :
  forall n i moves scores alpha score j st fl st',
    alpha <= beta ->
    qsCaptures rec b color plies beta standPat n i moves scores alpha score
      j st = Some (fl, st') ->
    qsFlowOK alpha beta fl.
Proof.
  induction n as [|n IH];
    intros i moves scores alpha score j st fl st' Hab; simpl.
  { intros [= <- _]. simpl. lia. }
  destruct (nextMove moves scores i) as [[m moves'] scores'].
  destruct (m =? NULL_MOVE); [intros [= <- _]; simpl; lia|].
  destruct (_ <? _); [now apply IH|].
  destruct (_ && _); [now apply IH|].
  destruct (doPseudoLegalMove b m color) as [copy|]; [|now apply IH].
  destruct (qsVisit rec copy plies alpha beta j st)
    as [[[r|[[a s] k]] st1]|] eqn:E; [| |discriminate].
  - intros [= <- _]. exact (qsVisit_range _ _ _ _ _ _ _ _ _ Hab E).
  - pose proof (qsVisit_range _ _ _ _ _ _ _ _ _ Hab E) as Ha. simpl in Ha.
    intros E'. apply (qsFlowOK_step alpha a); [exact Ha|].
    apply (IH (S i) moves' scores' a s k st1 fl st'); [lia|exact E'].
Qed.

Lemma checkQuiescence_body_range (qs : QSfun) ply :
  qsInWindow (checkQuiescence_body qs ply).
Proof.
  intros b plies alpha beta st r st' Hab. unfold checkQuiescence_body.
  destruct (qsLoop _ _ _ _ _ _ _ _ _ _ _) as [[[r0|[[a s] j]] st1]|] eqn:E;
    [| |discriminate];
    pose proof (qsLoop_range _ _ _ _ _ _ _ _ _ _ _ _ _ Hab E) as Hfl;
    simpl in Hfl.
  - intros [= <- _]. lia.
  - destruct (s =? - INFTY); [|intros [= <- _]; lia].
    destruct (Z.geb_spec (- MATE_SCORE + ply + plies) beta);
      [intros [= <- _]; lia|].
    destruct (Z.gtb_spec (- MATE_SCORE + ply + plies) a);
      intros [= <- _]; lia.
Qed.

Lemma quiescence_range fuel ply : qsInWindow (quiescence fuel ply).
Proof.
  destruct fuel as [|fuel]; intros b plies alpha beta st r st' Hab;
    [discriminate|].
  simpl. set (color := getPlayerToMove b).
  destruct (isInCheck b color); [now apply checkQuiescence_body_range|].
  set (standPat := if color =? WHITE then evaluateMaterial b
                   else - evaluateMaterial b).
  destruct (Z.geb_spec standPat (beta + MAX_POS_SCORE));
    [intros [= <- _]; lia|].
  destruct (Z.ltb_spec standPat (alpha - 2 * MAX_POS_SCORE - QUEEN_VALUE));
    [intros [= <- _]; lia|].
  set (standPat' := standPat + _).
  set (alpha' := if alpha <? standPat' then standPat' else alpha).
  destruct (Z.geb_spec standPat' beta); [intros [= <- _]; lia|].
  assert (Ha : alpha <= alpha' <= beta).
  { unfold alpha'. destruct (Z.ltb_spec alpha standPat'); lia. }
  destruct (Z.ltb_spec standPat' (alpha' - MAX_POS_SCORE - QUEEN_VALUE));
    [intros [= <- _]; lia|].
  destruct (qsCaptures _ _ _ _ _ _ _ _ _ _ _ _ _ _)
    as [[[r1|[[a1 s1] j1]] st1]|] eqn:E1; [| |discriminate];
    pose proof (qsCaptures_range _ _ _ _ _ _ _ _ _ _ _ _ _ _ _ _
                  (proj2 Ha) E1) as Hc1; simpl in Hc1.
  { intros [= <- _]. lia. }
  destruct (qsLoop _ _ _ _ _ _ _ _ _ _ _)
    as [[[r2|[[a2 s2] j2]] st2]|] eqn:E2; [| |discriminate];
    pose proof (qsLoop_range _ _ _ _ _ _ _ _ _ _ _ _ _ (proj2 Hc1) E2) as Hc2;
    simpl in Hc2.
  { intros [= <- _]. lia. }
  destruct (plies <=? 0); [|intros [= <- _]; lia].
  destruct (qsLoop (checkQuiescence_body _ _) _ _ _ _ _ _ _ _ _ _)
    as [[[r3|[[a3 s3] j3]] st3]|] eqn:E3; [| |discriminate];
    pose proof (qsLoop_range _ _ _ _ _ _ _ _ _ _ _ _ _ (proj2 Hc2) E3) as Hc3;
    simpl in Hc3; intros [= <- _]; lia.
Qed.

End QuiescenceWindow.

(** ** What the updates of the globals preserve *)
Section GlobalFacts.
Context `{SearchConstants} {Board Hash : Type}
        `{BoardOps Board} `{HashOps Hash Board} `{SearchSpaceOps Board}.
Implicit Type g : Globals Hash.

Lemma updateKillers_distinct k p m :
  killersDistinct k -> killersDistinct (updateKillers k p m).
Proof.
  intros Hk q. unfold updateKillers.
  destruct (Z.eqb_spec m (fst (k p))) as [->|Hne]; simpl; [apply Hk|].
  destruct (Z.eqb_spec q p) as [->|_]; simpl; [|apply Hk].
  intros E. contradiction.
Qed.

Lemma Restores_refl g : Restores g g.
Proof. unfold Restores. auto. Qed.

Lemma Restores_trans g1 g2 g3 :
  Restores g1 g2 -> Restores g2 g3 -> Restores g1 g3.
Proof. unfold Restores. intuition congruence. Qed.

Lemma Restores_stat g f : Restores g (stat g f).
Proof. unfold Restores. simpl. auto. Qed.

Lemma Restores_set_searchStats g st : Restores g (set_searchStats g st).
Proof. unfold Restores. simpl. auto. Qed.

Lemma Restores_set_transpositionTable g t :
  Restores g (set_transpositionTable g t).
Proof. unfold Restores. simpl. auto. Qed.

Lemma Restores_checkTimeout g : Restores g (checkTimeout g).
Proof.
  unfold Restores, checkTimeout. simpl.
  destruct (_ >? _); simpl; auto.
Qed.

Lemma Restores_addHistory (b : Board) color depth m yielded g :
  Restores g (addHistory b color depth m yielded g).
Proof. unfold Restores. simpl. auto. Qed.

Lemma Restores_recordCutoff (b : Board) color depth m beta movesSearched
    yielded g :
  Restores g (recordCutoff b color depth m beta movesSearched yielded g).
Proof.
  unfold recordCutoff.
  destruct (movesSearched =? 0); destruct (negb (isCapture m));
    unfold Restores; simpl; repeat split; auto using updateKillers_distinct.
Qed.

Lemma Restores_recordResult (b : Board) color depth prevAlpha alpha beta
    toHash yielded g :
  Restores g (recordResult b color depth prevAlpha alpha beta toHash yielded g).
Proof.
  unfold recordResult.
  destruct (_ && _); [destruct (negb _)|destruct (_ <=? _)];
    unfold Restores; simpl; auto.
Qed.

(** A call made between [ply++] and [ply--]. *)
Lemma Restores_ply_bracket g g' :
  Restores (inc_ply g) g' -> Restores g (dec_ply g').
Proof. unfold Restores. simpl. intuition lia. Qed.

(** The null-move call, between the two increments and the two
    decrements. *)
Lemma Restores_null_bracket g g' :
  Restores (inc_ply (inc_nullMoveCount g)) g' ->
  Restores g (dec_nullMoveCount (dec_ply g')).
Proof. unfold Restores. simpl. intuition lia. Qed.

End GlobalFacts.

(** Statistics counters on top of a state do not matter to [Restores]. *)
Ltac restores_stat :=
  lazymatch goal with
  | |- Restores ?g ?g => apply Restores_refl
  | |- Restores ?g (stat ?g' ?f) =>
      apply (Restores_trans g g' (stat g' f));
      [restores_stat | apply Restores_stat]
  end.

(** ** One frame of PVS, given what its recursive calls do *)
Section FrameFacts.
Context `{SearchConstants} {Board Hash : Type}
        `{BoardOps Board} `{HashOps Hash Board} `{SearchSpaceOps Board}.
Variable qrank : Board -> nat.
Hypothesis Hrank : quiescenceRank qrank.
Hypothesis Hpawn : 0 < PAWN_VALUE.
Variable K : Z.
Hypothesis HK : 2 <= K.
Variable n : nat.
Variable self : @PVSfun Board Hash.
Hypothesis Hself : frameSpec qrank K n self.

Implicit Type g : Globals Hash.
Implicit Type b copy : Board.

(** A recursive call at a depth no larger than [depth - 1], on a board no
    higher than [b], made between [ply++] and [ply--]. *)
Lemma self_call b copy depth d alpha beta line g :
  1 <= depth -> d <= depth - 1 ->
  (qrank copy <= qrank b)%nat ->
  (Z.to_nat depth + qrank b <= n)%nat ->
  nullMoveCount (searchParams g) <= K ->
  exists r copy' line' g',
    self copy d alpha beta line (inc_ply g) = Some (r, copy', line', g') /\
    (qrank copy' <= qrank b)%nat /\
    Restores g (dec_ply g').
Proof.
  intros Hd Hdd Hc Hn Hcount.
  destruct (Hself copy d alpha beta line (inc_ply g))
    as ([[[r copy'] line'] g'] & E & Hq & HR & _); [lia|exact Hcount|].
  exists r, copy', line', g'. split; [exact E|]. split; [lia|].
  now apply Restores_ply_bracket.
Qed.

Lemma Restores_count g g' :
  Restores g g' -> nullMoveCount (searchParams g) <= K ->
  nullMoveCount (searchParams g') <= K.
Proof. intros (E & _). lia. Qed.

Lemma lateMoveReduction_nonneg copy depth alpha prevAlpha isPVNode inCheck
    color movesSearched m k :
  0 <= lateMoveReduction copy depth alpha prevAlpha isPVNode inCheck color
         movesSearched m k.
Proof.
  unfold lateMoveReduction.
  destruct (_ && _) eqn:Hcond; [|lia].
  do 8 (apply andb_true_iff in Hcond; destruct Hcond as [Hcond ?]).
  assert (3 <= depth) by lia. assert (2 < movesSearched) by lia.
  apply Z.min_glb; [lia|]. apply Z.quot_pos; lia.
Qed.

Lemma searchMove_spec b copy depth reduction alpha beta movesSearched line g :
  1 <= depth -> 0 <= reduction ->
  (qrank copy <= qrank b)%nat ->
  (Z.to_nat depth + qrank b <= n)%nat ->
  nullMoveCount (searchParams g) <= K ->
  exists score line' g',
    searchMove self copy depth reduction alpha beta movesSearched line g
    = Some (score, line', g') /\
    Restores g g'.
Proof.
  intros Hd Hr Hc Hn Hcount. unfold searchMove.
  destruct (negb (movesSearched =? 0)).
  - destruct (self_call b copy depth (depth - 1 - reduction) (- alpha - 1)
                (- alpha) line g) as (r & copy1 & line1 & g1 & -> & Hc1 & HR1);
      try assumption; [lia|].
    destruct (_ && _).
    + destruct (self_call b copy1 depth (depth - 1) (- beta) (- alpha) line1
                  (dec_ply g1)) as (r2 & copy2 & line2 & g2 & -> & _ & HR2);
        try assumption; [lia|now apply (Restores_count g)|].
      eexists _, _, _. split; [reflexivity|].
      now apply (Restores_trans _ (dec_ply g1)).
    + eexists _, _, _. split; [reflexivity|]. exact HR1.
  - destruct (self_call b copy depth (depth - 1) (- beta) (- alpha) line g)
      as (r & copy1 & line1 & g1 & -> & _ & HR1); try assumption; [lia|].
    eexists _, _, _. split; [reflexivity|]. exact HR1.
Qed.

Lemma probeTT_spec b hashed depth alpha beta pvLine g :
  1 <= depth ->
  (Z.to_nat depth + qrank b <= n)%nat ->
  nullMoveCount (searchParams g) <= K ->
  exists hashScore hashed' alpha' pvLine' g',
    probeTT self b hashed depth alpha beta pvLine g
    = Some (hashScore, hashed', alpha', pvLine', g') /\
    Restores g g' /\
    (alpha <= beta ->
     alpha <= alpha' <= beta /\
     (hashScore = - INFTY \/ alpha <= hashScore <= beta)).
Proof.
  destruct Hrank as (_ & Hhash & _ & _).
  intros Hd Hn Hcount. unfold probeTT.
  destruct (tt_get (transpositionTable g) b) as [entry|].
  2:{ eexists _, _, _, _, _. split; [reflexivity|].
      split; [apply Restores_refl|]. intros Hab. split; [lia|now left]. }
  unfold probeEntry.
  destruct (NodeType_eqb (he_nodeType entry) ALL_NODE).
  { destruct (_ && _).
    - eexists _, _, _, _, _. split; [reflexivity|]. split.
      + restores_stat.
      + intros Hab. split; [lia|right; lia].
    - eexists _, _, _, _, _. split; [reflexivity|].
      split; [apply Restores_stat|]. intros Hab. split; [lia|now left]. }
  destruct (_ && _).
  { eexists _, _, _, _, _. split; [reflexivity|]. split.
    - restores_stat.
    - intros Hab. split; [lia|right; lia]. }
  destruct (doHashMove b (he_m entry) (getPlayerToMove b)) as [copy|] eqn:Hm.
  2:{ eexists _, _, _, _, _. split; [reflexivity|].
      split; [apply Restores_stat|]. intros Hab. split; [lia|now left]. }
  set (g0 := stat (stat (stat g inc_hashHits) inc_hashMoveAttempts) inc_nodes).
  assert (HR0 : Restores g g0).
  { unfold g0. restores_stat. }
  destruct (self_call b copy depth (depth - 1) (- beta) (- alpha) [] g0)
    as (r & copy1 & line1 & g1 & -> & _ & HR1); try assumption;
    [lia|now apply (Hhash b (he_m entry) (getPlayerToMove b))|].
  pose proof (Restores_trans _ _ _ HR0 HR1) as HR.
  destruct (Z.geb_spec (- r) beta).
  { eexists _, _, _, _, _. split; [reflexivity|]. split.
    - eapply Restores_trans; [exact HR|apply Restores_stat].
    - intros Hab. split; [lia|right; lia]. }
  destruct (Z.gtb_spec (- r) alpha).
  - eexists _, _, _, _, _. split; [reflexivity|]. split; [exact HR|].
    intros Hab. split; [lia|now left].
  - eexists _, _, _, _, _. split; [reflexivity|]. split; [exact HR|].
    intros Hab. split; [lia|now left].
Qed.

Lemma nullMoveReduction_nonneg depth staticEval beta :
  3 <= depth -> beta <= staticEval ->
  0 <= nullMoveReduction depth staticEval beta.
Proof.
  intros Hd Hs. unfold nullMoveReduction.
  assert (0 <= (staticEval - beta) ÷ PAWN_VALUE) by (apply Z.quot_pos; lia).
  apply Z.min_glb; [lia|].
  destruct (depth >=? 11); [lia|]. destruct (depth >=? 6); lia.
Qed.

Lemma nullMovePruning_spec b depth alpha beta isPVNode inCheck staticEval
    color line g :
  1 <= depth ->
  (Z.to_nat depth + qrank b <= n)%nat ->
  nullMoveCount (searchParams g) <= K ->
  exists fl b' line' g',
    nullMovePruning self b depth alpha beta isPVNode inCheck staticEval
      color line g = Some (fl, b', line', g') /\
    (qrank b' <= qrank b)%nat /\
    Restores g g' /\
    match fl with Return r => r = beta | Continue _ => True end.
Proof.
  destruct Hrank as (_ & _ & Hnull & _).
  intros Hd Hn Hcount. unfold nullMovePruning.
  destruct (nullMoveCond _ _ _ _ _ _ _) eqn:Hcond.
  2:{ eexists _, _, _, _. split; [reflexivity|].
      split; [lia|]. split; [apply Restores_refl|exact I]. }
  unfold nullMoveCond in Hcond.
  do 5 (apply andb_true_iff in Hcond; destruct Hcond as [Hcond ?]).
  assert (Hd3 : 3 <= depth) by lia.
  assert (Hse : beta <= staticEval) by lia.
  assert (Hnm : nullMoveCount (searchParams g) < 2) by lia.
  pose proof (nullMoveReduction_nonneg depth staticEval beta Hd3 Hse) as HR0.
  destruct (Hself (doNullMove b)
              (depth - 1 - nullMoveReduction depth staticEval beta)
              (- beta) (- alpha) line (inc_ply (inc_nullMoveCount g)))
    as ([[[r b1] line1] g1] & -> & Hq & HR & _).
  { specialize (Hnull b). lia. }
  { simpl. lia. }
  assert (qrank (doNullMove b1) <= qrank b)%nat.
  { pose proof (Hnull b). pose proof (Hnull b1). lia. }
  destruct (- r >=? beta).
  - eexists _, _, _, _. split; [reflexivity|]. split; [assumption|].
    split; [now apply Restores_null_bracket|reflexivity].
  - eexists _, _, _, _. split; [reflexivity|]. split; [assumption|].
    split; [now apply Restores_null_bracket|exact I].
Qed.

Lemma moveLoop_spec b color depth beta prevAlpha staticEval isPVNode inCheck :
  1 <= depth ->
  (Z.to_nat depth + qrank b <= n)%nat ->
  forall pending yielded alpha score toHash movesSearched pvLine line g,
    nullMoveCount (searchParams g) <= K ->
    exists fl pv' g',
      moveLoop self b color depth beta prevAlpha staticEval isPVNode inCheck
        pending yielded alpha score toHash movesSearched pvLine line g
      = Some (fl, pv', g') /\
      Restores g g' /\
      (alpha <= beta -> loopFlowOK alpha beta g' fl).
Proof.
  destruct Hrank as (Hmove & _ & _ & _).
  intros Hd Hn.
  induction pending as [|m pending IH];
    intros yielded alpha score toHash movesSearched pvLine line g Hcount;
    simpl.
  { eexists _, _, _. split; [reflexivity|]. split; [apply Restores_refl|].
    intros Hab. simpl. lia. }
  destruct (m =? NULL_MOVE).
  { eexists _, _, _. split; [reflexivity|]. split; [apply Restores_refl|].
    intros Hab. simpl. lia. }
  pose proof (Restores_checkTimeout g) as HR1.
  pose proof (Restores_count _ _ HR1 Hcount) as Hcount1.
  set (g1 := checkTimeout g) in *.
  destruct (isStop g1) eqn:Hstop.
  { eexists _, _, _. split; [reflexivity|]. split; [exact HR1|].
    intros _. right. auto. }
  destruct (futilityCond _ _ _ _ _ _ _ _).
  { destruct (IH (m :: yielded) alpha alpha toHash movesSearched pvLine line
                g1 Hcount1) as (fl & pv' & g' & -> & HR & Hfl).
    eexists _, _, _. split; [reflexivity|].
    split; [now apply (Restores_trans _ g1)|exact Hfl]. }
  destruct (doPseudoLegalMove b m color) as [copy|] eqn:Hm.
  2:{ destruct (IH (m :: yielded) alpha score toHash movesSearched pvLine
                  line g1 Hcount1) as (fl & pv' & g' & -> & HR & Hfl).
      eexists _, _, _. split; [reflexivity|].
      split; [now apply (Restores_trans _ g1)|exact Hfl]. }
  set (reduction := lateMoveReduction _ _ _ _ _ _ _ _ _ _).
  destruct (searchMove_spec b copy depth reduction alpha beta movesSearched
              line (stat g1 inc_nodes))
    as (score' & line' & g2 & -> & HR2); try assumption.
  { apply lateMoveReduction_nonneg. }
  { now apply (Hmove b m color). }
  assert (HRg2 : Restores g g2).
  { apply (Restores_trans _ g1); [exact HR1|].
    apply (Restores_trans _ (stat g1 inc_nodes)); [apply Restores_stat|].
    exact HR2. }
  pose proof (Restores_count _ _ HRg2 Hcount) as Hcount2.
  destruct (Z.geb_spec score' beta).
  { eexists _, _, _. split; [reflexivity|]. split.
    - apply (Restores_trans _ g2); [exact HRg2|apply Restores_recordCutoff].
    - intros _. now left. }
  destruct (Z.gtb_spec score' alpha).
  - destruct (IH (m :: yielded) score' score' m (movesSearched + 1)
                (changePV m line') line' g2 Hcount2)
      as (fl & pv' & g' & -> & HR & Hfl).
    eexists _, _, _. split; [reflexivity|].
    split; [now apply (Restores_trans _ g2)|].
    intros Hab. assert (Hs : score' <= beta) by lia. specialize (Hfl Hs).
    destruct fl as [r|[[[a s] t] ys]]; simpl in *; [exact Hfl|lia].
  - destruct (IH (m :: yielded) alpha score' toHash (movesSearched + 1)
                pvLine line' g2 Hcount2) as (fl & pv' & g' & -> & HR & Hfl).
    eexists _, _, _. split; [reflexivity|].
    split; [now apply (Restores_trans _ g2)|exact Hfl].
Qed.

Lemma scoreMate_range ply inCheck depth alpha beta :
  alpha <= beta -> alpha <= scoreMate ply inCheck depth alpha beta <= beta.
Proof.
  intros Hab. unfold scoreMate.
  destruct (Z.geb_spec (if inCheck then - MATE_SCORE + ply else 0) beta);
    [lia|].
  destruct (Z.gtb_spec (if inCheck then - MATE_SCORE + ply else 0) alpha); lia.
Qed.

Lemma searchNode_spec b depth prevAlpha alpha beta hashed pvLine g :
  1 <= depth ->
  (Z.to_nat depth + qrank b <= n)%nat ->
  nullMoveCount (searchParams g) <= K ->
  exists res,
    searchNode self b depth prevAlpha alpha beta hashed pvLine g = Some res /\
    FramePost qrank b alpha beta g res.
Proof.
  intros Hd Hn Hcount. unfold searchNode.
  set (color := getPlayerToMove b).
  set (isPVNode := negb (beta - alpha =? 1)).
  set (inCheck := isInCheck b color).
  set (staticEval := if color =? WHITE then evaluate b else - evaluate b).
  destruct (nullMovePruning_spec b depth alpha beta isPVNode inCheck
              staticEval color [] g Hd Hn Hcount)
    as (fl & b1 & line1 & g1 & -> & Hq1 & HR1 & Hfl).
  destruct fl as [r|[]].
  { subst r. eexists. split; [reflexivity|]. simpl.
    split; [exact Hq1|]. split; [exact HR1|]. intros Hab. left. lia. }
  destruct (reverseFutilityCond _ _ _ _ _ _ _).
  { eexists. split; [reflexivity|]. simpl.
    split; [exact Hq1|]. split; [exact HR1|]. intros Hab. left. lia. }
  pose proof (Restores_count _ _ HR1 Hcount) as Hcount1.
  destruct (moveLoop_spec b1 color depth beta prevAlpha staticEval isPVNode
              inCheck Hd) with
    (pending := ss_generateMoves b1 color depth isPVNode inCheck
                  (searchParams g1) hashed)
    (yielded := @nil Move) (alpha := alpha) (score := - INFTY)
    (toHash := NULL_MOVE) (movesSearched := if hashed =? NULL_MOVE then 0 else 1)
    (pvLine := pvLine) (line := line1) (g := g1)
    as (fl & pv2 & g2 & -> & HR2 & Hfl2); [lia|exact Hcount1|].
  pose proof (Restores_trans _ _ _ HR1 HR2) as HR.
  destruct fl as [r|[[[a s] t] ys]].
  { eexists. split; [reflexivity|]. simpl.
    split; [exact Hq1|]. split; [exact HR|]. intros Hab.
    destruct (Hfl2 Hab) as [->|[-> Hstop]]; [left; lia|right; auto]. }
  destruct (s =? - INFTY).
  - eexists. split; [reflexivity|]. simpl.
    split; [exact Hq1|]. split; [exact HR|]. intros Hab. left.
    specialize (Hfl2 Hab). simpl in Hfl2.
    pose proof (scoreMate_range (ply (searchParams g2)) inCheck depth a beta).
    lia.
  - eexists. split; [reflexivity|]. simpl. split; [exact Hq1|]. split.
    + apply (Restores_trans _ g2); [exact HR|apply Restores_recordResult].
    + intros Hab. left. specialize (Hfl2 Hab). simpl in Hfl2. lia.
Qed.

Lemma drawScore_range alpha beta :
  alpha <= beta -> alpha <= drawScore alpha beta <= beta.
Proof.
  intros Hab. unfold drawScore.
  destruct (Z.geb_spec 0 beta); [lia|]. destruct (Z.gtb_spec 0 alpha); lia.
Qed.

(** A frame whose recursive calls meet [frameSpec] up to [n] meets it up to
    [S n]. *)
Lemma PVS_F_spec (qs : Z -> QSfun) :
  (forall ply, qsSpec qrank (S n) (qs ply)) ->
  frameSpec qrank K (S n) (PVS_F self qs).
Proof.
  intros Hqs b depth alpha beta pvLine g Hn Hcount. unfold PVS_F.
  destruct (Z.leb_spec depth 0) as [Hd|Hd].
  { destruct (Hqs (ply (searchParams g)) b 0 alpha beta (searchStats g))
      as (r & st' & -> & Hr); [lia|].
    eexists. split; [reflexivity|]. simpl. split; [lia|].
    split; [apply Restores_set_searchStats|]. intros Hab. left. auto. }
  destruct (isDraw b).
  { eexists. split; [reflexivity|]. simpl. split; [lia|].
    split; [apply Restores_refl|]. intros Hab. left.
    now apply drawScore_range. }
  destruct (probeTT_spec b NULL_MOVE depth alpha beta pvLine
              (stat g inc_hashProbes))
    as (hashScore & hashed & alpha' & pvLine' & g1 & -> & HR1 & Hp);
    [lia|lia|exact Hcount|].
  assert (HR : Restores g g1).
  { apply (Restores_trans _ (stat g inc_hashProbes));
      [apply Restores_stat|exact HR1]. }
  destruct (Z.eqb_spec hashScore (- INFTY)) as [E|Hne]; simpl.
  - destruct (searchNode_spec b depth alpha alpha' beta hashed pvLine' g1)
      as ([[[r b'] pv'] g'] & -> & Hq & HR2 & Hr);
      [lia|lia|now apply (Restores_count g)|].
    eexists. split; [reflexivity|]. simpl. split; [exact Hq|].
    split; [now apply (Restores_trans _ g1)|].
    intros Hab. destruct (Hp Hab) as [Ha _].
    destruct Hr as [Hr|Hr]; [lia|left; lia|right; exact Hr].
  - eexists. split; [reflexivity|]. simpl. split; [lia|].
    split; [exact HR|]. intros Hab. left.
    destruct (Hp Hab) as [_ [?|?]]; [contradiction|assumption].
Qed.

End FrameFacts.

(** ** A frame is monotone in the function it recurses to *)

(** In a goal [.. s1 args .. = Some x -> .. s2 args .. = Some x], case on
    the call of [s1] and carry its result over to [s2]. *)
Ltac mono_call s1 Href :=
  match goal with
  | |- context [s1 ?b ?d ?a ?be ?pv ?g] =>
      let E := fresh "E" in
      destruct (s1 b d a be pv g) as [[[[? ?] ?] ?]|] eqn:E;
      [rewrite (Href _ _ _ _ _ _ _ E) | discriminate]
  end.

Section Monotone.
Context `{SearchConstants} {Board Hash : Type}
        `{BoardOps Board} `{HashOps Hash Board} `{SearchSpaceOps Board}.
Variables s1 s2 : @PVSfun Board Hash.
Hypothesis Href : refines s1 s2.

Lemma searchMove_mono copy depth reduction alpha beta movesSearched line g x :
  searchMove s1 copy depth reduction alpha beta movesSearched line g = Some x ->
  searchMove s2 copy depth reduction alpha beta movesSearched line g = Some x.
Proof.
  unfold searchMove. destruct (negb _).
  - mono_call s1 Href. destruct (_ && _); [|auto]. mono_call s1 Href. auto.
  - mono_call s1 Href. auto.
Qed.

Lemma probeTT_mono b hashed depth alpha beta pvLine g x :
  probeTT s1 b hashed depth alpha beta pvLine g = Some x ->
  probeTT s2 b hashed depth alpha beta pvLine g = Some x.
Proof.
  unfold probeTT. destruct (tt_get _ _); [|auto]. unfold probeEntry.
  destruct (NodeType_eqb _ _); [auto|]. destruct (_ && _); [auto|].
  destruct (doHashMove _ _ _); [|auto]. mono_call s1 Href. auto.
Qed.

Lemma nullMovePruning_mono b depth alpha beta isPVNode inCheck staticEval
    color line g x :
  nullMovePruning s1 b depth alpha beta isPVNode inCheck staticEval color
    line g = Some x ->
  nullMovePruning s2 b depth alpha beta isPVNode inCheck staticEval color
    line g = Some x.
Proof.
  unfold nullMovePruning. destruct (nullMoveCond _ _ _ _ _ _ _); [|auto].
  mono_call s1 Href. auto.
Qed.

Lemma moveLoop_mono b color depth beta prevAlpha staticEval isPVNode inCheck :
  forall pending yielded alpha score toHash movesSearched pvLine line g x,
    moveLoop s1 b color depth beta prevAlpha staticEval isPVNode inCheck
      pending yielded alpha score toHash movesSearched pvLine line g = Some x ->
    moveLoop s2 b color depth beta prevAlpha staticEval isPVNode inCheck
      pending yielded alpha score toHash movesSearched pvLine line g = Some x.
Proof.
  induction pending as [|m pending IH];
    intros yielded alpha score toHash movesSearched pvLine line g x; simpl;
    [auto|].
  destruct (m =? NULL_MOVE); [auto|].
  destruct (isStop _); [auto|].
  destruct (futilityCond _ _ _ _ _ _ _ _); [apply IH|].
  destruct (doPseudoLegalMove b m color) as [copy|]; [|apply IH].
  destruct (searchMove s1 _ _ _ _ _ _ _ _) as [[[score' line'] g']|] eqn:E;
    [|discriminate].
  rewrite (searchMove_mono _ _ _ _ _ _ _ _ _ E).
  destruct (_ >=? _); [auto|]. destruct (_ >? _); apply IH.
Qed.

Lemma searchNode_mono b depth prevAlpha alpha beta hashed pvLine g x :
  searchNode s1 b depth prevAlpha alpha beta hashed pvLine g = Some x ->
  searchNode s2 b depth prevAlpha alpha beta hashed pvLine g = Some x.
Proof.
  unfold searchNode.
  destruct (nullMovePruning s1 _ _ _ _ _ _ _ _ _ _)
    as [[[[fl b1] line1] g1]|] eqn:E; [|discriminate].
  rewrite (nullMovePruning_mono _ _ _ _ _ _ _ _ _ _ _ E).
  destruct fl; [auto|]. destruct (reverseFutilityCond _ _ _ _ _ _ _); [auto|].
  destruct (moveLoop s1 _ _ _ _ _ _ _ _ _ _ _ _ _ _ _ _ _)
    as [[[fl pv2] g2]|] eqn:E2; [|discriminate].
  rewrite (moveLoop_mono _ _ _ _ _ _ _ _ _ _ _ _ _ _ _ _ _ _ E2). auto.
Qed.

Lemma PVS_F_mono qs : refines (PVS_F s1 qs) (PVS_F s2 qs).
Proof.
  intros b depth alpha beta pv g res. unfold PVS_F.
  destruct (depth <=? 0); [auto|]. destruct (isDraw b); [auto|].
  destruct (probeTT s1 _ _ _ _ _ _ _)
    as [[[[[hashScore hashed] alpha'] pv'] g1]|] eqn:E; [|discriminate].
  rewrite (probeTT_mono _ _ _ _ _ _ _ _ E).
  destruct (negb _); [auto|]. apply searchNode_mono.
Qed.

End Monotone.

(** ** A frame agrees with the frame that recurses to an agreeing function *)
Section Agree.
Context `{SearchConstants} {Board Hash : Type}
        `{BoardOps Board} `{HashOps Hash Board} `{SearchSpaceOps Board}.
Variable K : Z.
Hypothesis HK : 2 <= K.
Variables self self' : @PVSfun Board Hash.
Hypothesis Hagree : frameAgree K self self'.

Implicit Type g : Globals Hash.
Implicit Type b copy : Board.

(** A call between [ply++] and [ply--]. *)
Lemma agree_call copy d alpha beta line g r copy' line' g' :
  nullMoveCount (searchParams g) <= K ->
  self copy d alpha beta line (inc_ply g) = Some (r, copy', line', g') ->
  self' copy d alpha beta line (inc_ply g) = Some (r, copy', line', g') /\
  Restores g (dec_ply g') /\
  nullMoveCount (searchParams (dec_ply g')) <= K.
Proof.
  intros Hc E.
  destruct (Hagree copy d alpha beta line (inc_ply g) _ Hc E) as (E' & HR & _).
  simpl in HR. split; [exact E'|]. apply Restores_ply_bracket in HR. split; [exact HR|].
  destruct HR as (Hn & _). lia.
Qed.

Lemma searchMove_agree copy depth reduction alpha beta movesSearched line g
    score line' g' :
  nullMoveCount (searchParams g) <= K ->
  searchMove self copy depth reduction alpha beta movesSearched line g
  = Some (score, line', g') ->
  searchMove self' copy depth reduction alpha beta movesSearched line g
  = Some (score, line', g') /\
  Restores g g'.
Proof.
  intros Hc. unfold searchMove. destruct (negb _).
  - destruct (self copy _ _ _ _ _) as [[[[r1 c1] l1] g1]|] eqn:E1;
      [|discriminate].
    destruct (agree_call _ _ _ _ _ _ _ _ _ _ Hc E1) as (-> & HR1 & Hc1).
    destruct (_ && _).
    + destruct (self c1 _ _ _ _ _) as [[[[r2 c2] l2] g2]|] eqn:E2;
        [|discriminate].
      destruct (agree_call _ _ _ _ _ _ _ _ _ _ Hc1 E2) as (-> & HR2 & _).
      intros [= <- <- <-]. split; [reflexivity|].
      now apply (Restores_trans _ (dec_ply g1)).
    + intros [= <- <- <-]. auto.
  - destruct (self copy _ _ _ _ _) as [[[[r1 c1] l1] g1]|] eqn:E1;
      [|discriminate].
    destruct (agree_call _ _ _ _ _ _ _ _ _ _ Hc E1) as (-> & HR1 & _).
    intros [= <- <- <-]. auto.
Qed.

Lemma probeTT_agree b hashed depth alpha beta pvLine g hashScore hashed'
    alpha' pvLine' g' :
  nullMoveCount (searchParams g) <= K ->
  probeTT self b hashed depth alpha beta pvLine g
  = Some (hashScore, hashed', alpha', pvLine', g') ->
  probeTT self' b hashed depth alpha beta pvLine g
  = Some (hashScore, hashed', alpha', pvLine', g') /\
  Restores g g' /\
  (alpha <= beta ->
   alpha <= alpha' <= beta /\
   (hashScore = - INFTY \/ alpha <= hashScore <= beta)).
Proof.
  intros Hc. unfold probeTT.
  destruct (tt_get (transpositionTable g) b) as [entry|].
  2:{ intros [= <- <- <- <- <-]. split; [reflexivity|].
      split; [apply Restores_refl|]. intros Hab. split; [lia|now left]. }
  unfold probeEntry.
  destruct (NodeType_eqb (he_nodeType entry) ALL_NODE).
  { destruct (_ && _); intros [= <- <- <- <- <-]; (split; [reflexivity|]);
      (split; [restores_stat|]); intros Hab; (split; [lia|]);
      [right; lia|now left]. }
  destruct (_ && _).
  { intros [= <- <- <- <- <-]. split; [reflexivity|].
    split; [restores_stat|]. intros Hab. split; [lia|right; lia]. }
  destruct (doHashMove b (he_m entry) (getPlayerToMove b)) as [copy|].
  2:{ intros [= <- <- <- <- <-]. split; [reflexivity|].
      split; [restores_stat|]. intros Hab. split; [lia|now left]. }
  set (g0 := stat (stat (stat g inc_hashHits) inc_hashMoveAttempts) inc_nodes).
  assert (HR0 : Restores g g0) by (unfold g0; restores_stat).
  destruct (self copy _ _ _ _ (inc_ply g0)) as [[[[r1 c1] l1] g1]|] eqn:E1;
    [|discriminate].
  destruct (agree_call copy (depth - 1) (- beta) (- alpha) [] g0 r1 c1 l1 g1)
    as (-> & HR1 & _); [exact Hc|exact E1|].
  pose proof (Restores_trans _ _ _ HR0 HR1) as HR.
  destruct (Z.geb_spec (- r1) beta).
  { intros [= <- <- <- <- <-]. split; [reflexivity|]. split.
    - eapply Restores_trans; [exact HR|apply Restores_stat].
    - intros Hab. split; [lia|right; lia]. }
  destruct (Z.gtb_spec (- r1) alpha); intros [= <- <- <- <- <-];
    (split; [reflexivity|]); (split; [exact HR|]); intros Hab;
    (split; [lia|now left]).
Qed.

Lemma nullMovePruning_agree b depth alpha beta isPVNode inCheck staticEval
    color line g fl b' line' g' :
  nullMoveCount (searchParams g) <= K ->
  nullMovePruning self b depth alpha beta isPVNode inCheck staticEval color
    line g = Some (fl, b', line', g') ->
  nullMovePruning self' b depth alpha beta isPVNode inCheck staticEval color
    line g = Some (fl, b', line', g') /\
  Restores g g' /\
  match fl with Return r => r = beta | Continue _ => True end.
Proof.
  intros Hc. unfold nullMovePruning.
  destruct (nullMoveCond _ _ _ _ _ _ _) eqn:Hcond.
  2:{ intros [= <- <- <- <-]. split; [reflexivity|].
      split; [apply Restores_refl|exact I]. }
  unfold nullMoveCond in Hcond.
  do 5 (apply andb_true_iff in Hcond; destruct Hcond as [Hcond ?]).
  assert (Hc1 : nullMoveCount
                  (searchParams (inc_ply (inc_nullMoveCount g))) <= K)
    by (simpl; lia).
  destruct (self _ _ _ _ _ _) as [[[[r1 c1] l1] g1]|] eqn:E1; [|discriminate].
  destruct (Hagree _ _ _ _ _ _ _ Hc1 E1) as (-> & HR1 & _).
  simpl in HR1. apply Restores_null_bracket in HR1.
  destruct (- r1 >=? beta); intros [= <- <- <- <-]; auto.
Qed.

Lemma moveLoop_agree b color depth beta prevAlpha staticEval isPVNode inCheck :
  forall pending yielded alpha score toHash movesSearched pvLine line g fl
         pv' g',
    nullMoveCount (searchParams g) <= K ->
    moveLoop self b color depth beta prevAlpha staticEval isPVNode inCheck
      pending yielded alpha score toHash movesSearched pvLine line g
    = Some (fl, pv', g') ->
    moveLoop self' b color depth beta prevAlpha staticEval isPVNode inCheck
      pending yielded alpha score toHash movesSearched pvLine line g
    = Some (fl, pv', g') /\
    Restores g g' /\
    (alpha <= beta -> loopFlowOK alpha beta g' fl).
Proof.
  induction pending as [|m pending IH];
    intros yielded alpha score toHash movesSearched pvLine line g fl pv' g'
           Hc;
    simpl.
  { intros [= <- <- <-]. split; [reflexivity|]. split; [apply Restores_refl|].
    intros Hab. simpl. lia. }
  destruct (m =? NULL_MOVE).
  { intros [= <- <- <-]. split; [reflexivity|]. split; [apply Restores_refl|].
    intros Hab. simpl. lia. }
  pose proof (Restores_checkTimeout g) as HR1.
  assert (Hc1 : nullMoveCount (searchParams (checkTimeout g)) <= K).
  { destruct HR1 as (Hn & _). lia. }
  set (g1 := checkTimeout g) in *.
  destruct (isStop g1) eqn:Hstop.
  { intros [= <- <- <-]. split; [reflexivity|]. split; [exact HR1|].
    intros _. right. auto. }
  destruct (futilityCond _ _ _ _ _ _ _ _).
  { intros E. destruct (IH _ _ _ _ _ _ _ _ _ _ _ Hc1 E) as (E' & HR & Hfl).
    split; [exact E'|]. split; [now apply (Restores_trans _ g1)|exact Hfl]. }
  destruct (doPseudoLegalMove b m color) as [copy|].
  2:{ intros E. destruct (IH _ _ _ _ _ _ _ _ _ _ _ Hc1 E) as (E' & HR & Hfl).
      split; [exact E'|]. split; [now apply (Restores_trans _ g1)|exact Hfl]. }
  set (reduction := lateMoveReduction _ _ _ _ _ _ _ _ _ _).
  destruct (searchMove self _ _ _ _ _ _ _ _) as [[[score' line'] g2]|] eqn:E2;
    [|discriminate].
  destruct (searchMove_agree copy depth reduction alpha beta movesSearched
              line (stat g1 inc_nodes) score' line' g2 Hc1 E2) as (-> & HR2).
  assert (HRg2 : Restores g g2).
  { apply (Restores_trans _ g1); [exact HR1|].
    apply (Restores_trans _ (stat g1 inc_nodes)); [apply Restores_stat|].
    exact HR2. }
  assert (Hc2 : nullMoveCount (searchParams g2) <= K).
  { destruct HRg2 as (Hn & _). lia. }
  destruct (Z.geb_spec score' beta).
  { intros [= <- <- <-]. split; [reflexivity|]. split.
    - apply (Restores_trans _ g2); [exact HRg2|apply Restores_recordCutoff].
    - intros _. now left. }
  destruct (Z.gtb_spec score' alpha).
  - intros E. destruct (IH _ _ _ _ _ _ _ _ _ _ _ Hc2 E) as (E' & HR & Hfl).
    split; [exact E'|]. split; [now apply (Restores_trans _ g2)|].
    intros Hab. assert (Hs : score' <= beta) by lia. specialize (Hfl Hs).
    destruct fl as [r|[[[a s] t] ys]]; simpl in *; [exact Hfl|lia].
  - intros E. destruct (IH _ _ _ _ _ _ _ _ _ _ _ Hc2 E) as (E' & HR & Hfl).
    split; [exact E'|]. split; [now apply (Restores_trans _ g2)|exact Hfl].
Qed.

Lemma searchNode_agree b depth prevAlpha alpha beta hashed pvLine g res :
  nullMoveCount (searchParams g) <= K ->
  searchNode self b depth prevAlpha alpha beta hashed pvLine g = Some res ->
  searchNode self' b depth prevAlpha alpha beta hashed pvLine g = Some res /\
  Restores g (snd res) /\
  (alpha <= beta ->
   alpha <= fst (fst (fst res)) <= beta \/
   (fst (fst (fst res)) = - INFTY /\ isStop (snd res) = true)).
Proof.
  intros Hc. unfold searchNode.
  set (color := getPlayerToMove b).
  set (isPVNode := negb (beta - alpha =? 1)).
  set (inCheck := isInCheck b color).
  set (staticEval := if color =? WHITE then evaluate b else - evaluate b).
  destruct (nullMovePruning self _ _ _ _ _ _ _ _ _ _)
    as [[[[fl b1] line1] g1]|] eqn:E1; [|discriminate].
  destruct (nullMovePruning_agree _ _ _ _ _ _ _ _ _ _ _ _ _ _ Hc E1)
    as (-> & HR1 & Hfl).
  destruct fl as [r|[]].
  { subst r. intros [= <-]. simpl. split; [reflexivity|].
    split; [exact HR1|]. intros Hab. left. lia. }
  destruct (reverseFutilityCond _ _ _ _ _ _ _).
  { intros [= <-]. simpl. split; [reflexivity|].
    split; [exact HR1|]. intros Hab. left. lia. }
  assert (Hc1 : nullMoveCount (searchParams g1) <= K).
  { destruct HR1 as (Hn & _). lia. }
  destruct (moveLoop self _ _ _ _ _ _ _ _ _ _ _ _ _ _ _ _ _)
    as [[[fl pv2] g2]|] eqn:E2; [|discriminate].
  destruct (moveLoop_agree _ _ _ _ _ _ _ _ _ _ _ _ _ _ _ _ _ _ _ _ Hc1 E2)
    as (-> & HR2 & Hfl2).
  pose proof (Restores_trans _ _ _ HR1 HR2) as HR.
  destruct fl as [r|[[[a s] t] ys]].
  { intros [= <-]. simpl. split; [reflexivity|]. split; [exact HR|].
    intros Hab. destruct (Hfl2 Hab) as [->|[-> Hstop]];
      [left; lia|right; auto]. }
  destruct (s =? - INFTY); intros [= <-]; simpl; (split; [reflexivity|]).
  - split; [exact HR|]. intros Hab. left. specialize (Hfl2 Hab).
    simpl in Hfl2.
    pose proof (scoreMate_range (ply (searchParams g2)) inCheck depth a beta).
    lia.
  - split.
    + apply (Restores_trans _ g2); [exact HR|apply Restores_recordResult].
    + intros Hab. left. specialize (Hfl2 Hab). simpl in Hfl2. lia.
Qed.

Lemma PVS_F_agree (qs : Z -> QSfun) :
  (forall ply, qsInWindow (qs ply)) ->
  frameAgree K (PVS_F self qs) (PVS_F self' qs).
Proof.
  intros Hqs b depth alpha beta pvLine g res Hc. unfold PVS_F.
  destruct (depth <=? 0).
  { destruct (qs _ _ _ _ _ _) as [[r st']|] eqn:E; [|discriminate].
    intros [= <-]. simpl. split; [reflexivity|].
    split; [apply Restores_set_searchStats|]. intros Hab. left.
    exact (Hqs _ _ _ _ _ _ _ _ Hab E). }
  destruct (isDraw b).
  { intros [= <-]. simpl. split; [reflexivity|].
    split; [apply Restores_refl|]. intros Hab. left.
    now apply drawScore_range. }
  destruct (probeTT self _ _ _ _ _ _ _)
    as [[[[[hashScore hashed] alpha'] pvLine'] g1]|] eqn:E1; [|discriminate].
  destruct (probeTT_agree b NULL_MOVE depth alpha beta pvLine
              (stat g inc_hashProbes) _ _ _ _ _ Hc E1) as (-> & HR1 & Hp).
  assert (HR : Restores g g1).
  { apply (Restores_trans _ (stat g inc_hashProbes));
      [apply Restores_stat|exact HR1]. }
  destruct (Z.eqb_spec hashScore (- INFTY)) as [E|Hne]; simpl.
  - intros E2.
    destruct (searchNode_agree b depth alpha alpha' beta hashed pvLine' g1 res)
      as (-> & HR2 & Hr); [destruct HR as (Hn & _); lia|exact E2|].
    split; [reflexivity|]. split; [now apply (Restores_trans _ g1)|].
    intros Hab. destruct (Hp Hab) as [Ha _].
    destruct Hr as [Hr|Hr]; [lia|left; lia|right; exact Hr].
  - intros [= <-]. simpl. split; [reflexivity|]. split; [exact HR|].
    intros Hab. left. destruct (Hp Hab) as [_ [?|?]]; [contradiction|assumption].
Qed.

End Agree.

(** ** The windows of the frames below a frame *)
Section Windows.
Context `{SearchConstants} {Board Hash : Type}
        `{BoardOps Board} `{HashOps Hash Board} `{SearchSpaceOps Board}.

Lemma inWindow_spec alpha beta :
  inWindow alpha beta = true
  <-> - MATE_SCORE <= alpha /\ alpha < beta /\ beta <= MATE_SCORE.
Proof.
  unfold inWindow. rewrite !andb_true_iff, !Z.leb_le, Z.ltb_lt. tauto.
Qed.

(** The full window of a child: [-beta, -alpha]. *)
Lemma inWindow_full alpha beta :
  inWindow alpha beta = true -> inWindow (- beta) (- alpha) = true.
Proof. rewrite !inWindow_spec. lia. Qed.

(** The null window of a child, for an alpha the loop has raised to [a]:
    [-a - 1, -a]. *)
Lemma inWindow_null alpha beta a :
  inWindow alpha beta = true -> alpha <= a < beta ->
  inWindow (- a - 1) (- a) = true.
Proof. rewrite !inWindow_spec. lia. Qed.

Lemma inWindow_raise alpha beta a :
  inWindow alpha beta = true -> alpha <= a < beta ->
  inWindow a beta = true.
Proof. rewrite !inWindow_spec. lia. Qed.

(** Below [-MATE_SCORE] lies the sentinel: no window inside the root
    window starts at it. *)
Lemma inWindow_sentinel alpha beta :
  MATE_SCORE < INFTY -> inWindow alpha beta = true ->
  alpha <> - INFTY /\ beta <> - INFTY.
Proof. rewrite inWindow_spec. lia. Qed.

Variables self self' : @PVSfun Board Hash.
Hypothesis Hagree : windowAgree self self'.

Implicit Type g : Globals Hash.
Implicit Type b copy : Board.

Lemma searchMove_window copy depth reduction alpha beta movesSearched line g
    x :
  inWindow alpha beta = true ->
  searchMove self copy depth reduction alpha beta movesSearched line g
  = Some x ->
  searchMove self' copy depth reduction alpha beta movesSearched line g
  = Some x.
Proof.
  intros Hw.
  assert (Hab : alpha <= alpha < beta) by (apply inWindow_spec in Hw; lia).
  pose proof (inWindow_null _ _ _ Hw Hab) as Hnull.
  pose proof (inWindow_full _ _ Hw) as Hfull.
  unfold searchMove. destruct (negb _).
  - destruct (self copy _ _ _ _ _) as [[[[r1 c1] l1] g1]|] eqn:E1;
      [|discriminate].
    rewrite (Hagree _ _ _ _ _ _ _ Hnull E1).
    destruct (_ && _); [|auto].
    destruct (self c1 _ _ _ _ _) as [[[[r2 c2] l2] g2]|] eqn:E2;
      [|discriminate].
    now rewrite (Hagree _ _ _ _ _ _ _ Hfull E2).
  - destruct (self copy _ _ _ _ _) as [[[[r1 c1] l1] g1]|] eqn:E1;
      [|discriminate].
    now rewrite (Hagree _ _ _ _ _ _ _ Hfull E1).
Qed.

(** The probe searches the hash move with the full window of a child,
    and an alpha it raises stays below beta. *)
Lemma probeTT_window b hashed depth alpha beta pvLine g hashScore hashed'
    alpha' pvLine' g' :
  inWindow alpha beta = true ->
  probeTT self b hashed depth alpha beta pvLine g
  = Some (hashScore, hashed', alpha', pvLine', g') ->
  probeTT self' b hashed depth alpha beta pvLine g
  = Some (hashScore, hashed', alpha', pvLine', g') /\
  inWindow alpha' beta = true.
Proof.
  intros Hw. pose proof (inWindow_full _ _ Hw) as Hfull. unfold probeTT.
  destruct (tt_get (transpositionTable g) b) as [entry|];
    [|intros [= <- <- <- <- <-]; auto].
  unfold probeEntry.
  destruct (NodeType_eqb (he_nodeType entry) ALL_NODE).
  { destruct (_ && _); intros [= <- <- <- <- <-]; auto. }
  destruct (_ && _); [intros [= <- <- <- <- <-]; auto|].
  destruct (doHashMove b (he_m entry) (getPlayerToMove b)) as [copy|];
    [|intros [= <- <- <- <- <-]; auto].
  destruct (self copy _ _ _ _ _) as [[[[r1 c1] l1] g1]|] eqn:E1;
    [|discriminate].
  rewrite (Hagree _ _ _ _ _ _ _ Hfull E1).
  destruct (Z.geb_spec (- r1) beta); [intros [= <- <- <- <- <-]; auto|].
  destruct (Z.gtb_spec (- r1) alpha); intros [= <- <- <- <- <-];
    (split; [reflexivity|]); [|exact Hw].
  apply (inWindow_raise alpha); [exact Hw|lia].
Qed.

Lemma nullMovePruning_window b depth alpha beta isPVNode inCheck staticEval
    color line g x :
  inWindow alpha beta = true ->
  nullMovePruning self b depth alpha beta isPVNode inCheck staticEval color
    line g = Some x ->
  nullMovePruning self' b depth alpha beta isPVNode inCheck staticEval color
    line g = Some x.
Proof.
  intros Hw. pose proof (inWindow_full _ _ Hw) as Hfull.
  unfold nullMovePruning. destruct (nullMoveCond _ _ _ _ _ _ _); [|auto].
  destruct (self _ _ _ _ _ _) as [[[[r1 c1] l1] g1]|] eqn:E1; [|discriminate].
  now rewrite (Hagree _ _ _ _ _ _ _ Hfull E1).
Qed.

Lemma moveLoop_window b color depth beta prevAlpha staticEval isPVNode
    inCheck :
  forall pending yielded alpha score toHash movesSearched pvLine line g x,
    inWindow alpha beta = true ->
    moveLoop self b color depth beta prevAlpha staticEval isPVNode inCheck
      pending yielded alpha score toHash movesSearched pvLine line g = Some x ->
    moveLoop self' b color depth beta prevAlpha staticEval isPVNode inCheck
      pending yielded alpha score toHash movesSearched pvLine line g = Some x.
Proof.
  induction pending as [|m pending IH];
    intros yielded alpha score toHash movesSearched pvLine line g x Hw; simpl;
    [auto|].
  destruct (m =? NULL_MOVE); [auto|].
  destruct (isStop _); [auto|].
  destruct (futilityCond _ _ _ _ _ _ _ _); [now apply IH|].
  destruct (doPseudoLegalMove b m color) as [copy|]; [|now apply IH].
  destruct (searchMove self _ _ _ _ _ _ _ _) as [[[score' line'] g']|] eqn:E;
    [|discriminate].
  rewrite (searchMove_window _ _ _ _ _ _ _ _ _ Hw E).
  destruct (Z.geb_spec score' beta); [auto|].
  destruct (Z.gtb_spec score' alpha); apply IH; [|exact Hw].
  apply (inWindow_raise alpha); [exact Hw|lia].
Qed.

Lemma searchNode_window b depth prevAlpha alpha beta hashed pvLine g x :
  inWindow alpha beta = true ->
  searchNode self b depth prevAlpha alpha beta hashed pvLine g = Some x ->
  searchNode self' b depth prevAlpha alpha beta hashed pvLine g = Some x.
Proof.
  intros Hw. unfold searchNode.
  destruct (nullMovePruning self _ _ _ _ _ _ _ _ _ _)
    as [[[[fl b1] line1] g1]|] eqn:E; [|discriminate].
  rewrite (nullMovePruning_window _ _ _ _ _ _ _ _ _ _ _ Hw E).
  destruct fl; [auto|]. destruct (reverseFutilityCond _ _ _ _ _ _ _); [auto|].
  destruct (moveLoop self _ _ _ _ _ _ _ _ _ _ _ _ _ _ _ _ _)
    as [[[fl pv2] g2]|] eqn:E2; [|discriminate].
  now rewrite (moveLoop_window _ _ _ _ _ _ _ _ _ _ _ _ _ _ _ _ _ _ Hw E2).
Qed.

Lemma PVS_F_window qs : windowAgree (PVS_F self qs) (PVS_F self' qs).
Proof.
  intros b depth alpha beta pv g res Hw. unfold PVS_F.
  destruct (depth <=? 0); [auto|]. destruct (isDraw b); [auto|].
  destruct (probeTT self _ _ _ _ _ _ _)
    as [[[[[hashScore hashed] alpha'] pv'] g1]|] eqn:E; [|discriminate].
  destruct (probeTT_window _ _ _ _ _ _ _ _ _ _ _ _ Hw E) as (-> & Hw').
  destruct (negb _); [auto|]. now apply searchNode_window.
Qed.

End Windows.

(** ** The whole search *)
Section SearchFacts.
Context `{SearchConstants} {Board Hash : Type}
        `{BoardOps Board} `{HashOps Hash Board} `{SearchSpaceOps Board}.
Variable qrank : Board -> nat.
Hypothesis Hrank : quiescenceRank qrank.
Hypothesis Hpawn : 0 < PAWN_VALUE.

Implicit Type g : Globals Hash.
Implicit Type b : Board.

Lemma PVS_spec K : 2 <= K -> forall fuel, frameSpec qrank K fuel (PVS fuel).
Proof.
  intros HK. induction fuel as [|fuel IH].
  - intros b depth alpha beta pv g Hn. lia.
  - change (frameSpec qrank K (S fuel)
              (PVS_F (PVS fuel) (quiescence (S fuel)))).
    apply PVS_F_spec; try assumption.
    intros ply. now apply quiescence_spec.
Qed.

Lemma PVS_checked_spec :
  forall fuel, frameSpec qrank 2 fuel (PVS_checked fuel).
Proof.
  induction fuel as [|fuel IH].
  - intros b depth alpha beta pv g Hn. lia.
  - intros b depth alpha beta pv g Hn Hcount.
    change (PVS_checked (S fuel))
      with (assertNullMoves (PVS_F (PVS_checked fuel) (quiescence (S fuel)))).
    unfold assertNullMoves.
    rewrite (proj2 (Z.leb_le _ _) Hcount).
    apply (PVS_F_spec qrank Hrank Hpawn 2 ltac:(lia) fuel (PVS_checked fuel) IH);
      [|exact Hn|exact Hcount].
    intros ply. now apply quiescence_spec.
Qed.

(** Whatever the search with the assertion returns, the search returns. *)
Lemma PVS_checked_refines : forall fuel, refines (PVS_checked fuel) (PVS fuel).
Proof.
  induction fuel as [|fuel IH]; intros b depth alpha beta pv g res.
  - discriminate.
  - change (PVS_checked (S fuel))
      with (assertNullMoves (PVS_F (PVS_checked fuel) (quiescence (S fuel)))).
    change (PVS (S fuel)) with (PVS_F (PVS fuel) (quiescence (S fuel))).
    unfold assertNullMoves.
    destruct (_ <=? 2); [|discriminate]. now apply PVS_F_mono.
Qed.

(** Whatever the search returns restores the parameters and lies in the
    window or is the stop sentinel. *)
Lemma PVS_agree K : 2 <= K -> forall fuel, frameAgree K (PVS fuel) (PVS fuel).
Proof.
  intros HK. induction fuel as [|fuel IH].
  - intros b depth alpha beta pv g res _. discriminate.
  - change (PVS (S fuel)) with (PVS_F (PVS fuel) (quiescence (S fuel))).
    apply PVS_F_agree; [exact HK|exact IH|].
    intros ply. apply quiescence_range.
Qed.

(** Entered with at most two null moves counted, the search with the
    assertion returns whatever the search returns. *)
Lemma PVS_checked_agree :
  forall fuel, frameAgree 2 (PVS fuel) (PVS_checked fuel).
Proof.
  induction fuel as [|fuel IH].
  - intros b depth alpha beta pv g res _. discriminate.
  - intros b depth alpha beta pv g res Hc.
    change (PVS_checked (S fuel))
      with (assertNullMoves (PVS_F (PVS_checked fuel) (quiescence (S fuel)))).
    change (PVS (S fuel)) with (PVS_F (PVS fuel) (quiescence (S fuel))).
    unfold assertNullMoves. rewrite (proj2 (Z.leb_le _ _) Hc).
    apply (PVS_F_agree 2 ltac:(lia) (PVS fuel) (PVS_checked fuel) IH);
      [|exact Hc].
    intros ply. apply quiescence_range.
Qed.

Lemma PVS_checked_eq fuel b depth alpha beta pv g :
  nullMoveCount (searchParams g) <= 2 ->
  PVS_checked fuel b depth alpha beta pv g = PVS fuel b depth alpha beta pv g.
Proof.
  intros Hc. destruct (PVS fuel b depth alpha beta pv g) as [res|] eqn:E.
  - now apply (PVS_checked_agree fuel b depth alpha beta pv g res Hc).
  - destruct (PVS_checked fuel b depth alpha beta pv g) as [res|] eqn:E';
      [|reflexivity].
    apply PVS_checked_refines in E'. congruence.
Qed.

End SearchFacts.

(** ** Every frame below a frame with a window inside the root window has
    such a window *)
Section WindowFacts.
Context `{SearchConstants} {Board Hash : Type}
        `{BoardOps Board} `{HashOps Hash Board} `{SearchSpaceOps Board}.

Lemma PVS_windowed_refines :
  forall fuel, refines (PVS_windowed fuel) (PVS (Hash := Hash) fuel).
Proof.
  induction fuel as [|fuel IH]; intros b depth alpha beta pv g res.
  - discriminate.
  - change (PVS_windowed (S fuel))
      with (assertWindow (PVS_F (PVS_windowed fuel) (quiescence (S fuel)))).
    change (PVS (S fuel)) with (PVS_F (PVS fuel) (quiescence (S fuel))).
    unfold assertWindow.
    destruct (inWindow alpha beta); [|discriminate]. now apply PVS_F_mono.
Qed.

Lemma PVS_windowed_agree :
  forall fuel, windowAgree (PVS (Hash := Hash) fuel) (PVS_windowed fuel).
Proof.
  induction fuel as [|fuel IH]; intros b depth alpha beta pv g res Hw.
  - discriminate.
  - change (PVS_windowed (S fuel))
      with (assertWindow (PVS_F (PVS_windowed fuel) (quiescence (S fuel)))).
    change (PVS (S fuel)) with (PVS_F (PVS fuel) (quiescence (S fuel))).
    unfold assertWindow. rewrite Hw.
    now apply (PVS_F_window (PVS fuel) (PVS_windowed fuel) IH).
Qed.

Lemma PVS_windowed_eq fuel b depth alpha beta pv (g : Globals Hash) :
  inWindow alpha beta = true ->
  PVS_windowed fuel b depth alpha beta pv g = PVS fuel b depth alpha beta pv g.
Proof.
  intros Hw. destruct (PVS fuel b depth alpha beta pv g) as [res|] eqn:E.
  - now apply (PVS_windowed_agree fuel b depth alpha beta pv g res Hw).
  - destruct (PVS_windowed fuel b depth alpha beta pv g) as [res|] eqn:E';
      [|reflexivity].
    apply PVS_windowed_refines in E'. congruence.
Qed.

Lemma searchMove_windowed_eq fuel (copy : Board) depth reduction alpha beta
    movesSearched line (g : Globals Hash) :
  inWindow alpha beta = true ->
  searchMove (PVS_windowed fuel) copy depth reduction alpha beta
    movesSearched line g
  = searchMove (PVS fuel) copy depth reduction alpha beta movesSearched
      line g.
Proof.
  intros Hw.
  destruct (searchMove (PVS fuel) copy depth reduction alpha beta
              movesSearched line g) as [x|] eqn:E.
  - exact (searchMove_window (PVS fuel) (PVS_windowed fuel)
             (PVS_windowed_agree fuel) _ _ _ _ _ _ _ _ _ Hw E).
  - destruct (searchMove (PVS_windowed fuel) copy depth reduction alpha beta
                movesSearched line g) as [x|] eqn:E'; [|reflexivity].
    apply (searchMove_mono (PVS_windowed fuel) (PVS fuel)
             (PVS_windowed_refines fuel)) in E'.
    congruence.
Qed.

(** The search of a root move is the search of a move of the move loop,
    not reduced, with the index for the count of the moves searched. *)
Lemma rootSearch_searchMove (self : PVSfun) (copy : Board) depth alpha beta
    i line (g : Globals Hash) :
  rootSearch self copy depth alpha beta i line g
  = searchMove self copy depth 0 alpha beta (Z.of_nat i) line g.
Proof.
  unfold rootSearch, searchMove. rewrite Z.sub_0_r.
  destruct i; reflexivity.
Qed.

End WindowFacts.

(** ** The move loop when no move can be played *)
Section NoLegalMove.
Context `{SearchConstants} {Board Hash : Type}
        `{BoardOps Board} `{HashOps Hash Board} `{SearchSpaceOps Board}.

Implicit Type g : Globals Hash.
Implicit Type b : Board.

Lemma checkTimeout_in_time g :
  isStop g = false ->
  (forall k, clock g k <= timeLimit (searchParams g)) ->
  isStop (checkTimeout g) = false /\
  clock (checkTimeout g) = clock g /\
  searchParams (checkTimeout g) = searchParams g /\
  transpositionTable (checkTimeout g) = transpositionTable g.
Proof.
  intros Hstop Hclock. unfold checkTimeout. simpl.
  destruct (Z.gtb_spec (clock g (clockReads g)) (timeLimit (searchParams g)))
    as [Hgt|Hle].
  - specialize (Hclock (clockReads g)). lia.
  - simpl. auto.
Qed.

(** With the stop flag down, the clock within the limit, no futility
    pruning and no legal move, the loop runs through and changes neither
    alpha nor score. *)
Lemma moveLoop_no_legal_move (self : PVSfun) b color depth beta prevAlpha
    staticEval isPVNode inCheck :
  (forall m, doPseudoLegalMove b m color = None) ->
  forall pending yielded alpha score toHash movesSearched pvLine line g,
    (forall m, In m pending ->
       futilityCond b depth alpha isPVNode inCheck staticEval color m = false) ->
    isStop g = false ->
    (forall k, clock g k <= timeLimit (searchParams g)) ->
    exists yielded' g',
      moveLoop self b color depth beta prevAlpha staticEval isPVNode inCheck
        pending yielded alpha score toHash movesSearched pvLine line g
      = Some (Continue (alpha, score, toHash, yielded'), pvLine, g') /\
      searchParams g' = searchParams g.
Proof.
  intros Hnone.
  induction pending as [|m pending IH];
    intros yielded alpha score toHash movesSearched pvLine line g Hfut Hstop
           Hclock; simpl.
  { eexists _, _. split; reflexivity. }
  destruct (m =? NULL_MOVE); [eexists _, _; split; reflexivity|].
  destruct (checkTimeout_in_time g Hstop Hclock) as (Hs & Hc & Hp & _).
  rewrite Hs. rewrite (Hfut m) by now left. rewrite Hnone.
  destruct (IH (m :: yielded) alpha score toHash movesSearched pvLine line
              (checkTimeout g)) as (ys & g' & -> & Hp').
  - intros m' Hin. apply Hfut. now right.
  - exact Hs.
  - intros k. rewrite Hc, Hp. apply Hclock.
  - eexists _, _. split; [reflexivity|]. congruence.
Qed.

End NoLegalMove.

(** * The claims *)
Section Claims.
Context `{SearchConstants} {Board Hash : Type}
        `{BoardOps Board} `{HashOps Hash Board} `{SearchSpaceOps Board}.

Implicit Type g : Globals Hash.
Implicit Type b : Board.

(** C5.  On a position the board reports as drawn, PVS at depth >= 1 with
    a window alpha < beta returns [clamp(0, alpha, beta)] (beta if
    0 >= beta, 0 if alpha < 0 < beta, else alpha) and changes nothing. *)
Theorem PVS_draw fuel b depth alpha beta pv g :
  1 <= depth -> alpha < beta -> isDraw b = true ->
  PVS (S fuel) b depth alpha beta pv g = Some (clamp 0 alpha beta, b, pv, g)
  /\ clamp 0 alpha beta
     = (if 0 >=? beta then beta else if (alpha <? 0) && (0 <? beta) then 0
        else alpha).
Proof.
  intros Hd Hab Hdraw. split.
  - change (PVS (S fuel)) with (PVS_F (PVS fuel) (quiescence (S fuel))).
    unfold PVS_F. rewrite (proj2 (Z.leb_gt _ _)) by lia. rewrite Hdraw.
    do 4 f_equal. unfold drawScore, clamp.
    destruct (Z.geb_spec 0 beta); [lia|]. destruct (Z.gtb_spec 0 alpha); lia.
  - unfold clamp. destruct (Z.geb_spec 0 beta); [lia|].
    destruct (Z.ltb_spec alpha 0); destruct (Z.ltb_spec 0 beta); simpl; lia.
Qed.

(** C6.  When the null-move preconditions hold, the null-move block calls
    the search on the board after the null move at depth
    [depth - 1 - R], with [R = min(depth - 2, base + (staticEval - beta) /
    PAWN_VALUE)] and base 4, 3 or 2; that depth is at least 1. *)
Theorem nullMove_child_depth self b depth alpha beta isPVNode inCheck
    staticEval color line g :
  depth >= 3 -> isPVNode = false -> inCheck = false ->
  nullMoveCount (searchParams g) < 2 -> staticEval >= beta ->
  getNonPawnMaterial b color <> 0 ->
  let base := if depth >=? 11 then 4 else if depth >=? 6 then 3 else 2 in
  let R := Z.min (depth - 2) (base + (staticEval - beta) ÷ PAWN_VALUE) in
  nullMovePruning self b depth alpha beta isPVNode inCheck staticEval color
    line g
  = match self (doNullMove b) (depth - 1 - R) (- beta) (- alpha) line
            (inc_ply (inc_nullMoveCount g)) with
    | None => None
    | Some (r, b', line', g') =>
        Some (if - r >=? beta then Return beta else Continue tt,
              doNullMove b', line', dec_nullMoveCount (dec_ply g'))
    end
  /\ depth - 1 - R >= 1.
Proof.
  intros Hd -> -> Hn Hs Hm base R. split; [|lia].
  unfold nullMovePruning, nullMoveCond.
  rewrite (proj2 (Z.geb_le _ _)) by lia. rewrite (proj2 (Z.ltb_lt _ _)) by lia.
  rewrite (proj2 (Z.geb_le _ _)) by lia.
  rewrite (proj2 (Z.eqb_neq _ _)) by assumption. simpl.
  fold base. change (nullMoveReduction depth staticEval beta) with R.
  destruct (self _ _ _ _ _ _) as [[[[r b'] line'] g']|]; [|reflexivity].
  destruct (- r >=? beta); reflexivity.
Qed.

(** C7.  When the probe finds an [ALL_NODE] entry for the position with
    stored depth >= depth and stored score <= alpha, the probe returns
    alpha and PVS returns alpha.  PVS takes what the probe returns for a
    cutoff unless it is the sentinel [-INFTY] (search.cpp:265-273), and
    alpha is not the sentinel in the search: a window inside the root
    window [-MATE_SCORE, MATE_SCORE] does not start at it, and every frame
    below a frame with such a window is entered with such a window (the
    search that asserts it at the entry of every frame is the search,
    below a frame of PVS and below a root move searched with such a
    window; the root window itself is such a window).
    A [PV_NODE] entry gives no score cutoff by itself: the probe does the
    same whatever score and depth the entry stores, and when it returns a
    score other than [-INFTY], that score is beta and comes from the
    search of the stored move, which was legal and failed high. *)
Theorem probe_allNode_cutoff fuel b depth alpha beta pv g entry :
  1 <= depth -> isDraw b = false ->
  tt_get (transpositionTable g) b = Some entry ->
  he_nodeType entry = ALL_NODE ->
  he_depth entry >= depth -> he_score entry <= alpha ->
  (forall (self : PVSfun) hashed,
      probeTT self b hashed depth alpha beta pv g
      = Some (alpha, hashed, alpha, pv,
              stat (stat g inc_hashHits) inc_hashScoreCuts)) /\
  (alpha <> - INFTY ->
   exists g', PVS (S fuel) b depth alpha beta pv g = Some (alpha, b, pv, g'))
  /\
  (0 < MATE_SCORE < INFTY ->
   inWindow (- MATE_SCORE) MATE_SCORE = true /\
   forall n b0 d a be pv0 (g0 : Globals Hash),
     inWindow a be = true ->
     a <> - INFTY /\
     PVS_windowed n b0 d a be pv0 g0 = PVS n b0 d a be pv0 g0 /\
     (forall i,
         rootSearch (PVS_windowed n) b0 d a be i pv0 g0
         = rootSearch (PVS n) b0 d a be i pv0 g0)) /\
  (forall (self : PVSfun) e b0 hashed d a be pvLine g0,
      he_nodeType e = PV_NODE ->
      (forall score' depth',
          probeEntry self e b0 hashed d a be pvLine g0
          = probeEntry self (mkEntry score' depth' (he_m e) PV_NODE)
              b0 hashed d a be pvLine g0) /\
      (forall hashScore hashed' a' pvLine' g',
          probeEntry self e b0 hashed d a be pvLine g0
          = Some (hashScore, hashed', a', pvLine', g') ->
          hashScore = - INFTY \/
          (hashScore = be /\
           exists copy r copy' line' g1,
             doHashMove b0 (he_m e) (getPlayerToMove b0) = Some copy /\
             self copy (d - 1) (- be) (- a) []
               (inc_ply (stat (stat (stat g0 inc_hashHits)
                                    inc_hashMoveAttempts) inc_nodes))
             = Some (r, copy', line', g1) /\
             - r >= be))).
Proof.
  intros Hd Hdraw Hget Htype Hdepth Hscore. split; [|split; [|split]].
  - intros self hashed. unfold probeTT. rewrite Hget.
    unfold probeEntry. rewrite Htype. simpl NodeType_eqb. cbv iota.
    rewrite (proj2 (Z.geb_le _ _)) by lia.
    rewrite (proj2 (Z.leb_le _ _)) by lia. reflexivity.
  - intros Halpha.
    change (PVS (S fuel)) with (PVS_F (PVS fuel) (quiescence (S fuel))).
    unfold PVS_F. rewrite (proj2 (Z.leb_gt _ _)) by lia. rewrite Hdraw.
    unfold probeTT. simpl transpositionTable. rewrite Hget.
    unfold probeEntry. rewrite Htype. simpl NodeType_eqb. cbv iota.
    rewrite (proj2 (Z.geb_le _ _)) by lia.
    rewrite (proj2 (Z.leb_le _ _)) by lia. simpl andb. cbv iota.
    rewrite (proj2 (Z.eqb_neq _ _)) by assumption. simpl negb. cbv iota.
    eexists. reflexivity.
  - intros Hmate. split; [apply inWindow_spec; lia|].
    intros n b0 d a be pv0 g0 Hw.
    split; [exact (proj1 (inWindow_sentinel a be (proj2 Hmate) Hw))|].
    split; [now apply PVS_windowed_eq|].
    intros i. rewrite !rootSearch_searchMove.
    now apply searchMove_windowed_eq.
  - intros self e b0 hashed d a be pvLine g0 Hpv. unfold probeEntry.
    rewrite Hpv. simpl. split.
    + intros score' depth'. rewrite !andb_false_r. reflexivity.
    + intros hashScore hashed' a' pvLine' g'. rewrite andb_false_r.
      destruct (doHashMove b0 (he_m e) (getPlayerToMove b0)) as [copy|];
        [|intros [= <- _ _ _ _]; now left].
      destruct (self copy _ _ _ _ _) as [[[[r copy'] line'] g1]|] eqn:E;
        [|discriminate].
      destruct (Z.geb_spec (- r) be).
      * intros [= <- _ _ _ _]. right. split; [reflexivity|].
        exists copy, r, copy', line', g1. repeat split; [exact E|lia].
      * destruct (- r >? a); intros [= <- _ _ _ _]; now left.
Qed.

(** C1 (as amended).  For every position, depth >= 1 and window
    alpha < beta, whatever PVS returns lies in [alpha, beta] unless the
    search was stopped: the only value outside the window is the sentinel
    [-INFTY], returned with the stop flag up; for a zero-width window the
    value is alpha or alpha + 1, or that sentinel.  And PVS does return,
    given fuel above depth plus a rank that bounds the quiescence search
    below the position. *)
Theorem PVS_fail_hard fuel b depth alpha beta pv g :
  1 <= depth -> alpha < beta ->
  (forall r b' pv' g',
      PVS fuel b depth alpha beta pv g = Some (r, b', pv', g') ->
      (alpha <= r <= beta \/ (r = - INFTY /\ isStop g' = true)) /\
      (isStop g' = false -> alpha <= r <= beta) /\
      (beta = alpha + 1 ->
       r = alpha \/ r = alpha + 1 \/ (r = - INFTY /\ isStop g' = true))) /\
  (forall qrank : Board -> nat,
      quiescenceRank qrank -> 0 < PAWN_VALUE ->
      (Z.to_nat depth + qrank b < fuel)%nat ->
      exists r b' pv' g',
        PVS fuel b depth alpha beta pv g = Some (r, b', pv', g')).
Proof.
  intros Hd Hab. split.
  - intros r b' pv' g' E.
    destruct (PVS_agree (Z.max 2 (nullMoveCount (searchParams g)))
                ltac:(lia) fuel b depth alpha beta pv g _ ltac:(lia) E)
      as (_ & _ & Hr).
    simpl in Hr. specialize (Hr ltac:(lia)). split; [exact Hr|]. split.
    + intros Hstop. destruct Hr as [Hr|[_ Hs]]; [exact Hr|congruence].
    + intros ->. destruct Hr as [Hr|Hr]; [|auto].
      assert (r = alpha \/ r = alpha + 1) by lia. tauto.
  - intros qrank Hrank Hpawn Hfuel.
    destruct (PVS_spec qrank Hrank Hpawn
                (Z.max 2 (nullMoveCount (searchParams g))) ltac:(lia) fuel
                b depth alpha beta pv g Hfuel ltac:(lia))
      as ([[[r b'] pv'] g'] & E & _).
    now exists r, b', pv', g'.
Qed.

(** C8.  Started with at most two null moves counted, the search never
    enters a frame with more than two: the search that asserts
    [nullMoveCount <= 2] at the entry of every frame is the search; the
    counter is back at its value when a frame returns; the excursion is
    attempted only when the counter is below 2; it enters the recursive
    call with the counter one higher, hence at most 2, and on both exits,
    the return of beta and the fall-through, it leaves the counter one
    below what the call left.  (And the search with the assertion does
    return, given fuel above depth plus rank.) *)
Theorem nullMoveCount_bounded fuel b depth alpha beta pv g :
  nullMoveCount (searchParams g) <= 2 ->
  PVS_checked fuel b depth alpha beta pv g = PVS fuel b depth alpha beta pv g
  /\
  (forall r b' pv' g',
      PVS fuel b depth alpha beta pv g = Some (r, b', pv', g') ->
      nullMoveCount (searchParams g') = nullMoveCount (searchParams g)) /\
  (forall d isPVNode inCheck count staticEval be material,
      nullMoveCond d isPVNode inCheck count staticEval be material = true ->
      count < 2) /\
  (forall (self : PVSfun) b0 d a be isPVNode inCheck staticEval color line g0,
      nullMoveCond d isPVNode inCheck (nullMoveCount (searchParams g0))
        staticEval be (getNonPawnMaterial b0 color) = true ->
      nullMovePruning self b0 d a be isPVNode inCheck staticEval color line g0
      = match self (doNullMove b0) (d - 1 - nullMoveReduction d staticEval be)
                (- be) (- a) line (inc_ply (inc_nullMoveCount g0)) with
        | None => None
        | Some (r, b', line', g') =>
            Some (if - r >=? be then Return be else Continue tt,
                  doNullMove b', line', dec_nullMoveCount (dec_ply g'))
        end) /\
  (forall g0 : Globals Hash,
      nullMoveCount (searchParams (inc_ply (inc_nullMoveCount g0)))
      = nullMoveCount (searchParams g0) + 1 /\
      nullMoveCount (searchParams (dec_nullMoveCount (dec_ply g0)))
      = nullMoveCount (searchParams g0) - 1 /\
      (forall d isPVNode inCheck staticEval be material,
          nullMoveCond d isPVNode inCheck (nullMoveCount (searchParams g0))
            staticEval be material = true ->
          nullMoveCount (searchParams (inc_ply (inc_nullMoveCount g0)))
          <= 2)) /\
  (forall qrank : Board -> nat,
      quiescenceRank qrank -> 0 < PAWN_VALUE ->
      (Z.to_nat depth + qrank b < fuel)%nat ->
      exists res, PVS_checked fuel b depth alpha beta pv g = Some res).
Proof.
  intros Hcount. split; [now apply PVS_checked_eq|].
  split; [|split; [|split; [|split]]].
  - intros r b' pv' g' E.
    destruct (PVS_agree 2 ltac:(lia) fuel b depth alpha beta pv g _ Hcount E)
      as (_ & HR & _).
    apply HR.
  - intros d isPVNode inCheck count staticEval be material Hcond.
    unfold nullMoveCond in Hcond.
    do 5 (apply andb_true_iff in Hcond; destruct Hcond as [Hcond ?]). lia.
  - intros self b0 d a be isPVNode inCheck staticEval color line g0 Hcond.
    unfold nullMovePruning. rewrite Hcond.
    destruct (self _ _ _ _ _ _) as [[[[r b'] line'] g']|]; [|reflexivity].
    destruct (- r >=? be); reflexivity.
  - intros g0. split; [reflexivity|]. split; [reflexivity|].
    intros d isPVNode inCheck staticEval be material Hcond.
    unfold nullMoveCond in Hcond.
    do 5 (apply andb_true_iff in Hcond; destruct Hcond as [Hcond ?]).
    simpl. lia.
  - intros qrank Hrank Hpawn Hfuel.
    destruct (PVS_checked_spec qrank Hrank Hpawn fuel b depth alpha beta pv g
                Hfuel Hcount) as (res & E & _).
    now exists res.
Qed.

(** C10.  The killer update of a quiet beta cutoff keeps the two slots of
    every ply distinct unless both are [NULL_MOVE]: a move different from
    slot 0 goes to slot 0 and the old slot 0 to slot 1, a move equal to
    slot 0 changes nothing; so recording a cutoff, and hence a whole
    search, preserves that invariant. *)
Theorem killers_stay_distinct fuel b depth alpha beta pv g :
  killersDistinct (killers (searchParams g)) ->
  (forall r b' pv' g',
      PVS fuel b depth alpha beta pv g = Some (r, b', pv', g') ->
      killersDistinct (killers (searchParams g'))) /\
  (forall k p m,
      (m <> fst (k p) ->
       updateKillers k p m p = (m, fst (k p)) /\
       fst (updateKillers k p m p) <> snd (updateKillers k p m p)) /\
      (m = fst (k p) -> updateKillers k p m = k) /\
      (killersDistinct k -> killersDistinct (updateKillers k p m))) /\
  (forall b0 color d m be movesSearched yielded g0,
      killersDistinct (killers (searchParams g0)) ->
      killersDistinct
        (killers (searchParams
                    (recordCutoff b0 color d m be movesSearched yielded g0)))).
Proof.
  intros Hk. split; [|split].
  - intros r b' pv' g' E.
    destruct (PVS_agree (Z.max 2 (nullMoveCount (searchParams g)))
                ltac:(lia) fuel b depth alpha beta pv g _ ltac:(lia) E)
      as (_ & HR & _).
    now apply HR.
  - intros k p m. split; [|split].
    + intros Hne. unfold updateKillers.
      rewrite (proj2 (Z.eqb_neq _ _) Hne). simpl. rewrite Z.eqb_refl.
      split; [reflexivity|exact Hne].
    + intros ->. unfold updateKillers. now rewrite Z.eqb_refl.
    + apply updateKillers_distinct.
  - intros b0 color d m be movesSearched yielded g0.
    apply (Restores_recordCutoff b0 color d m be movesSearched yielded g0).
Qed.


(** C3 (as amended).  PVS stores scores in the transposition table as they
    are: beta at a cutoff, alpha after the move loop, whatever the ply;
    and the probe compares the stored score of an [ALL_NODE] or
    [CUT_NODE] entry with alpha or beta as it is stored, whatever the
    ply. *)
Theorem TT_scores_not_adjusted b color depth m alpha beta prevAlpha toHash
    movesSearched yielded g p :
  let atPly g := set_searchParams g (set_ply (searchParams g) p) in
  transpositionTable (recordCutoff b color depth m beta movesSearched yielded g)
  = tt_add (transpositionTable g) b depth m beta CUT_NODE
      (rootMoveNumber (searchParams g)) /\
  transpositionTable
    (recordCutoff b color depth m beta movesSearched yielded (atPly g))
  = transpositionTable
      (recordCutoff b color depth m beta movesSearched yielded g) /\
  transpositionTable
    (recordResult b color depth prevAlpha alpha beta toHash yielded g)
  = (if negb (toHash =? NULL_MOVE) && (prevAlpha <? alpha) && (alpha <? beta)
     then tt_add (transpositionTable g) b depth toHash alpha PV_NODE
            (rootMoveNumber (searchParams g))
     else if alpha <=? prevAlpha
     then tt_add (transpositionTable g) b depth NULL_MOVE alpha ALL_NODE
            (rootMoveNumber (searchParams g))
     else transpositionTable g) /\
  transpositionTable
    (recordResult b color depth prevAlpha alpha beta toHash yielded (atPly g))
  = transpositionTable
      (recordResult b color depth prevAlpha alpha beta toHash yielded g) /\
  (forall (self : PVSfun) e hashed pvLine,
      he_nodeType e = ALL_NODE ->
      option_map (fun x => fst (fst (fst (fst x))))
        (probeEntry self e b hashed depth alpha beta pvLine (atPly g))
      = Some (if (he_depth e >=? depth) && (he_score e <=? alpha)
              then alpha else - INFTY)) /\
  (forall (self : PVSfun) e hashed pvLine,
      he_nodeType e = CUT_NODE ->
      he_depth e >= depth -> he_score e >= beta ->
      option_map (fun x => fst (fst (fst (fst x))))
        (probeEntry self e b hashed depth alpha beta pvLine (atPly g))
      = Some beta).
Proof.
  intros atPly. repeat split.
  - unfold recordCutoff.
    destruct (movesSearched =? 0); destruct (negb (isCapture m)); reflexivity.
  - unfold recordCutoff.
    destruct (movesSearched =? 0); destruct (negb (isCapture m)); reflexivity.
  - unfold recordResult. destruct (_ && _); [destruct (negb _); reflexivity|].
    destruct (_ <=? _); reflexivity.
  - unfold recordResult. destruct (_ && _); [destruct (negb _); reflexivity|].
    destruct (_ <=? _); reflexivity.
  - intros self e hashed pvLine He. unfold probeEntry. rewrite He. simpl.
    destruct (_ && _); reflexivity.
  - intros self e hashed pvLine He Hd Hs. unfold probeEntry. rewrite He. simpl.
    rewrite (proj2 (Z.geb_le _ _)) by lia.
    now rewrite (proj2 (Z.geb_le _ _)) by lia.
Qed.

(** C4 (as amended).  On a stalemated position, with depth >= 1 and
    alpha < beta, PVS returns [clamp(0, alpha, beta)] when the search gets
    to score the position: the table has no entry for it, neither the
    null-move nor the reverse-futility condition holds, the stop flag is
    down and the clock stays within the limit, and no move of the node is
    futility-pruned.  (A drawn position is scored before all that.) *)
Theorem PVS_stalemate fuel b depth alpha beta pv g :
  let color := getPlayerToMove b in
  let isPVNode := negb (beta - alpha =? 1) in
  let staticEval := if color =? WHITE then evaluate b else - evaluate b in
  1 <= depth -> alpha < beta -> stalemated b ->
  tt_get (transpositionTable g) b = None ->
  nullMoveCond depth isPVNode false (nullMoveCount (searchParams g))
    staticEval beta (getNonPawnMaterial b color) = false ->
  reverseFutilityCond b depth beta isPVNode false staticEval color = false ->
  isStop g = false ->
  (forall k, clock g k <= timeLimit (searchParams g)) ->
  (forall m,
      In m (ss_generateMoves b color depth isPVNode false (searchParams g)
              NULL_MOVE) ->
      futilityCond b depth alpha isPVNode false staticEval color m = false) ->
  exists g',
    PVS (S fuel) b depth alpha beta pv g
    = Some (clamp 0 alpha beta, b, pv, g').
Proof.
  intros color isPVNode staticEval Hd Hab [Hcheck Hnone] Hget Hnull Hrev
         Hstop Hclock Hfut.
  change (PVS (S fuel)) with (PVS_F (PVS fuel) (quiescence (S fuel))).
  unfold PVS_F. rewrite (proj2 (Z.leb_gt _ _)) by lia.
  destruct (isDraw b).
  { eexists. do 4 f_equal. unfold drawScore, clamp.
    destruct (Z.geb_spec 0 beta); [lia|]. destruct (Z.gtb_spec 0 alpha); lia. }
  unfold probeTT. simpl transpositionTable. rewrite Hget.
  rewrite Z.eqb_refl. simpl negb. cbv iota.
  unfold searchNode. cbv zeta. rewrite Hcheck.
  fold color. fold isPVNode. fold staticEval. unfold nullMovePruning.
  simpl searchParams. rewrite Hnull. rewrite Hrev.
  destruct (moveLoop_no_legal_move (PVS fuel) b color depth beta alpha
              staticEval isPVNode false (fun m => proj1 (Hnone m)))
    with (pending := ss_generateMoves b color depth isPVNode false
                       (searchParams g) NULL_MOVE)
         (yielded := @nil Move) (alpha := alpha) (score := - INFTY)
         (toHash := NULL_MOVE)
         (movesSearched := if NULL_MOVE =? NULL_MOVE then 0 else 1)
         (pvLine := pv) (line := @nil Move) (g := stat g inc_hashProbes)
    as (ys & g' & E & _); try assumption.
  change (searchParams (stat g inc_hashProbes)) with (searchParams g).
  rewrite E. rewrite Z.eqb_refl. eexists. do 4 f_equal.
  unfold scoreMate, clamp.
  destruct (Z.geb_spec 0 beta); [lia|]. destruct (Z.gtb_spec 0 alpha); lia.
Qed.

End Claims.

(** * The claims on the concrete instance *)
Module ExampleFacts.
Import Example.

(** Playing a move leads to a lower tree. *)
Lemma toy_play_rank ms m c :
  toy_play ms m = Some c ->
  (toy_rank c
   <= fold_right
        (fun p acc =>
           match snd p with
           | Some c => Nat.max (toy_rank c) acc
           | None => acc
           end) 0%nat ms)%nat.
Proof.
  induction ms as [|[m' o] ms IH]; simpl; [discriminate|].
  destruct (m' =? m).
  - intros ->. lia.
  - intros E. specialize (IH E). destruct o; lia.
Qed.

Lemma toy_move_rank b m c :
  toy_play (toy_moves b) m = Some c -> (toy_rank c < toy_rank b)%nat.
Proof.
  destruct b as [k s d ch e n ms]. simpl. intros E.
  apply toy_play_rank in E. lia.
Qed.

Lemma toy_quiescenceRank : quiescenceRank toy_rank.
Proof.
  repeat split.
  - intros b m c b' E. apply toy_move_rank in E. lia.
  - intros b m c b' E. apply toy_move_rank in E. lia.
  - intros [k s d ch e n ms]. simpl. lia.
  - intros b m b' _ E. now apply toy_move_rank in E.
Qed.

Lemma stalemate_stalemated eval : stalemated (stalemate eval).
Proof.
  split; [reflexivity|]. intros m.
  change (toy_play [(1, None)] m = None /\ toy_play [(1, None)] m = None).
  unfold toy_play. destruct (1 =? m); split; reflexivity.
Qed.

(** C1, counterexample: with the clock past the limit, the frame returns
    -INFTY = -32767 for the window [0, 1]. *)
Lemma PVS_timeout_outside_window :
  scoreOf (PVS 3 mateInOne 1 0 1 [] (toyGlobals 0 1000 2000 false))
  = Some (-32767) /\
  ~ (0 <= -32767 <= 1).
Proof. split; [vm_compute; reflexivity|lia]. Qed.

(** C1, the theorem on [mateInOne]: the search returns, inside the
    window. *)
Lemma PVS_fail_hard_witness :
  exists r b' pv' g',
    PVS 5 mateInOne 1 (-10) 10 [] (toyGlobals 0 1000 0 false)
    = Some (r, b', pv', g') /\
    (-10 <= r <= 10 \/ (r = - INFTY /\ isStop g' = true)).
Proof.
  destruct (PVS_fail_hard 5 mateInOne 1 (-10) 10 []
              (toyGlobals 0 1000 0 false)) as [Hin Hret]; [lia|lia|].
  destruct (Hret toy_rank toy_quiescenceRank) as (r & b' & pv' & g' & E);
    [reflexivity|simpl; lia|].
  exists r, b', pv', g'. split; [exact E|]. apply (Hin r b' pv' g' E).
Defined.



(** C3, counterexample: at ply 1 the search of [mateInOne] finds the mate
    score 32764 (above MATE_SCORE - MAX_DEPTH) and stores 32764, not
    32764 + 1. *)
Lemma mate_score_stored_unadjusted :
  option_map (fun x => (fst (fst (fst x)), transpositionTable (snd x),
                        ply (searchParams (snd x))))
    (PVS 3 mateInOne 1 (-32766) 32766 [] (toyGlobals 1 1000 0 false))
  = Some (32764, [(1, mkEntry 32764 1 1 PV_NODE)], 1) /\
  32764 > MATE_SCORE - MAX_DEPTH /\
  32764 <> 32764 + 1.
Proof. split; [vm_compute; reflexivity|split; [reflexivity|discriminate]]. Qed.

(** C4, counterexample: on a stalemated position whose static evaluation
    is far above beta, reverse futility pruning returns beta = 1 for the
    window [0, 1], where clamp(0, 0, 1) = 0. *)
Lemma stalemate_pruned :
  stalemated (stalemate 500) /\
  scoreOf (PVS 2 (stalemate 500) 1 0 1 [] (toyGlobals 0 1000 0 false))
  = Some 1 /\
  clamp 0 0 1 = 0.
Proof.
  split; [apply stalemate_stalemated|].
  split; [vm_compute; reflexivity|reflexivity].
Qed.

(** C4, the theorem on [stalemate 0] with the window [-5, 5]. *)
Lemma PVS_stalemate_witness :
  exists g',
    PVS 2 (stalemate 0) 1 (-5) 5 [] (toyGlobals 0 1000 0 false)
    = Some (clamp 0 (-5) 5, stalemate 0, [], g').
Proof.
  apply (PVS_stalemate 1 (stalemate 0) 1 (-5) 5 []
           (toyGlobals 0 1000 0 false));
    [lia|lia|apply stalemate_stalemated|reflexivity|reflexivity|reflexivity
    |reflexivity|intros k; simpl; lia
    |intros m _; reflexivity].
Defined.

(** C5, the theorem on a drawn position. *)
Lemma PVS_draw_witness :
  PVS 1 (ToyNode 9 0 true false 300 5 [(1, Some noMoves)]) 4 (-50) 50 []
    (toyGlobals 0 1000 0 false)
  = Some (clamp 0 (-50) 50, ToyNode 9 0 true false 300 5 [(1, Some noMoves)],
          [], toyGlobals 0 1000 0 false).
Proof.
  apply (PVS_draw 0 (ToyNode 9 0 true false 300 5 [(1, Some noMoves)]) 4
           (-50) 50 [] (toyGlobals 0 1000 0 false));
    [lia|lia|reflexivity].
Defined.

(** C6, the theorem at depth 7, static evaluation 450, beta 100: the
    reduction is min(5, 3 + 3) = 5 and the child depth 1. *)
Lemma nullMove_child_depth_witness :
  7 - 1 - Z.min (7 - 2) (3 + (450 - 100) ÷ PAWN_VALUE) >= 1.
Proof.
  apply (nullMove_child_depth (PVS 0) (stalemate 450) 7 99 100 false false 450
           0 [] (toyGlobals 0 1000 0 false));
    [lia|reflexivity|reflexivity|simpl; lia|lia|discriminate].
Defined.

(** C7, the theorem on [noMoves] with an all-node entry scored -20 and
    the window [-10, -5]. *)
Lemma probe_allNode_cutoff_witness :
  inWindow (-10) (-5) = true /\
  exists g',
    PVS 2 noMoves 1 (-10) (-5) []
      (mkGlobals [(7, mkEntry (-20) 5 0 ALL_NODE)] (toyParams 0 1000)
         resetStats false 0%nat (fun _ => 0))
    = Some (-10, noMoves, [], g').
Proof.
  split; [reflexivity|].
  assert (Hdepth : 1 <= 1) by lia.
  assert (Hstored : he_depth (mkEntry (-20) 5 0 ALL_NODE) >= 1)
    by (simpl; lia).
  assert (Hscore : he_score (mkEntry (-20) 5 0 ALL_NODE) <= -10)
    by (simpl; lia).
  assert (Hdraw : isDraw noMoves = false) by reflexivity.
  assert (Hget :
    tt_get
      (transpositionTable
         (mkGlobals [(7, mkEntry (-20) 5 0 ALL_NODE)] (toyParams 0 1000)
            resetStats false 0%nat (fun _ => 0))) noMoves
    = Some (mkEntry (-20) 5 0 ALL_NODE)) by reflexivity.
  assert (Htype : he_nodeType (mkEntry (-20) 5 0 ALL_NODE) = ALL_NODE)
    by reflexivity.
  destruct (probe_allNode_cutoff 1 noMoves 1 (-10) (-5) []
              (mkGlobals [(7, mkEntry (-20) 5 0 ALL_NODE)] (toyParams 0 1000)
                 resetStats false 0%nat (fun _ => 0))
              (mkEntry (-20) 5 0 ALL_NODE)
              Hdepth Hdraw Hget Htype Hstored Hscore)
    as (_ & Hcut & _).
  apply Hcut. discriminate.
Defined.

(** C8, the theorem on [RootExample.twoMoves] at depth 3 with the null
    window [-1, 0], entered with one null move counted: the excursion is
    tried at the root, the frame below it is entered with two null moves
    counted, and the search returns with one. *)
Lemma nullMoveCount_bounded_witness :
  nullMoveCond 3 false false
    (nullMoveCount (searchParams
                      (inc_nullMoveCount (toyGlobals 0 1000 0 false))))
    0 0 (getNonPawnMaterial RootExample.twoMoves 0) = true /\
  nullMoveCount
    (searchParams
       (inc_ply (inc_nullMoveCount
                   (inc_nullMoveCount (toyGlobals 0 1000 0 false))))) = 2 /\
  PVS_checked 10 RootExample.twoMoves 3 (-1) 0 []
    (inc_nullMoveCount (toyGlobals 0 1000 0 false))
  = PVS 10 RootExample.twoMoves 3 (-1) 0 []
      (inc_nullMoveCount (toyGlobals 0 1000 0 false)) /\
  match PVS 10 RootExample.twoMoves 3 (-1) 0 []
          (inc_nullMoveCount (toyGlobals 0 1000 0 false)) with
  | Some (_, _, _, g') => nullMoveCount (searchParams g') = 1
  | None => False
  end.
Proof.
  assert (Hcount :
    nullMoveCount (searchParams
                     (inc_nullMoveCount (toyGlobals 0 1000 0 false))) <= 2)
    by (simpl; lia).
  destruct (nullMoveCount_bounded 10 RootExample.twoMoves 3 (-1) 0 []
              (inc_nullMoveCount (toyGlobals 0 1000 0 false)) Hcount)
    as (Heq & Hback & _ & _ & Hstep & _).
  split; [reflexivity|].
  split; [exact (proj1 (Hstep _))|].
  split; [exact Heq|].
  destruct (PVS 10 RootExample.twoMoves 3 (-1) 0 []
              (inc_nullMoveCount (toyGlobals 0 1000 0 false)))
    as [[[[r b'] pv'] g']|] eqn:E; [|discriminate E].
  exact (Hback r b' pv' g' eq_refl).
Defined.

(** C9, the theorem on three moves with scores 10, 30, 20. *)
Lemma nextMove_selection_sort_witness :
  StronglySorted (fun p q => snd q <= snd p)
    (successive 3 [3; 1; 2] [10; 30; 20] 0) /\
  successive 3 [3; 1; 2] [10; 30; 20] 0 ≡ₚ zip [3; 1; 2] [10; 30; 20].
Proof.
  apply (nextMove_selection_sort [3; 1; 2] [10; 30; 20] 0). reflexivity.
Defined.

(** C10, the theorem on [mateInOne] with empty killer slots. *)
Lemma killers_stay_distinct_witness :
  killersDistinct (killers (searchParams (toyGlobals 0 1000 0 false))) /\
  match PVS 5 mateInOne 1 (-10) 10 [] (toyGlobals 0 1000 0 false) with
  | Some (_, _, _, g') => killersDistinct (killers (searchParams g'))
  | None => False
  end.
Proof.
  assert (Hk : killersDistinct
                 (killers (searchParams (toyGlobals 0 1000 0 false))))
    by (intros p _; reflexivity).
  split; [exact Hk|].
  destruct (PVS 5 mateInOne 1 (-10) 10 [] (toyGlobals 0 1000 0 false))
    as [[[[r b'] pv'] g']|] eqn:E; [|discriminate E].
  apply (proj1 (killers_stay_distinct 5 mateInOne 1 (-10) 10 []
                  (toyGlobals 0 1000 0 false) Hk) r b' pv' g' E).
Defined.

End ExampleFacts.

(** * Further properties of the sources *)

(** ** Packed evaluation scores *)
Module PackedScoreFacts.
Import PackedScore.

(** A [Score] split into its halves. *)
Lemma halves (hi lo : Z) :
  0 <= lo < 65536 ->
  Z.land (hi * 65536 + lo) 65535 = lo /\ Z.shiftr (hi * 65536 + lo) 16 = hi.
Proof.
  intros Hlo. split.
  - change 65535 with (Z.ones 16). rewrite Z.land_ones by lia.
    change (2 ^ 16) with 65536.
    rewrite Z.add_comm, Z.mod_add by lia. now apply Z.mod_small.
  - rewrite Z.shiftr_div_pow2 by lia. change (2 ^ 16) with 65536.
    rewrite Z.add_comm, Z.div_add by lia. rewrite Z.div_small by lia. lia.
Qed.

Lemma decode_halves (hi lo : Z) :
  0 <= lo < 65536 -> 0 <= hi < 65536 ->
  decEvalMg (wrap32 (hi * 65536 + lo)) = lo - 32768 /\
  decEvalEg (wrap32 (hi * 65536 + lo)) = hi - 32768.
Proof.
  intros Hlo Hhi. unfold decEvalMg, decEvalEg, wrap32.
  rewrite Z.mod_small by lia.
  destruct (halves hi lo Hlo) as [-> ->]. auto.
Qed.

(** Every [Score] is its two halves. *)
Lemma score_split (s : Score) :
  0 <= s < 2 ^ 32 ->
  s = (decEvalEg s + 32768) * 65536 + (decEvalMg s + 32768) /\
  0 <= decEvalMg s + 32768 < 65536 /\ 0 <= decEvalEg s + 32768 < 65536.
Proof.
  intros Hs. unfold decEvalMg, decEvalEg.
  change 65535 with (Z.ones 16). rewrite Z.land_ones by lia.
  rewrite Z.shiftr_div_pow2 by lia. change (2 ^ 16) with 65536.
  pose proof (Z.div_mod s 65536 ltac:(lia)).
  pose proof (Z.mod_pos_bound s 65536 ltac:(lia)).
  assert (0 <= s / 65536 < 65536).
  { split; [apply Z.div_pos; lia|]. apply Z.div_lt_upper_bound; lia. }
  lia.
Qed.

(** X1.  Round trip: a pair of 16-bit signed values packed by [E] on top
    of [EVAL_ZERO] is read back by [decEvalMg] and [decEvalEg]. *)
Theorem pack_unpack (mg eg : Z) :
  int16 mg -> int16 eg ->
  decEvalMg (add EVAL_ZERO (E mg eg)) = mg /\
  decEvalEg (add EVAL_ZERO (E mg eg)) = eg.
Proof.
  unfold int16. intros Hmg Heg. unfold add, E, EVAL_ZERO, wrap32.
  rewrite Z.shiftl_mul_pow2 by lia. change (2 ^ 16) with 65536.
  rewrite Zplus_mod_idemp_r.
  replace (2147516416 + (eg * 65536 + mg))
    with ((eg + 32768) * 65536 + (mg + 32768)) by lia.
  destruct (decode_halves (eg + 32768) (mg + 32768)) as [Hm He]; [lia|lia|].
  unfold wrap32 in Hm, He. rewrite Hm, He. lia.
Qed.

(** X2.  Adding or subtracting a packed pair adds or subtracts the two
    components separately, as long as both results stay within 16 signed
    bits; a negative midgame part borrows from the endgame half of the
    word and the bias pays it back. *)
Theorem packed_arithmetic (s : Score) (mg eg : Z) :
  0 <= s < 2 ^ 32 ->
  (int16 (decEvalMg s + mg) -> int16 (decEvalEg s + eg) ->
   decEvalMg (add s (E mg eg)) = decEvalMg s + mg /\
   decEvalEg (add s (E mg eg)) = decEvalEg s + eg) /\
  (int16 (decEvalMg s - mg) -> int16 (decEvalEg s - eg) ->
   decEvalMg (sub s (E mg eg)) = decEvalMg s - mg /\
   decEvalEg (sub s (E mg eg)) = decEvalEg s - eg).
Proof.
  intros Hs. destruct (score_split s Hs) as (Hsplit & Hlo & Hhi).
  set (lo := decEvalMg s) in *. set (hi := decEvalEg s) in *.
  unfold int16. split; intros Hmg Heg.
  - unfold add, E, wrap32. rewrite Z.shiftl_mul_pow2 by lia.
    change (2 ^ 16) with 65536. rewrite Zplus_mod_idemp_r.
    replace (s + (eg * 65536 + mg))
      with ((hi + eg + 32768) * 65536 + (lo + mg + 32768)) by lia.
    destruct (decode_halves (hi + eg + 32768) (lo + mg + 32768)) as [Hm He];
      [lia|lia|].
    unfold wrap32 in Hm, He. rewrite Hm, He. lia.
  - unfold sub, E, wrap32. rewrite Z.shiftl_mul_pow2 by lia.
    change (2 ^ 16) with 65536. rewrite Zminus_mod_idemp_r.
    replace (s - (eg * 65536 + mg))
      with ((hi - eg + 32768) * 65536 + (lo - mg + 32768)) by lia.
    destruct (decode_halves (hi - eg + 32768) (lo - mg + 32768)) as [Hm He];
      [lia|lia|].
    unfold wrap32 in Hm, He. rewrite Hm, He. lia.
Qed.

End PackedScoreFacts.

(** ** [nextMove]: ties and the part of the list already handed out *)
Section NextMoveMore.
Context `{SearchConstants}.

(** Every score before the index the scan settles on is strictly
    smaller. *)
Lemma scanBest_first (scores : ScoreList) (lo : nat) :
  forall n i bestIndex,
    (lo <= bestIndex < i)%nat ->
    (forall k, (lo <= k < i)%nat -> get scores k <= get scores bestIndex) ->
    (forall k, (lo <= k < bestIndex)%nat ->
               get scores k < get scores bestIndex) ->
    forall k,
      (lo <= k < scanBest scores n i bestIndex (get scores bestIndex))%nat ->
      get scores k
      < get scores (scanBest scores n i bestIndex (get scores bestIndex)).
Proof.
  induction n as [|n IH]; intros i bestIndex Hb Hmax Hfirst; simpl.
  - exact Hfirst.
  - destruct (Z.gtb_spec (get scores i) (get scores bestIndex)) as [Hgt|Hle].
    + apply IH; [lia| |].
      * intros k Hk. destruct (decide (k = i)) as [->|]; [lia|].
        specialize (Hmax k). lia.
      * intros k Hk. specialize (Hmax k). lia.
    + apply IH; [lia| |exact Hfirst].
      intros k Hk. destruct (decide (k = i)) as [->|]; [lia|].
      apply Hmax. lia.
Qed.

(** X3.  Inside the list, [nextMove] takes the first position from
    [index] on that holds a largest score (ties go to the earlier move),
    and it leaves the entries before [index], the moves already handed
    out, where they are. *)
Theorem nextMove_first_maximum (moves : MoveList) (scores : ScoreList)
    (index : nat) :
  length scores = length moves -> (index < length moves)%nat ->
  exists j,
    (index <= j < length moves)%nat /\
    nextMove moves scores index
    = (get moves j, swap moves j index, swap scores j index) /\
    (forall k, (index <= k < length moves)%nat ->
               get scores k <= get scores j) /\
    (forall k, (index <= k < j)%nat -> get scores k < get scores j) /\
    (forall k, (k < index)%nat ->
               swap moves j index !! k = moves !! k /\
               swap scores j index !! k = scores !! k).
Proof.
  intros Hlen Hlt.
  assert (Hbase : forall k, (index <= k < S index)%nat ->
                            get scores k <= get scores index).
  { intros k Hk. assert (k = index) by lia. subst. lia. }
  destruct (scanBest_spec scores index (length moves - S index) (S index)
              index ltac:(lia) Hbase) as [Hr Hmax].
  pose proof (scanBest_first scores index (length moves - S index) (S index)
                index ltac:(lia) Hbase ltac:(intros k Hk; lia)) as Hfirst.
  set (j := scanBest scores (length moves - S index) (S index) index
              (get scores index)) in *.
  unfold MoveList, ScoreList, Move in *.
  exists j. split; [lia|]. split; [|split; [|split]].
  - unfold nextMove. unfold MoveList, ScoreList, Move in *.
    rewrite (proj2 (Nat.leb_gt _ _) Hlt). fold j. cbv zeta. f_equal. f_equal.
    apply get_lookup. rewrite lookup_swap_r by lia. apply lookup_get. lia.
  - intros k Hk. apply Hmax. lia.
  - exact Hfirst.
  - intros k Hk. rewrite !lookup_swap by lia.
    rewrite !decide_False by lia. auto.
Qed.

End NextMoveMore.

(** ** Quiescence as a search of its own *)
Section QuiescenceMore.
Context `{SearchConstants} {Board Hash : Type}
        `{BoardOps Board} `{HashOps Hash Board} `{SearchSpaceOps Board}.

Implicit Type b : Board.

(** X4.  Quiescence and check-quiescence are fail-hard: for alpha <= beta
    whatever they return lies in [alpha, beta]; and quiescence returns,
    given fuel above a rank that its moves lower. *)
Theorem quiescence_fail_hard fuel ply b plies alpha beta st :
  alpha <= beta ->
  (forall r st',
      quiescence fuel ply b plies alpha beta st = Some (r, st') ->
      alpha <= r <= beta) /\
  (forall r st',
      checkQuiescence fuel ply b plies alpha beta st = Some (r, st') ->
      alpha <= r <= beta) /\
  (forall qrank : Board -> nat,
      quiescenceRank qrank -> (qrank b < fuel)%nat ->
      exists r st', quiescence fuel ply b plies alpha beta st = Some (r, st')).
Proof.
  intros Hab. split; [|split].
  - intros r st'. now apply quiescence_range.
  - intros r st'. now apply checkQuiescence_body_range.
  - intros qrank Hrank Hfuel.
    destruct (quiescence_spec qrank Hrank fuel ply b plies alpha beta st Hfuel)
      as (r & st' & E & _).
    now exists r, st'.
Qed.

(** X5.  Stand pat: out of check, quiescence never returns less than the
    static evaluation of the position cut to the window, provided the
    positional part is at most [MAX_POS_SCORE] (what the early delta
    pruning on material relies on). *)
Theorem quiescence_stand_pat fuel ply b plies alpha beta st r st' :
  let color := getPlayerToMove b in
  let material :=
    if color =? WHITE then evaluateMaterial b else - evaluateMaterial b in
  let positional :=
    if color =? WHITE then evaluatePositional b else - evaluatePositional b in
  alpha <= beta -> isInCheck b color = false ->
  positional <= MAX_POS_SCORE -> 0 <= MAX_POS_SCORE + QUEEN_VALUE ->
  quiescence fuel ply b plies alpha beta st = Some (r, st') ->
  Z.max alpha (Z.min (material + positional) beta) <= r <= beta.
Proof.
  intros color material positional Hab Hcheck Hpos Hmargin.
  destruct fuel as [|fuel]; [discriminate|]. simpl. fold color.
  rewrite Hcheck. fold material.
  destruct (Z.geb_spec material (beta + MAX_POS_SCORE));
    [intros [= <- _]; lia|].
  destruct (Z.ltb_spec material (alpha - 2 * MAX_POS_SCORE - QUEEN_VALUE));
    [intros [= <- _]; lia|].
  fold positional.
  set (alpha' := if alpha <? material + positional
                 then material + positional else alpha).
  destruct (Z.geb_spec (material + positional) beta); [intros [= <- _]; lia|].
  assert (Ha : alpha <= alpha' <= beta /\ material + positional <= alpha').
  { unfold alpha'. destruct (Z.ltb_spec alpha (material + positional)); lia. }
  destruct (Z.ltb_spec (material + positional)
              (alpha' - MAX_POS_SCORE - QUEEN_VALUE));
    [intros [= <- _]; lia|].
  destruct (qsCaptures _ _ _ _ _ _ _ _ _ _ _ _ _ _)
    as [[[r1|[[a1 s1] j1]] st1]|] eqn:E1; [| |discriminate];
    pose proof (qsCaptures_range _ _ _ _ _ _ _ _ _ _ _ _ _ _ _ _
                  (proj2 (proj1 Ha)) E1) as Hc1; simpl in Hc1.
  { intros [= <- _]. lia. }
  destruct (qsLoop _ _ _ _ _ _ _ _ _ _ _)
    as [[[r2|[[a2 s2] j2]] st2]|] eqn:E2; [| |discriminate];
    pose proof (qsLoop_range _ _ _ _ _ _ _ _ _ _ _ _ _ (proj2 Hc1) E2) as Hc2;
    simpl in Hc2.
  { intros [= <- _]. lia. }
  destruct (plies <=? 0); [|intros [= <- _]; lia].
  destruct (qsLoop (checkQuiescence_body _ _) _ _ _ _ _ _ _ _ _ _)
    as [[[r3|[[a3 s3] j3]] st3]|] eqn:E3; [| |discriminate];
    pose proof (qsLoop_range _ _ _ _ _ _ _ _ _ _ _ _ _ (proj2 Hc2) E3) as Hc3;
    simpl in Hc3; intros [= <- _]; lia.
Qed.

(** A loop none of whose moves can be played changes nothing. *)
Lemma qsLoop_no_legal_move (rec : QSfun) skip b color plies beta :
  forall moves alpha score j st,
    (forall m, In m moves -> doPseudoLegalMove b m color = None) ->
    qsLoop rec skip b color plies beta moves alpha score j st
    = Some (Continue (alpha, score, j), st).
Proof.
  induction moves as [|m moves IH]; intros alpha score j st Hnone; simpl;
    [reflexivity|].
  rewrite (Hnone m) by now left.
  destruct (skip m); apply IH; intros m' Hin; apply Hnone; now right.
Qed.

(** X6.  Checkmate in quiescence: in a position where no check escape can
    be played, check-quiescence (and quiescence, which hands over to it
    when the side to move is in check) returns the mate score
    [-MATE_SCORE + ply + plies] cut to the window, and counts no node. *)
Theorem checkQuiescence_mate fuel ply b plies alpha beta st :
  alpha <= beta ->
  (forall m, In m (getPseudoLegalCheckEscapes b (getPlayerToMove b)) ->
             doPseudoLegalMove b m (getPlayerToMove b) = None) ->
  checkQuiescence fuel ply b plies alpha beta st
  = Some (clamp (- MATE_SCORE + ply + plies) alpha beta, st) /\
  (isInCheck b (getPlayerToMove b) = true ->
   quiescence (S fuel) ply b plies alpha beta st
   = Some (clamp (- MATE_SCORE + ply + plies) alpha beta, st)).
Proof.
  intros Hab Hnone.
  assert (Hc : checkQuiescence fuel ply b plies alpha beta st
               = Some (clamp (- MATE_SCORE + ply + plies) alpha beta, st)).
  { unfold checkQuiescence, checkQuiescence_body.
    rewrite qsLoop_no_legal_move by exact Hnone.
    rewrite Z.eqb_refl. unfold clamp.
    destruct (Z.geb_spec (- MATE_SCORE + ply + plies) beta);
      [do 2 f_equal; lia|].
    destruct (Z.gtb_spec (- MATE_SCORE + ply + plies) alpha);
      do 2 f_equal; lia. }
  split; [exact Hc|]. intros Hcheck. simpl. rewrite Hcheck. exact Hc.
Qed.

(** A capture loop none of whose moves can be played changes nothing. *)
Lemma qsCaptures_no_legal_move (rec : QSfun) b color plies beta standPat :
  (forall m, doPseudoLegalMove b m color = None) ->
  forall n i moves scores alpha score j st,
    qsCaptures rec b color plies beta standPat n i moves scores alpha score j
      st = Some (Continue (alpha, score, j), st).
Proof.
  intros Hnone.
  induction n as [|n IH]; intros i moves scores alpha score j st; simpl;
    [reflexivity|].
  destruct (nextMove moves scores i) as [[m moves'] scores'].
  destruct (m =? NULL_MOVE); [reflexivity|].
  destruct (_ <? _); [apply IH|].
  destruct (_ && _); [apply IH|].
  rewrite Hnone. apply IH.
Qed.

(** X24.  A position without a playable move is scored statically: out
    of check, with the positional part within [MAX_POS_SCORE] of zero,
    quiescence returns the static evaluation (material plus positional)
    cut to the window, and counts no node.  In particular it does not see
    a stalemate. *)
Theorem quiescence_no_move fuel ply b plies alpha beta st :
  let color := getPlayerToMove b in
  let material :=
    if color =? WHITE then evaluateMaterial b else - evaluateMaterial b in
  let positional :=
    if color =? WHITE then evaluatePositional b else - evaluatePositional b in
  alpha <= beta -> isInCheck b color = false ->
  - MAX_POS_SCORE <= positional <= MAX_POS_SCORE ->
  0 <= MAX_POS_SCORE + QUEEN_VALUE ->
  (forall m, doPseudoLegalMove b m color = None) ->
  quiescence (S fuel) ply b plies alpha beta st
  = Some (clamp (material + positional) alpha beta, st).
Proof.
  intros color material positional Hab Hcheck Hpos Hmargin Hnone.
  simpl. fold color. rewrite Hcheck. fold material. unfold clamp.
  destruct (Z.geb_spec material (beta + MAX_POS_SCORE));
    [do 2 f_equal; lia|].
  destruct (Z.ltb_spec material (alpha - 2 * MAX_POS_SCORE - QUEEN_VALUE));
    [do 2 f_equal; lia|].
  fold positional.
  set (alpha' := if alpha <? material + positional
                 then material + positional else alpha).
  destruct (Z.geb_spec (material + positional) beta); [do 2 f_equal; lia|].
  assert (Ha : alpha' = Z.max alpha (Z.min (material + positional) beta)).
  { unfold alpha'. destruct (Z.ltb_spec alpha (material + positional)); lia. }
  destruct (Z.ltb_spec (material + positional)
              (alpha' - MAX_POS_SCORE - QUEEN_VALUE));
    [now rewrite Ha|].
  rewrite qsCaptures_no_legal_move by exact Hnone.
  rewrite qsLoop_no_legal_move by (intros m _; apply Hnone).
  destruct (plies <=? 0); [|now rewrite Ha].
  rewrite qsLoop_no_legal_move by (intros m _; apply Hnone).
  now rewrite Ha.
Qed.

End QuiescenceMore.

(** ** More on one PVS frame *)
Section FrameMore.
Context `{SearchConstants} {Board Hash : Type}
        `{BoardOps Board} `{HashOps Hash Board} `{SearchSpaceOps Board}.

Implicit Type g : Globals Hash.
Implicit Type b : Board.

(** The move loop over moves none of which can be played, with the stop
    flag down and the clock within the limit, only reads the clock. *)
Lemma moveLoop_no_legal_move_state (self : PVSfun) b color depth beta
    prevAlpha staticEval isPVNode inCheck :
  (forall m, doPseudoLegalMove b m color = None) ->
  forall pending yielded alpha score toHash movesSearched pvLine line g,
    (forall m, In m pending ->
       futilityCond b depth alpha isPVNode inCheck staticEval color m
       = false) ->
    isStop g = false ->
    (forall k, clock g k <= timeLimit (searchParams g)) ->
    exists yielded' g',
      moveLoop self b color depth beta prevAlpha staticEval isPVNode inCheck
        pending yielded alpha score toHash movesSearched pvLine line g
      = Some (Continue (alpha, score, toHash, yielded'), pvLine, g') /\
      searchParams g' = searchParams g /\
      transpositionTable g' = transpositionTable g /\
      searchStats g' = searchStats g /\
      isStop g' = false.
Proof.
  intros Hnone.
  induction pending as [|m pending IH];
    intros yielded alpha score toHash movesSearched pvLine line g Hfut Hstop
           Hclock; simpl.
  { eexists _, _. repeat split; auto. }
  destruct (m =? NULL_MOVE); [eexists _, _; repeat split; auto|].
  destruct (checkTimeout_in_time g Hstop Hclock) as (Hs & Hc & Hp & Ht).
  assert (Hst : searchStats (checkTimeout g) = searchStats g).
  { unfold checkTimeout. simpl. destruct (_ >? _); reflexivity. }
  rewrite Hs. rewrite (Hfut m) by now left. rewrite Hnone.
  destruct (IH (m :: yielded) alpha score toHash movesSearched pvLine line
              (checkTimeout g)) as (ys & g' & -> & Hp' & Ht' & Hst' & Hs').
  - intros m' Hin. apply Hfut. now right.
  - exact Hs.
  - intros k. rewrite Hc, Hp. apply Hclock.
  - eexists _, _. split; [reflexivity|]. repeat split; congruence.
Qed.

(** X7.  Checkmate: on a position that is not drawn, where the side to
    move is in check and no move can be played, with no table entry for
    it, the stop flag down and the clock within the limit, PVS at depth
    >= 1 returns the mate score [-MATE_SCORE + ply] cut to the window; it
    leaves the board, the line and the table as they are and counts only
    the probe. *)
Theorem PVS_checkmate fuel b depth alpha beta pv g :
  1 <= depth -> alpha <= beta ->
  isDraw b = false ->
  isInCheck b (getPlayerToMove b) = true ->
  (forall m, doPseudoLegalMove b m (getPlayerToMove b) = None) ->
  tt_get (transpositionTable g) b = None ->
  isStop g = false ->
  (forall k, clock g k <= timeLimit (searchParams g)) ->
  exists g',
    PVS (S fuel) b depth alpha beta pv g
    = Some (clamp (- MATE_SCORE + ply (searchParams g)) alpha beta, b, pv, g')
    /\ transpositionTable g' = transpositionTable g
    /\ searchParams g' = searchParams g
    /\ searchStats g' = inc_hashProbes (searchStats g).
Proof.
  intros Hd Hab Hdraw Hcheck Hnone Hget Hstop Hclock.
  change (PVS (S fuel)) with (PVS_F (PVS fuel) (quiescence (S fuel))).
  unfold PVS_F. rewrite (proj2 (Z.leb_gt _ _)) by lia. rewrite Hdraw.
  unfold probeTT. simpl transpositionTable. rewrite Hget.
  rewrite Z.eqb_refl. simpl negb. cbv iota.
  unfold searchNode. cbv zeta. rewrite Hcheck.
  unfold nullMovePruning, nullMoveCond, reverseFutilityCond.
  rewrite !andb_false_r. simpl andb. cbv iota.
  destruct (moveLoop_no_legal_move_state (PVS fuel) b (getPlayerToMove b)
              depth beta alpha
              (if getPlayerToMove b =? WHITE then evaluate b else - evaluate b)
              (negb (beta - alpha =? 1)) true Hnone)
    with (pending := ss_generateMoves b (getPlayerToMove b) depth
                       (negb (beta - alpha =? 1)) true
                       (searchParams (stat g inc_hashProbes)) NULL_MOVE)
         (yielded := @nil Move) (alpha := alpha) (score := - INFTY)
         (toHash := NULL_MOVE)
         (movesSearched := if NULL_MOVE =? NULL_MOVE then 0 else 1)
         (pvLine := pv) (line := @nil Move) (g := stat g inc_hashProbes)
    as (ys & g' & E & Hp & Ht & Hst & _); try assumption.
  { intros m _. unfold futilityCond, nodeIsReducible. simpl.
    now rewrite !andb_false_r. }
  rewrite E. rewrite Z.eqb_refl. exists g'.
  split; [|repeat split; assumption].
  do 4 f_equal. rewrite Hp. simpl. unfold scoreMate, clamp.
  destruct (Z.geb_spec (- MATE_SCORE + ply (searchParams g)) beta); [lia|].
  destruct (Z.gtb_spec (- MATE_SCORE + ply (searchParams g)) alpha); lia.
Qed.

(** X8.  Whatever PVS returns, it returns at the ply it was entered at,
    and with the stop flag up if it was up: the search never lowers the
    flag. *)
Theorem PVS_restores_ply fuel b depth alpha beta pv g r b' pv' g' :
  PVS fuel b depth alpha beta pv g = Some (r, b', pv', g') ->
  ply (searchParams g') = ply (searchParams g) /\
  (isStop g = true -> isStop g' = true).
Proof.
  intros E.
  destruct (PVS_agree (Z.max 2 (nullMoveCount (searchParams g)))
              ltac:(lia) fuel b depth alpha beta pv g _ ltac:(lia) E)
    as (_ & (_ & Hply & _ & Hstop) & _).
  split; assumption.
Qed.

End FrameMore.

(** ** The statistics counters *)

Ltac counts :=
  unfold SearchCounts, QuiescenceCounts in *; simpl in *; lia.

Section QuiescenceCountsFacts.
Context `{SearchConstants} {Board Hash : Type}
        `{BoardOps Board} `{HashOps Hash Board} `{SearchSpaceOps Board}.

Implicit Type b copy : Board.

Lemma QuiescenceCounts_refl st : QuiescenceCounts st st.
Proof. counts. Qed.

Lemma QuiescenceCounts_trans s1 s2 s3 :
  QuiescenceCounts s1 s2 -> QuiescenceCounts s2 s3 -> QuiescenceCounts s1 s3.
Proof. counts. Qed.

Section OneLevel.
Variable rec : @QSfun Board.
Hypothesis Hrec :
  forall copy plies alpha beta st r st',
    rec copy plies alpha beta st = Some (r, st') -> QuiescenceCounts st st'.

Lemma qsVisit_counts copy plies alpha beta j st fl st' :
  qsVisit rec copy plies alpha beta j st = Some (fl, st') ->
  QuiescenceCounts st st'.
Proof.
  unfold qsVisit.
  destruct (rec copy _ _ _ _) as [[r st1]|] eqn:E; [|discriminate].
  apply Hrec in E.
  destruct (- r >=? beta).
  - destruct (j =? 0); intros [= <- <-]; counts.
  - intros [= <- <-]. counts.
Qed.

Lemma qsLoop_counts skip b color plies beta :
  forall moves alpha score j st fl st',
    qsLoop rec skip b color plies beta moves alpha score j st
    = Some (fl, st') ->
    QuiescenceCounts st st'.
Proof.
  induction moves as [|m moves IH]; intros alpha score j st fl st'; simpl.
  { intros [= <- <-]. apply QuiescenceCounts_refl. }
  destruct (skip m); [apply IH|].
  destruct (doPseudoLegalMove b m color) as [copy|]; [|apply IH].
  destruct (qsVisit rec copy plies alpha beta j st) as [[fl1 st1]|] eqn:E;
    [|discriminate].
  apply qsVisit_counts in E.
  destruct fl1 as [r|[[a s] j']].
  - intros [= <- <-]. exact E.
  - intros E2. apply IH in E2. now apply (QuiescenceCounts_trans _ st1).
Qed.

Lemma qsCaptures_counts b color plies beta standPat :
  forall n i moves scores alpha score j st fl st',
    qsCaptures rec b color plies beta standPat n i moves scores alpha score j
      st = Some (fl, st') ->
    QuiescenceCounts st st'.
Proof.
  induction n as [|n IH]; intros i moves scores alpha score j st fl st'; simpl.
  { intros [= <- <-]. apply QuiescenceCounts_refl. }
  destruct (nextMove moves scores i) as [[m moves'] scores'].
  destruct (m =? NULL_MOVE).
  { intros [= <- <-]. apply QuiescenceCounts_refl. }
  destruct (_ <? _); [apply IH|].
  destruct (_ && _); [apply IH|].
  destruct (doPseudoLegalMove b m color) as [copy|]; [|apply IH].
  destruct (qsVisit rec copy plies alpha beta j st) as [[fl1 st1]|] eqn:E;
    [|discriminate].
  apply qsVisit_counts in E.
  destruct fl1 as [r|[[a s] j']].
  - intros [= <- <-]. exact E.
  - intros E2. apply IH in E2. now apply (QuiescenceCounts_trans _ st1).
Qed.

Lemma checkQuiescence_body_counts ply b plies alpha beta st r st' :
  checkQuiescence_body rec ply b plies alpha beta st = Some (r, st') ->
  QuiescenceCounts st st'.
Proof.
  unfold checkQuiescence_body.
  destruct (qsLoop rec _ b _ _ _ _ _ _ _ _) as [[fl st1]|] eqn:E;
    [|discriminate].
  apply qsLoop_counts in E.
  destruct fl as [r1|[[a s] j]].
  - now intros [= <- <-].
  - destruct (s =? - INFTY); [destruct (_ >=? _)|]; now intros [= <- <-].
Qed.

End OneLevel.

Lemma quiescence_counts fuel ply :
  forall b plies alpha beta st r st',
    quiescence fuel ply b plies alpha beta st = Some (r, st') ->
    QuiescenceCounts st st'.
Proof.
  induction fuel as [|fuel IH]; intros b plies alpha beta st r st';
    [discriminate|].
  simpl.
  destruct (isInCheck b (getPlayerToMove b)).
  { apply checkQuiescence_body_counts. exact IH. }
  destruct (_ >=? _); [intros [= <- <-]; apply QuiescenceCounts_refl|].
  destruct (_ <? _); [intros [= <- <-]; apply QuiescenceCounts_refl|].
  destruct (_ >=? _); [intros [= <- <-]; apply QuiescenceCounts_refl|].
  destruct (_ <? _); [intros [= <- <-]; apply QuiescenceCounts_refl|].
  destruct (qsCaptures _ b _ _ _ _ _ _ _ _ _ _ _ _) as [[fl1 st1]|] eqn:E1;
    [|discriminate].
  apply (qsCaptures_counts _ IH) in E1.
  destruct fl1 as [r1|[[a1 s1] j1]]; [now intros [= <- <-]|].
  destruct (qsLoop _ _ b _ _ _ _ _ _ _ _) as [[fl2 st2]|] eqn:E2;
    [|discriminate].
  apply (qsLoop_counts _ IH) in E2.
  pose proof (QuiescenceCounts_trans _ _ _ E1 E2) as E12.
  destruct fl2 as [r2|[[a2 s2] j2]]; [now intros [= <- <-]|].
  destruct (plies <=? 0); [|now intros [= <- <-]].
  destruct (qsLoop _ _ b _ _ _ _ _ _ _ _) as [[fl3 st3]|] eqn:E3;
    [|discriminate].
  apply qsLoop_counts in E3.
  2:{ intros. eapply checkQuiescence_body_counts; [exact IH|eassumption]. }
  pose proof (QuiescenceCounts_trans _ _ _ E12 E3).
  destruct fl3 as [r3|[[a3 s3] j3]]; now intros [= <- <-].
Qed.

(** X9.  The quiescence search counts nothing but its own nodes: the
    probe, hash-move and fail-high counters of the main search are as they
    were, [nodes] and [qsNodes] grew by the same number, at most one fail
    high was counted per node, and first-move fail highs are among the fail
    highs.  The same holds of [checkQuiescence]. *)
Theorem quiescence_counts_own_nodes fuel ply b plies alpha beta st r st' :
  quiescence fuel ply b plies alpha beta st = Some (r, st') \/
  checkQuiescence fuel ply b plies alpha beta st = Some (r, st') ->
  QuiescenceCounts st st'.
Proof.
  intros [E|E].
  - exact (quiescence_counts _ _ _ _ _ _ _ _ _ E).
  - exact (checkQuiescence_body_counts _ (quiescence_counts fuel ply)
             _ _ _ _ _ _ _ _ E).
Qed.

End QuiescenceCountsFacts.

Section SearchCountsFacts.
Context `{SearchConstants} {Board Hash : Type}
        `{BoardOps Board} `{HashOps Hash Board} `{SearchSpaceOps Board}.

Implicit Type g : Globals Hash.
Implicit Type b copy : Board.

Lemma SearchCounts_refl st : SearchCounts st st.
Proof. counts. Qed.

Lemma SearchCounts_trans s1 s2 s3 :
  SearchCounts s1 s2 -> SearchCounts s2 s3 -> SearchCounts s1 s3.
Proof. counts. Qed.

Lemma QuiescenceCounts_SearchCounts s s' :
  QuiescenceCounts s s' -> SearchCounts s s'.
Proof. counts. Qed.

Lemma searchStats_checkTimeout g :
  searchStats (checkTimeout g) = searchStats g.
Proof. unfold checkTimeout. simpl. now destruct (_ >? _). Qed.

Lemma searchStats_addHistory b color depth m yielded g :
  searchStats (addHistory b color depth m yielded g) = searchStats g.
Proof. reflexivity. Qed.

Lemma searchStats_recordResult b color depth prevAlpha alpha beta toHash
    yielded g :
  searchStats (recordResult b color depth prevAlpha alpha beta toHash yielded g)
  = searchStats g.
Proof.
  unfold recordResult.
  destruct (_ && _); [now destruct (negb _)|now destruct (_ <=? _)].
Qed.

Lemma recordCutoff_counts b color depth m beta movesSearched yielded g :
  SearchCounts (searchStats g)
    (searchStats (recordCutoff b color depth m beta movesSearched yielded g)).
Proof.
  unfold recordCutoff.
  destruct (movesSearched =? 0); destruct (negb (isCapture m));
    rewrite ?searchStats_addHistory; counts.
Qed.

Section OneFrame.
Variable self : @PVSfun Board Hash.
Hypothesis Hself :
  forall b depth alpha beta pv g r b' pv' g',
    self b depth alpha beta pv g = Some (r, b', pv', g') ->
    SearchCounts (searchStats g) (searchStats g').

Lemma searchMove_counts copy depth reduction alpha beta movesSearched line g
    score line' g' :
  searchMove self copy depth reduction alpha beta movesSearched line g
  = Some (score, line', g') ->
  SearchCounts (searchStats g) (searchStats g').
Proof.
  unfold searchMove. destruct (negb _).
  - destruct (self copy _ _ _ _ _) as [[[[r1 c1] l1] g1]|] eqn:E1;
      [|discriminate].
    apply Hself in E1.
    destruct (_ && _).
    + destruct (self c1 _ _ _ _ _) as [[[[r2 c2] l2] g2]|] eqn:E2;
        [|discriminate].
      apply Hself in E2. intros [= <- <- <-]. counts.
    + intros [= <- <- <-]. counts.
  - destruct (self copy _ _ _ _ _) as [[[[r1 c1] l1] g1]|] eqn:E1;
      [|discriminate].
    apply Hself in E1. intros [= <- <- <-]. counts.
Qed.

(** The probe, with the count of the probe that PVS makes before it. *)
Lemma probeTT_counts b hashed depth alpha beta pvLine g hashScore hashed'
    alpha' pvLine' g' :
  probeTT self b hashed depth alpha beta pvLine (stat g inc_hashProbes)
  = Some (hashScore, hashed', alpha', pvLine', g') ->
  SearchCounts (searchStats g) (searchStats g').
Proof.
  unfold probeTT.
  destruct (tt_get _ b) as [entry|]; [|intros [= <- <- <- <- <-]; counts].
  unfold probeEntry.
  destruct (NodeType_eqb (he_nodeType entry) ALL_NODE).
  { destruct (_ && _); intros [= <- <- <- <- <-]; counts. }
  destruct (_ && _); [intros [= <- <- <- <- <-]; counts|].
  destruct (doHashMove b (he_m entry) (getPlayerToMove b)) as [copy|];
    [|intros [= <- <- <- <- <-]; counts].
  destruct (self copy _ _ _ _ _) as [[[[r1 c1] l1] g1]|] eqn:E1;
    [|discriminate].
  apply Hself in E1.
  destruct (- r1 >=? beta); [intros [= <- <- <- <- <-]; counts|].
  destruct (- r1 >? alpha); intros [= <- <- <- <- <-]; counts.
Qed.

Lemma nullMovePruning_counts b depth alpha beta isPVNode inCheck staticEval
    color line g fl b' line' g' :
  nullMovePruning self b depth alpha beta isPVNode inCheck staticEval color
    line g = Some (fl, b', line', g') ->
  SearchCounts (searchStats g) (searchStats g').
Proof.
  unfold nullMovePruning.
  destruct (nullMoveCond _ _ _ _ _ _ _);
    [|intros [= <- <- <- <-]; apply SearchCounts_refl].
  destruct (self _ _ _ _ _ _) as [[[[r1 c1] l1] g1]|] eqn:E1; [|discriminate].
  apply Hself in E1.
  destruct (- r1 >=? beta); intros [= <- <- <- <-]; counts.
Qed.

Lemma moveLoop_counts b color depth beta prevAlpha staticEval isPVNode inCheck :
  forall pending yielded alpha score toHash movesSearched pvLine line g fl
         pv' g',
    moveLoop self b color depth beta prevAlpha staticEval isPVNode inCheck
      pending yielded alpha score toHash movesSearched pvLine line g
    = Some (fl, pv', g') ->
    SearchCounts (searchStats g) (searchStats g').
Proof.
  induction pending as [|m pending IH];
    intros yielded alpha score toHash movesSearched pvLine line g fl pv' g';
    simpl.
  { intros [= <- <- <-]. apply SearchCounts_refl. }
  destruct (m =? NULL_MOVE); [intros [= <- <- <-]; apply SearchCounts_refl|].
  pose proof (searchStats_checkTimeout g) as Hct.
  set (g1 := checkTimeout g) in *.
  destruct (isStop g1).
  { intros [= <- <- <-]. rewrite Hct. apply SearchCounts_refl. }
  destruct (futilityCond _ _ _ _ _ _ _ _).
  { intros E. apply IH in E. now rewrite Hct in E. }
  destruct (doPseudoLegalMove b m color) as [copy|].
  2:{ intros E. apply IH in E. now rewrite Hct in E. }
  destruct (searchMove self _ _ _ _ _ _ _ _) as [[[score' line'] g2]|] eqn:E2;
    [|discriminate].
  apply searchMove_counts in E2.
  assert (H12 : SearchCounts (searchStats g) (searchStats g2)).
  { rewrite <- Hct. clear - E2. counts. }
  destruct (score' >=? beta).
  { intros [= <- <- <-]. eapply SearchCounts_trans; [exact H12|].
    apply recordCutoff_counts. }
  destruct (score' >? alpha); intros E; apply IH in E;
    exact (SearchCounts_trans _ _ _ H12 E).
Qed.

Lemma searchNode_counts b depth prevAlpha alpha beta hashed pvLine g r b'
    pvLine' g' :
  searchNode self b depth prevAlpha alpha beta hashed pvLine g
  = Some (r, b', pvLine', g') ->
  SearchCounts (searchStats g) (searchStats g').
Proof.
  unfold searchNode. cbv zeta.
  destruct (nullMovePruning self _ _ _ _ _ _ _ _ _ _)
    as [[[[fl b1] line1] g1]|] eqn:E1; [|discriminate].
  apply nullMovePruning_counts in E1.
  destruct fl as [r1|[]]; [now intros [= <- <- <- <-]|].
  destruct (reverseFutilityCond _ _ _ _ _ _ _); [now intros [= <- <- <- <-]|].
  destruct (moveLoop self _ _ _ _ _ _ _ _ _ _ _ _ _ _ _ _ _)
    as [[[fl pv2] g2]|] eqn:E2; [|discriminate].
  apply moveLoop_counts in E2.
  pose proof (SearchCounts_trans _ _ _ E1 E2) as E12.
  destruct fl as [r2|[[[a s] t] ys]]; [now intros [= <- <- <- <-]|].
  destruct (s =? - INFTY); intros [= <- <- <- <-];
    rewrite ?searchStats_recordResult; exact E12.
Qed.

Lemma PVS_F_counts (qs : Z -> QSfun) :
  (forall ply b plies alpha beta st r st',
     qs ply b plies alpha beta st = Some (r, st') ->
     QuiescenceCounts st st') ->
  forall b depth alpha beta pv g r b' pv' g',
    PVS_F self qs b depth alpha beta pv g = Some (r, b', pv', g') ->
    SearchCounts (searchStats g) (searchStats g').
Proof.
  intros Hqs b depth alpha beta pv g r b' pv' g'. unfold PVS_F.
  destruct (depth <=? 0).
  { destruct (qs _ _ _ _ _ _) as [[r1 st1]|] eqn:E; [|discriminate].
    apply Hqs in E. intros [= <- <- <- <-]. simpl.
    now apply QuiescenceCounts_SearchCounts. }
  destruct (isDraw b); [intros [= <- <- <- <-]; apply SearchCounts_refl|].
  destruct (probeTT self _ _ _ _ _ _ _)
    as [[[[[hashScore hashed] alpha'] pvLine'] g1]|] eqn:E1; [|discriminate].
  apply probeTT_counts in E1.
  destruct (negb _); [now intros [= <- <- <- <-]|].
  intros E2. apply searchNode_counts in E2.
  exact (SearchCounts_trans _ _ _ E1 E2).
Qed.

End OneFrame.

Lemma PVS_counts_all fuel :
  forall b depth alpha beta pv g r b' pv' g',
    PVS fuel b depth alpha beta pv g = Some (r, b', pv', g') ->
    SearchCounts (searchStats g) (searchStats g').
Proof.
  induction fuel as [|fuel IH]; [discriminate|].
  change (PVS (S fuel)) with (PVS_F (PVS fuel) (quiescence (S fuel))).
  apply PVS_F_counts; [exact IH|].
  intros ply. apply quiescence_counts.
Qed.

(** X10.  What PVS counts is consistent: from entry to return no counter
    falls; hash hits are among the probes, score cuts and hash-move
    attempts are distinct hits, hash-move cuts are among the attempts,
    first-move fail highs among the fail highs, and quiescence nodes among
    the nodes. *)
Theorem PVS_counts fuel b depth alpha beta pv g r b' pv' g' :
  PVS fuel b depth alpha beta pv g = Some (r, b', pv', g') ->
  SearchCounts (searchStats g) (searchStats g').
Proof. apply PVS_counts_all. Qed.

End SearchCountsFacts.

(** ** The statistics printed *)
Section Percentages.

Lemma tenThousandths_percent numerator denominator :
  0 <= numerator <= denominator ->
  numerator * 10000 < 2 ^ 64 ->
  0 <= tenThousandths numerator denominator <= 10000.
Proof.
  intros Hn Hw. unfold tenThousandths, wrap64.
  destruct (Z.eqb_spec denominator 0) as [->|Hd]; [lia|].
  rewrite Z.mod_small by lia.
  split; [apply Z.div_pos; lia|apply Z.div_le_upper_bound; lia].
Qed.

(** X11.  For a numerator no larger than the denominator, and a product
    below [2^64], [getPercentage] computes a rate between 0 and 10000
    hundredths of a percent, the fraction rounded down; a zero
    denominator gives 0. *)
Theorem tenThousandths_range numerator denominator :
  0 <= numerator <= denominator ->
  numerator * 10000 < 2 ^ 64 ->
  0 <= tenThousandths numerator denominator <= 10000 /\
  (denominator = 0 -> tenThousandths numerator denominator = 0) /\
  (denominator <> 0 ->
   tenThousandths numerator denominator * denominator <= numerator * 10000
     < (tenThousandths numerator denominator + 1) * denominator).
Proof.
  intros Hn Hw. split; [now apply tenThousandths_percent|].
  unfold tenThousandths, wrap64.
  destruct (Z.eqb_spec denominator 0) as [->|Hd].
  { split; [reflexivity|]. intros []. reflexivity. }
  rewrite Z.mod_small by lia.
  assert (Hpos : 0 < denominator) by lia.
  pose proof (Z.mul_div_le (numerator * 10000) denominator Hpos).
  pose proof (Z.mul_succ_div_gt (numerator * 10000) denominator Hpos).
  split; [lia|intros _; lia].
Qed.

(** X12.  Statistics that grew from the reset state as the search counts
    print as percentages: with fewer than [2^64 / 10000] nodes, probes and
    fail highs counted, each of the six rates of [printStatistics] lies
    between 0 and 100 percent, and no count printed is negative. *)
Theorem printStatistics_percentages s :
  SearchCounts resetStats s ->
  nodes s * 10000 < 2 ^ 64 ->
  hashProbes s * 10000 < 2 ^ 64 ->
  failHighs s * 10000 < 2 ^ 64 ->
  Forall (fun line => 0 <= fst line <= 10000 /\ 0 <= snd line)
         (printStatistics s).
Proof.
  intros Hs Hn Hp Hf. unfold SearchCounts in Hs. simpl in Hs.
  unfold printStatistics.
  repeat (apply Forall_cons; split;
          [split; [apply tenThousandths_percent|]; simpl; lia|]).
  apply Forall_nil. exact I.
Qed.

End Percentages.

(** ** The line as an array *)
Section LineFacts.
Context `{SearchConstants}.

Lemma copyLine_length child :
  forall n i parent, length (Line.copyLine child n i parent) = length parent.
Proof.
  induction n as [|n IH]; intros i parent; simpl; [reflexivity|].
  rewrite IH. apply length_insert.
Qed.

Lemma copyLine_lookup child :
  forall n i parent k,
    (i + n <= length child)%nat -> (i + n < length parent)%nat ->
    Line.copyLine child n i parent !! k
    = if decide (i < k <= i + n)%nat then child !! (k - 1)%nat
      else parent !! k.
Proof.
  induction n as [|n IH]; intros i parent k Hc Hp; simpl.
  { destruct (decide _); [lia|reflexivity]. }
  rewrite IH by (rewrite ?length_insert; lia).
  destruct (decide (S i < k <= S i + n)%nat).
  { destruct (decide _); [reflexivity|lia]. }
  destruct (decide (k = S i)) as [->|Hk].
  - rewrite list_lookup_insert_eq by lia.
    destruct (decide _); [|lia].
    replace (S i - 1)%nat with i by lia.
    destruct (lookup_lt_is_Some_2 child i ltac:(lia)) as [x Hx].
    rewrite Hx. f_equal. now apply get_lookup.
  - rewrite list_lookup_insert_ne by lia.
    destruct (decide _); [lia|reflexivity].
Qed.

(** X13.  [changePV] on the arrays is [changePV] on the lines: when the
    child's line fits its array and the parent's array has room for one
    move more, the parent's line becomes the move followed by the child's
    line; the parent's array keeps its size, and its entries past the new
    line are as they were. *)
Theorem changePV_array_line best parent child :
  0 <= Line.pvLength child ->
  Line.pvLength child <= Z.of_nat (length (Line.pv child)) ->
  Line.pvLength child < Z.of_nat (length (Line.pv parent)) ->
  Line.visible (Line.changePV best parent child)
  = changePV best (Line.visible child) /\
  length (Line.pv (Line.changePV best parent child))
  = length (Line.pv parent) /\
  forall k, (Z.to_nat (Line.pvLength child) < k)%nat ->
    Line.pv (Line.changePV best parent child) !! k = Line.pv parent !! k.
Proof.
  intros H0 Hc Hp. unfold Line.visible, Line.changePV, changePV. simpl.
  set (n := Z.to_nat (Line.pvLength child)).
  assert (Hn : Z.to_nat (Line.pvLength child + 1) = S n) by lia.
  assert (Hlook : forall k,
    Line.copyLine (Line.pv child) n 0 (<[0%nat:=best]> (Line.pv parent)) !! k
    = if decide (0 < k <= n)%nat then Line.pv child !! (k - 1)%nat
      else <[0%nat:=best]> (Line.pv parent) !! k).
  { intros k. rewrite copyLine_lookup by (rewrite ?length_insert; lia).
    reflexivity. }
  split; [|split].
  - rewrite Hn. apply list_eq. intros k. rewrite lookup_take.
    destruct (decide (k < S n)%nat) as [Hk|Hk].
    + rewrite Hlook.
      destruct k as [|k]; simpl.
      * rewrite list_lookup_insert_eq by lia. reflexivity.
      * destruct (decide _); [|lia]. rewrite lookup_take.
        destruct (decide _); [|lia]. now rewrite Nat.sub_0_r.
    + destruct k as [|k]; [lia|]. simpl. rewrite lookup_take.
      destruct (decide _); [lia|reflexivity].
  - rewrite copyLine_length. apply length_insert.
  - intros k Hk. rewrite Hlook. destruct (decide _); [lia|].
    apply list_lookup_insert_ne. lia.
Qed.

End LineFacts.

Section RetrieveFacts.
Context `{SearchConstants}.
Variable moveToString : Move -> String.string.

Lemma append_assoc (s1 s2 s3 : String.string) :
  String.append (String.append s1 s2) s3
  = String.append s1 (String.append s2 s3).
Proof. induction s1 as [|c s1 IH]; simpl; [reflexivity|now rewrite IH]. Qed.

Lemma append_empty_r (s : String.string) :
  String.append s String.EmptyString = s.
Proof. induction s as [|c s IH]; simpl; [reflexivity|now rewrite IH]. Qed.

Lemma concat_cons (x : String.string) (l : list String.string) :
  String.concat Line.space (x :: l)
  = String.append x
      (fold_right (fun y acc => String.append Line.space (String.append y acc))
                  String.EmptyString l).
Proof.
  revert x. induction l as [|y l IH]; intros x.
  - simpl. now rewrite append_empty_r.
  - change (String.concat Line.space (x :: y :: l))
      with (String.append x
              (String.append Line.space
                 (String.concat Line.space (y :: l)))).
    now rewrite IH.
Qed.

Lemma appendMoves_spec moves :
  forall n i pvStr,
    (i + n <= length moves)%nat ->
    Line.appendMoves moveToString moves n i pvStr
    = String.append pvStr
        (fold_right
           (fun y acc => String.append Line.space (String.append y acc))
           String.EmptyString
           (map moveToString (take n (drop i moves)))).
Proof.
  induction n as [|n IH]; intros i pvStr Hlen; simpl.
  { now rewrite append_empty_r. }
  rewrite IH by lia.
  destruct (lookup_lt_is_Some_2 moves i ltac:(lia)) as [x Hx].
  rewrite (drop_S _ _ _ Hx). simpl. rewrite (get_lookup _ _ _ Hx).
  now rewrite !append_assoc.
Qed.

(** X14.  [retrievePV] prints the moves of a line of at least one move
    that fits the array, in order, separated by single spaces.  For a line
    of no move it prints [pv[0]] all the same. *)
Theorem retrievePV_line (pvLine : Line.SearchPV) :
  Line.pvLength pvLine <= Z.of_nat (length (Line.pv pvLine)) ->
  (1 <= Line.pvLength pvLine ->
   Line.retrievePV moveToString pvLine
   = String.concat Line.space (map moveToString (Line.visible pvLine))) /\
  (Line.pvLength pvLine <= 1 ->
   Line.retrievePV moveToString pvLine
   = moveToString (get (Line.pv pvLine) 0)).
Proof.
  intros Hlen. unfold Line.retrievePV, Line.visible. split.
  - intros H1.
    rewrite appendMoves_spec by lia.
    destruct (Line.pv pvLine) as [|m moves] eqn:E; [simpl in Hlen; lia|].
    replace (Z.to_nat (Line.pvLength pvLine))
      with (S (Z.to_nat (Line.pvLength pvLine - 1))) by lia.
    simpl take. simpl map. rewrite concat_cons. reflexivity.
  - intros H1. replace (Z.to_nat (Line.pvLength pvLine - 1)) with 0%nat by lia.
    reflexivity.
Qed.

End RetrieveFacts.

(** ** The length of the principal variation *)
Section LineLength.
Context `{SearchConstants} {Board Hash : Type}
        `{BoardOps Board} `{HashOps Hash Board} `{SearchSpaceOps Board}.
Hypothesis Hpawn : 0 < PAWN_VALUE.

Implicit Type g : Globals Hash.
Implicit Type b copy : Board.

Section OneFrame.
Variable self : @PVSfun Board Hash.
Hypothesis Hself :
  forall b depth alpha beta pv g r b' pv' g',
    self b depth alpha beta pv g = Some (r, b', pv', g') ->
    (length pv' <= Nat.max (length pv) (Z.to_nat depth))%nat.

Lemma searchMove_line copy depth reduction alpha beta movesSearched line g
    score line' g' :
  0 <= reduction ->
  searchMove self copy depth reduction alpha beta movesSearched line g
  = Some (score, line', g') ->
  (length line' <= Nat.max (length line) (Z.to_nat (depth - 1)))%nat.
Proof.
  intros Hred. unfold searchMove. destruct (negb _).
  - destruct (self copy _ _ _ _ _) as [[[[r1 c1] l1] g1]|] eqn:E1;
      [|discriminate].
    apply Hself in E1.
    destruct (_ && _).
    + destruct (self c1 _ _ _ _ _) as [[[[r2 c2] l2] g2]|] eqn:E2;
        [|discriminate].
      apply Hself in E2. intros [= <- <- <-]. lia.
    + intros [= <- <- <-]. lia.
  - destruct (self copy _ _ _ _ _) as [[[[r1 c1] l1] g1]|] eqn:E1;
      [|discriminate].
    apply Hself in E1. intros [= <- <- <-]. lia.
Qed.

Lemma probeTT_line b hashed depth alpha beta pvLine g hashScore hashed'
    alpha' pvLine' g' :
  1 <= depth ->
  probeTT self b hashed depth alpha beta pvLine g
  = Some (hashScore, hashed', alpha', pvLine', g') ->
  (length pvLine' <= Nat.max (length pvLine) (Z.to_nat depth))%nat.
Proof.
  intros Hd. unfold probeTT.
  destruct (tt_get _ b) as [entry|]; [|intros [= <- <- <- <- <-]; lia].
  unfold probeEntry.
  destruct (NodeType_eqb (he_nodeType entry) ALL_NODE).
  { destruct (_ && _); intros [= <- <- <- <- <-]; lia. }
  destruct (_ && _); [intros [= <- <- <- <- <-]; lia|].
  destruct (doHashMove b (he_m entry) (getPlayerToMove b)) as [copy|];
    [|intros [= <- <- <- <- <-]; lia].
  destruct (self copy _ _ _ _ _) as [[[[r1 c1] l1] g1]|] eqn:E1;
    [|discriminate].
  apply Hself in E1. simpl in E1.
  destruct (- r1 >=? beta); [intros [= <- <- <- <- <-]; lia|].
  destruct (- r1 >? alpha); intros [= <- <- <- <- <-];
    unfold changePV; simpl; lia.
Qed.

Lemma nullMovePruning_line b depth alpha beta isPVNode inCheck staticEval
    color line g fl b' line' g' :
  nullMovePruning self b depth alpha beta isPVNode inCheck staticEval color
    line g = Some (fl, b', line', g') ->
  (length line' <= Nat.max (length line) (Z.to_nat (depth - 1)))%nat.
Proof.
  unfold nullMovePruning.
  destruct (nullMoveCond _ _ _ _ _ _ _) eqn:Hcond;
    [|intros [= <- <- <- <-]; lia].
  unfold nullMoveCond in Hcond.
  do 5 (apply andb_true_iff in Hcond; destruct Hcond as [Hcond ?]).
  assert (Hred : 0 <= nullMoveReduction depth staticEval beta)
    by (apply nullMoveReduction_nonneg; [assumption|lia|lia]).
  destruct (self _ _ _ _ _ _) as [[[[r1 c1] l1] g1]|] eqn:E1; [|discriminate].
  apply Hself in E1.
  destruct (- r1 >=? beta); intros [= <- <- <- <-]; lia.
Qed.

Lemma moveLoop_line b color depth beta prevAlpha staticEval isPVNode inCheck :
  1 <= depth ->
  forall pending yielded alpha score toHash movesSearched pvLine line g fl
         pvLine' g',
    (length line <= Z.to_nat (depth - 1))%nat ->
    moveLoop self b color depth beta prevAlpha staticEval isPVNode inCheck
      pending yielded alpha score toHash movesSearched pvLine line g
    = Some (fl, pvLine', g') ->
    (length pvLine' <= Nat.max (length pvLine) (Z.to_nat depth))%nat.
Proof.
  intros Hd.
  induction pending as [|m pending IH];
    intros yielded alpha score toHash movesSearched pvLine line g fl pvLine'
           g' Hline; simpl.
  { intros [= <- <- <-]. lia. }
  destruct (m =? NULL_MOVE); [intros [= <- <- <-]; lia|].
  destruct (isStop (checkTimeout g)); [intros [= <- <- <-]; lia|].
  destruct (futilityCond _ _ _ _ _ _ _ _); [now apply IH|].
  destruct (doPseudoLegalMove b m color) as [copy|]; [|now apply IH].
  destruct (searchMove self _ _ _ _ _ _ _ _) as [[[score' line'] g2]|] eqn:E2;
    [|discriminate].
  apply searchMove_line in E2; [|apply lateMoveReduction_nonneg].
  assert (Hline' : (length line' <= Z.to_nat (depth - 1))%nat) by lia.
  destruct (score' >=? beta); [intros [= <- <- <-]; lia|].
  destruct (score' >? alpha); intros E; apply IH in E; try exact Hline'.
  - unfold changePV in E. simpl in E. lia.
  - exact E.
Qed.

Lemma searchNode_line b depth prevAlpha alpha beta hashed pvLine g r b'
    pvLine' g' :
  1 <= depth ->
  searchNode self b depth prevAlpha alpha beta hashed pvLine g
  = Some (r, b', pvLine', g') ->
  (length pvLine' <= Nat.max (length pvLine) (Z.to_nat depth))%nat.
Proof.
  intros Hd. unfold searchNode. cbv zeta.
  destruct (nullMovePruning self _ _ _ _ _ _ _ _ _ _)
    as [[[[fl b1] line1] g1]|] eqn:E1; [|discriminate].
  apply nullMovePruning_line in E1. simpl in E1.
  destruct fl as [r1|[]]; [intros [= <- <- <- <-]; lia|].
  destruct (reverseFutilityCond _ _ _ _ _ _ _);
    [intros [= <- <- <- <-]; lia|].
  destruct (moveLoop self _ _ _ _ _ _ _ _ _ _ _ _ _ _ _ _ _)
    as [[[fl pv2] g2]|] eqn:E2; [|discriminate].
  apply moveLoop_line in E2; [|exact Hd|lia].
  destruct fl as [r2|[[[a s] t] ys]]; [intros [= <- <- <- <-]; exact E2|].
  destruct (s =? - INFTY); intros [= <- <- <- <-]; exact E2.
Qed.

Lemma PVS_F_line (qs : Z -> QSfun) :
  forall b depth alpha beta pv g r b' pv' g',
    PVS_F self qs b depth alpha beta pv g = Some (r, b', pv', g') ->
    (length pv' <= Nat.max (length pv) (Z.to_nat depth))%nat.
Proof.
  intros b depth alpha beta pv g r b' pv' g'. unfold PVS_F.
  destruct (Z.leb_spec depth 0).
  { destruct (qs _ _ _ _ _ _) as [[r1 st1]|]; [|discriminate].
    intros [= <- <- <- <-]. simpl. lia. }
  destruct (isDraw b); [intros [= <- <- <- <-]; lia|].
  destruct (probeTT self _ _ _ _ _ _ _)
    as [[[[[hashScore hashed] alpha'] pvLine'] g1]|] eqn:E1; [|discriminate].
  apply probeTT_line in E1; [|lia].
  destruct (negb _); [intros [= <- <- <- <-]; exact E1|].
  intros E2. apply searchNode_line in E2; lia.
Qed.

End OneFrame.

Lemma PVS_line fuel :
  forall b depth alpha beta pv g r b' pv' g',
    PVS fuel b depth alpha beta pv g = Some (r, b', pv', g') ->
    (length pv' <= Nat.max (length pv) (Z.to_nat depth))%nat.
Proof.
  induction fuel as [|fuel IH]; [discriminate|].
  change (PVS (S fuel)) with (PVS_F (PVS fuel) (quiescence (S fuel))).
  apply PVS_F_line. exact IH.
Qed.

(** X15.  With a positive pawn value (the null-move reduction is then
    not negative), the line PVS leaves behind [pvLine], on every exit,
    the early returns of beta and of the stop sentinel included, is no
    longer than the longer of the line it was given and [depth]: a search
    of depth [depth] writes no line of more than [depth] moves. *)
Theorem PVS_line_length fuel b depth alpha beta pv g r b' pv' g' :
  PVS fuel b depth alpha beta pv g = Some (r, b', pv', g') ->
  (length pv' <= Nat.max (length pv) (Z.to_nat depth))%nat.
Proof. apply PVS_line. Qed.

End LineLength.

(** ** The board that PVS hands back *)
Section BoardBack.
Context `{SearchConstants} {Board Hash : Type}
        `{BoardOps Board} `{HashOps Hash Board} `{SearchSpaceOps Board}.
Hypothesis Hundo : forall b : Board, doNullMove (doNullMove b) = b.

Implicit Type g : Globals Hash.
Implicit Type b : Board.

Section OneFrame.
Variable self : @PVSfun Board Hash.
Hypothesis Hself :
  forall b depth alpha beta pv g r b' pv' g',
    self b depth alpha beta pv g = Some (r, b', pv', g') -> b' = b.

Lemma nullMovePruning_board b depth alpha beta isPVNode inCheck staticEval
    color line g fl b' line' g' :
  nullMovePruning self b depth alpha beta isPVNode inCheck staticEval color
    line g = Some (fl, b', line', g') ->
  b' = b.
Proof.
  unfold nullMovePruning.
  destruct (nullMoveCond _ _ _ _ _ _ _); [|now intros [= <- <- <- <-]].
  destruct (self _ _ _ _ _ _) as [[[[r1 b1] l1] g1]|] eqn:E1; [|discriminate].
  apply Hself in E1. subst b1.
  destruct (- r1 >=? beta); intros [= <- <- <- <-]; apply Hundo.
Qed.

Lemma searchNode_board b depth prevAlpha alpha beta hashed pvLine g r b'
    pvLine' g' :
  searchNode self b depth prevAlpha alpha beta hashed pvLine g
  = Some (r, b', pvLine', g') ->
  b' = b.
Proof.
  unfold searchNode. cbv zeta.
  destruct (nullMovePruning self _ _ _ _ _ _ _ _ _ _)
    as [[[[fl b1] line1] g1]|] eqn:E1; [|discriminate].
  apply nullMovePruning_board in E1. subst b1.
  destruct fl as [r1|[]]; [now intros [= <- <- <- <-]|].
  destruct (reverseFutilityCond _ _ _ _ _ _ _); [now intros [= <- <- <- <-]|].
  destruct (moveLoop self _ _ _ _ _ _ _ _ _ _ _ _ _ _ _ _ _)
    as [[[fl pv2] g2]|]; [|discriminate].
  destruct fl as [r2|[[[a s] t] ys]]; [now intros [= <- <- <- <-]|].
  destruct (s =? - INFTY); now intros [= <- <- <- <-].
Qed.

Lemma PVS_F_board (qs : Z -> QSfun) :
  forall b depth alpha beta pv g r b' pv' g',
    PVS_F self qs b depth alpha beta pv g = Some (r, b', pv', g') -> b' = b.
Proof.
  intros b depth alpha beta pv g r b' pv' g'. unfold PVS_F.
  destruct (depth <=? 0).
  { destruct (qs _ _ _ _ _ _) as [[r1 st1]|]; [|discriminate].
    now intros [= <- <- <- <-]. }
  destruct (isDraw b); [now intros [= <- <- <- <-]|].
  destruct (probeTT self _ _ _ _ _ _ _)
    as [[[[[hashScore hashed] alpha'] pvLine'] g1]|]; [|discriminate].
  destruct (negb _); [now intros [= <- <- <- <-]|].
  apply searchNode_board.
Qed.

End OneFrame.

Lemma PVS_board fuel :
  forall b depth alpha beta pv g r b' pv' g',
    PVS fuel b depth alpha beta pv g = Some (r, b', pv', g') -> b' = b.
Proof.
  induction fuel as [|fuel IH]; [discriminate|].
  change (PVS (S fuel)) with (PVS_F (PVS fuel) (quiescence (S fuel))).
  apply PVS_F_board. exact IH.
Qed.

(** X23.  PVS hands back the board it was given: if undoing a null move
    by a second null move gives the position back, as the null-move block
    relies on, the board that PVS received by reference is unchanged when
    it returns, whatever null moves were tried below. *)
Theorem PVS_keeps_board fuel b depth alpha beta pv g r b' pv' g' :
  PVS fuel b depth alpha beta pv g = Some (r, b', pv', g') -> b' = b.
Proof. intros E. exact (PVS_board fuel _ _ _ _ _ _ _ _ _ _ E). Qed.

End BoardBack.

(** ** The root of the search *)
Section RootFacts.
Context `{SearchConstants} {Board Hash : Type}
        `{BoardOps Board} `{HashOps Hash Board} `{SearchSpaceOps Board}
        `{RootOps Board}.

Implicit Type g : Globals Hash.
Implicit Type b copy : Board.

Section Returns.
Variable qrank : Board -> nat.
Hypothesis Hrank : quiescenceRank qrank.
Hypothesis Hpawn : 0 < PAWN_VALUE.
Variable K : Z.
Hypothesis HK : 2 <= K.
Variable fuel : nat.
Variable b : Board.
Variable depth : Z.
Hypothesis Hdepth : 1 <= depth.
Hypothesis Hfuel : (Z.to_nat depth + qrank b <= fuel)%nat.

(** The search of a root move on a board no higher than the root. *)
Lemma rootSearch_spec copy alpha beta i line g :
  (qrank copy <= qrank b)%nat ->
  nullMoveCount (searchParams g) <= K ->
  (length line <= Z.to_nat (depth - 1))%nat ->
  exists score line' g',
    rootSearch (PVS fuel) copy depth alpha beta i line g
    = Some (score, line', g') /\
    Restores g g' /\
    SearchCounts (searchStats g) (searchStats g') /\
    (length line' <= Z.to_nat (depth - 1))%nat.
Proof.
  intros Hc Hcount Hline. rewrite rootSearch_searchMove.
  destruct (searchMove_spec qrank K fuel (PVS fuel)
              (PVS_spec qrank Hrank Hpawn K HK fuel)
              b copy depth 0 alpha beta (Z.of_nat i) line g)
    as (score & line' & g' & E & HR); try assumption; [lia|].
  exists score, line', g'. split; [exact E|]. split; [exact HR|]. split.
  - exact (searchMove_counts _ (PVS_counts_all fuel) _ _ _ _ _ _ _ _ _ _ _ E).
  - pose proof (searchMove_line _ (PVS_line Hpawn fuel) _ _ _ _ _ _ _ _ _ _ _
                  (Z.le_refl 0) E).
    lia.
Qed.

Lemma rootLoop_spec color legalMoves :
  (forall m, (qrank (doMove b m color) <= qrank b)%nat) ->
  forall n i tempMove alpha beta bestScore pvLine line g,
    nullMoveCount (searchParams g) <= K ->
    (length line <= Z.to_nat (depth - 1))%nat ->
    exists t bs pv' g',
      rootLoop (PVS fuel) b color depth legalMoves n i tempMove alpha beta
        bestScore pvLine line g = Some (t, bs, pv', g') /\
      Restores g g' /\
      SearchCounts (searchStats g) (searchStats g') /\
      ((t = tempMove /\ pv' = pvLine /\ (isStop g' = false -> bs = alpha)) \/
       (exists j l,
          (i <= j < i + n)%nat /\ t = Z.of_nat j /\
          pv' = get legalMoves j :: l /\
          (length l <= Z.to_nat (depth - 1))%nat /\
          (isStop g' = false -> alpha < bs))).
Proof.
  intros Hmove.
  induction n as [|n IH];
    intros i tempMove alpha beta bestScore pvLine line g Hcount Hline; simpl.
  { eexists _, _, _, _. split; [reflexivity|].
    split; [apply Restores_refl|]. split; [apply SearchCounts_refl|].
    left. auto. }
  destruct (isStop g) eqn:Hstop.
  { eexists _, _, _, _. split; [reflexivity|].
    split; [apply Restores_refl|]. split; [apply SearchCounts_refl|].
    left. split; [reflexivity|]. split; [reflexivity|]. congruence. }
  destruct (rootSearch_spec (doMove b (get legalMoves i) color) alpha beta i
              line (stat g inc_nodes) (Hmove _) Hcount Hline)
    as (score & line' & g1 & -> & HR1 & HC1 & Hline1).
  assert (HR : Restores g g1).
  { apply (Restores_trans _ (stat g inc_nodes)); [apply Restores_stat|].
    exact HR1. }
  assert (HC : SearchCounts (searchStats g) (searchStats g1))
    by (clear - HC1; counts).
  assert (Hcount1 : nullMoveCount (searchParams g1) <= K).
  { destruct HR as (Hn & _). lia. }
  destruct (Z.gtb_spec score alpha) as [Hgt|Hle].
  - destruct (IH (S i) (Z.of_nat i) score beta bestScore
                (changePV (get legalMoves i) line') line' g1 Hcount1 Hline1)
      as (t & bs & pv' & g' & -> & HR' & HC' & Hpost).
    exists t, bs, pv', g'. split; [reflexivity|].
    split; [exact (Restores_trans _ _ _ HR HR')|].
    split; [exact (SearchCounts_trans _ _ _ HC HC')|].
    right.
    destruct Hpost as [(-> & -> & Hbs)|(j & l & Hj & -> & -> & Hl & Hbs)].
    + exists i, line'. split; [lia|]. split; [reflexivity|].
      split; [reflexivity|]. split; [exact Hline1|].
      intros Hs. rewrite (Hbs Hs). exact Hgt.
    + exists j, l. split; [lia|]. split; [reflexivity|].
      split; [reflexivity|]. split; [exact Hl|].
      intros Hs. specialize (Hbs Hs). lia.
  - destruct (IH (S i) tempMove alpha beta bestScore pvLine line' g1 Hcount1
                Hline1)
      as (t & bs & pv' & g' & -> & HR' & HC' & Hpost).
    exists t, bs, pv', g'. split; [reflexivity|].
    split; [exact (Restores_trans _ _ _ HR HR')|].
    split; [exact (SearchCounts_trans _ _ _ HC HC')|].
    destruct Hpost as [Hpost|(j & l & Hj & Hpost)]; [left; exact Hpost|].
    right. exists j, l. split; [lia|exact Hpost].
Qed.

Lemma sortLoop_spec color legalMoves :
  forall n i tempMove alpha beta line g,
    nullMoveCount (searchParams g) <= K ->
    (length line <= Z.to_nat (depth - 1))%nat ->
    exists t g',
      sortLoop (PVS fuel) b color depth legalMoves n i tempMove alpha beta
        line g = Some (t, g') /\
      Restores g g' /\
      SearchCounts (searchStats g) (searchStats g') /\
      (t = tempMove \/
       exists j copy,
         (i <= j < i + n)%nat /\ t = Z.of_nat j /\
         doPseudoLegalMove b (get legalMoves j) color = Some copy).
Proof.
  induction n as [|n IH];
    intros i tempMove alpha beta line g Hcount Hline; simpl.
  { eexists _, _. split; [reflexivity|].
    split; [apply Restores_refl|]. split; [apply SearchCounts_refl|].
    now left. }
  destruct (doPseudoLegalMove b (get legalMoves i) color) as [copy|] eqn:Hplay.
  2:{ destruct (IH (S i) tempMove alpha beta line g Hcount Hline)
        as (t & g' & -> & HR' & HC' & Hpost).
      exists t, g'. split; [reflexivity|]. split; [exact HR'|].
      split; [exact HC'|].
      destruct Hpost as [Hpost|(j & c & Hj & Hpost)]; [now left|].
      right. exists j, c. split; [lia|exact Hpost]. }
  assert (Hc : (qrank copy <= qrank b)%nat).
  { destruct Hrank as (Hr & _). exact (Hr _ _ _ _ Hplay). }
  destruct (rootSearch_spec copy alpha beta i line g Hc Hcount Hline)
    as (score & line' & g1 & -> & HR & HC & Hline1).
  assert (Hcount1 : nullMoveCount (searchParams g1) <= K).
  { destruct HR as (Hn & _). lia. }
  destruct (score >? alpha).
  - destruct (IH (S i) (Z.of_nat i) score beta line' g1 Hcount1 Hline1)
      as (t & g' & -> & HR' & HC' & Hpost).
    exists t, g'. split; [reflexivity|].
    split; [exact (Restores_trans _ _ _ HR HR')|].
    split; [exact (SearchCounts_trans _ _ _ HC HC')|].
    right. destruct Hpost as [->|(j & c & Hj & Hpost)].
    + exists i, copy. split; [lia|]. split; [reflexivity|exact Hplay].
    + exists j, c. split; [lia|exact Hpost].
  - destruct (IH (S i) tempMove alpha beta line' g1 Hcount1 Hline1)
      as (t & g' & -> & HR' & HC' & Hpost).
    exists t, g'. split; [reflexivity|].
    split; [exact (Restores_trans _ _ _ HR HR')|].
    split; [exact (SearchCounts_trans _ _ _ HC HC')|].
    destruct Hpost as [Hpost|(j & c & Hj & Hpost)]; [now left|].
    right. exists j, c. split; [lia|exact Hpost].
Qed.

End Returns.

(** Whatever the searches at the root return. *)
Section Whatever.
Variable fuel : nat.
Variable b : Board.
Variable depth : Z.

Lemma rootSearch_post copy alpha beta i line g score line' g' :
  rootSearch (PVS fuel) copy depth alpha beta i line g
  = Some (score, line', g') ->
  Restores g g' /\
  SearchCounts (searchStats g) (searchStats g') /\
  (0 < PAWN_VALUE ->
   (length line' <= Nat.max (length line) (Z.to_nat (depth - 1)))%nat).
Proof.
  rewrite rootSearch_searchMove. intros E.
  destruct (searchMove_agree (Z.max 2 (nullMoveCount (searchParams g)))
              (PVS fuel) (PVS fuel) (PVS_agree _ (Z.le_max_l 2 _) fuel)
              copy depth 0 alpha beta (Z.of_nat i) line g score line' g'
              (Z.le_max_r 2 _) E) as (_ & HR).
  split; [exact HR|]. split.
  - exact (searchMove_counts _ (PVS_counts_all fuel) _ _ _ _ _ _ _ _ _ _ _ E).
  - intros Hpawn.
    exact (searchMove_line _ (PVS_line Hpawn fuel) _ _ _ _ _ _ _ _ _ _ _
             (Z.le_refl 0) E).
Qed.

Lemma rootLoop_post color legalMoves :
  forall n i tempMove alpha beta bestScore pvLine line g t bs pv' g',
    (0 < PAWN_VALUE -> (length line <= Z.to_nat (depth - 1))%nat) ->
    rootLoop (PVS fuel) b color depth legalMoves n i tempMove alpha beta
      bestScore pvLine line g = Some (t, bs, pv', g') ->
    Restores g g' /\
    SearchCounts (searchStats g) (searchStats g') /\
    ((t = tempMove /\ pv' = pvLine /\ (isStop g' = false -> bs = alpha)) \/
     (exists j l,
        (i <= j < i + n)%nat /\ t = Z.of_nat j /\
        pv' = get legalMoves j :: l /\
        (0 < PAWN_VALUE -> (length l <= Z.to_nat (depth - 1))%nat) /\
        (isStop g' = false -> alpha < bs))).
Proof.
  induction n as [|n IH];
    intros i tempMove alpha beta bestScore pvLine line g t bs pv' g' Hline;
    simpl.
  { intros [= <- <- <- <-]. split; [apply Restores_refl|].
    split; [apply SearchCounts_refl|]. left. auto. }
  destruct (isStop g) eqn:Hstop.
  { intros [= <- <- <- <-]. split; [apply Restores_refl|].
    split; [apply SearchCounts_refl|]. left.
    split; [reflexivity|]. split; [reflexivity|]. congruence. }
  destruct (rootSearch (PVS fuel) _ _ _ _ _ _ _)
    as [[[score line'] g1]|] eqn:E1; [|discriminate].
  destruct (rootSearch_post _ _ _ _ _ _ _ _ _ E1) as (HR1 & HC1 & Hl1).
  assert (HR : Restores g g1).
  { apply (Restores_trans _ (stat g inc_nodes)); [apply Restores_stat|].
    exact HR1. }
  assert (HC : SearchCounts (searchStats g) (searchStats g1))
    by (clear - HC1; counts).
  assert (Hline1 : 0 < PAWN_VALUE ->
                   (length line' <= Z.to_nat (depth - 1))%nat).
  { intros Hpawn. specialize (Hl1 Hpawn). specialize (Hline Hpawn). lia. }
  destruct (Z.gtb_spec score alpha) as [Hgt|Hle]; intros E.
  - destruct (IH _ _ _ _ _ _ _ _ _ _ _ _ Hline1 E) as (HR' & HC' & Hpost).
    split; [exact (Restores_trans _ _ _ HR HR')|].
    split; [exact (SearchCounts_trans _ _ _ HC HC')|].
    right.
    destruct Hpost as [(-> & -> & Hbs)|(j & l & Hj & -> & -> & Hl & Hbs)].
    + exists i, line'. split; [lia|]. split; [reflexivity|].
      split; [reflexivity|]. split; [exact Hline1|].
      intros Hs. rewrite (Hbs Hs). exact Hgt.
    + exists j, l. split; [lia|]. split; [reflexivity|].
      split; [reflexivity|]. split; [exact Hl|].
      intros Hs. specialize (Hbs Hs). lia.
  - destruct (IH _ _ _ _ _ _ _ _ _ _ _ _ Hline1 E) as (HR' & HC' & Hpost).
    split; [exact (Restores_trans _ _ _ HR HR')|].
    split; [exact (SearchCounts_trans _ _ _ HC HC')|].
    destruct Hpost as [Hpost|(j & l & Hj & Hpost)]; [left; exact Hpost|].
    right. exists j, l. split; [lia|exact Hpost].
Qed.

Lemma sortLoop_post color legalMoves :
  forall n i tempMove alpha beta line g t g',
    sortLoop (PVS fuel) b color depth legalMoves n i tempMove alpha beta
      line g = Some (t, g') ->
    Restores g g' /\
    SearchCounts (searchStats g) (searchStats g') /\
    (t = tempMove \/
     exists j copy,
       (i <= j < i + n)%nat /\ t = Z.of_nat j /\
       doPseudoLegalMove b (get legalMoves j) color = Some copy).
Proof.
  induction n as [|n IH]; intros i tempMove alpha beta line g t g'; simpl.
  { intros [= <- <-]. split; [apply Restores_refl|].
    split; [apply SearchCounts_refl|]. now left. }
  destruct (doPseudoLegalMove b (get legalMoves i) color) as [copy|] eqn:Hplay.
  2:{ intros E. destruct (IH _ _ _ _ _ _ _ _ E) as (HR' & HC' & Hpost).
      split; [exact HR'|]. split; [exact HC'|].
      destruct Hpost as [Hpost|(j & c & Hj & Hpost)]; [now left|].
      right. exists j, c. split; [lia|exact Hpost]. }
  destruct (rootSearch (PVS fuel) _ _ _ _ _ _ _)
    as [[[score line'] g1]|] eqn:E1; [|discriminate].
  destruct (rootSearch_post _ _ _ _ _ _ _ _ _ E1) as (HR & HC & _).
  destruct (score >? alpha); intros E;
    destruct (IH _ _ _ _ _ _ _ _ E) as (HR' & HC' & Hpost);
    (split; [exact (Restores_trans _ _ _ HR HR')|]);
    (split; [exact (SearchCounts_trans _ _ _ HC HC')|]).
  - right. destruct Hpost as [->|(j & c & Hj & Hpost)].
    + exists i, copy. split; [lia|]. split; [reflexivity|exact Hplay].
    + exists j, c. split; [lia|exact Hpost].
  - destruct Hpost as [Hpost|(j & c & Hj & Hpost)]; [now left|].
    right. exists j, c. split; [lia|exact Hpost].
Qed.

End Whatever.

(** X16.  Whatever [getBestMoveAtDepth] returns, it has restored the ply
    and the null-move count and counted consistently, and the index it
    returns is either none ([unsigned -1]), with the line untouched, or
    the index of a move of the list, with that move at the head of the
    line (and, with a positive pawn value, at most [depth - 1] moves
    behind it); if the stop flag is down at the end, the score it wrote is
    [-MATE_SCORE] when it returns no index and above [-MATE_SCORE] when it
    returns one.  And it does return, at depth >= 1, given fuel above
    depth plus a rank of the positions that no move raises and every
    quiescence move lowers. *)
Theorem getBestMoveAtDepth_spec fuel b legalMoves depth bestScore pvLine g :
  (forall t bs pv' g',
      getBestMoveAtDepth (PVS fuel) b legalMoves depth bestScore pvLine g
      = Some (t, bs, pv', g') ->
      Restores g g' /\
      SearchCounts (searchStats g) (searchStats g') /\
      ((t = NO_MOVE /\ pv' = pvLine /\
        (isStop g' = false -> bs = - MATE_SCORE)) \/
       (exists j l,
          (j < length legalMoves)%nat /\ t = Z.of_nat j /\
          pv' = get legalMoves j :: l /\
          (0 < PAWN_VALUE -> (length l <= Z.to_nat (depth - 1))%nat) /\
          (isStop g' = false -> - MATE_SCORE < bs)))) /\
  (forall qrank : Board -> nat,
      quiescenceRank qrank -> 0 < PAWN_VALUE -> 1 <= depth ->
      (forall m, (qrank (doMove b m (getPlayerToMove b)) <= qrank b)%nat) ->
      (Z.to_nat depth + qrank b <= fuel)%nat ->
      exists t bs pv' g',
        getBestMoveAtDepth (PVS fuel) b legalMoves depth bestScore pvLine g
        = Some (t, bs, pv', g')).
Proof.
  unfold getBestMoveAtDepth. split.
  - intros t bs pv' g' E.
    destruct (rootLoop_post fuel b depth (getPlayerToMove b) legalMoves
                (length legalMoves) 0%nat NO_MOVE (- MATE_SCORE) MATE_SCORE
                bestScore pvLine [] g t bs pv' g'
                (fun _ => Nat.le_0_l _) E) as (HR & HC & Hpost).
    split; [exact HR|]. split; [exact HC|].
    destruct Hpost as [Hpost|(j & l & Hj & Hpost)]; [left; exact Hpost|].
    right. exists j, l. split; [lia|exact Hpost].
  - intros qrank Hrank Hpawn Hdepth Hmove Hfuel.
    destruct (rootLoop_spec qrank Hrank Hpawn
                (Z.max 2 (nullMoveCount (searchParams g))) (Z.le_max_l 2 _)
                fuel b depth Hdepth Hfuel (getPlayerToMove b) legalMoves Hmove
                (length legalMoves) 0%nat NO_MOVE (- MATE_SCORE) MATE_SCORE
                bestScore pvLine [] g (Z.le_max_r 2 _) (Nat.le_0_l _))
      as (t & bs & pv' & g' & E & _).
    now exists t, bs, pv', g'.
Qed.

(** X17.  Whatever [getBestMoveForSort] returns, it has restored the ply
    and the null-move count and counted consistently, and it returns -1
    or the index of a move of the list that can be played; it does not
    read the stop flag.  And it does return, at depth >= 1, given fuel
    above depth plus a rank of the positions that no move raises and
    every quiescence move lowers. *)
Theorem getBestMoveForSort_spec fuel b legalMoves depth g :
  (forall t g',
      getBestMoveForSort (PVS fuel) b legalMoves depth g = Some (t, g') ->
      Restores g g' /\
      SearchCounts (searchStats g) (searchStats g') /\
      (t = -1 \/
       exists j copy,
         (j < length legalMoves)%nat /\ t = Z.of_nat j /\
         doPseudoLegalMove b (get legalMoves j) (getPlayerToMove b)
         = Some copy)) /\
  (forall qrank : Board -> nat,
      quiescenceRank qrank -> 0 < PAWN_VALUE -> 1 <= depth ->
      (Z.to_nat depth + qrank b <= fuel)%nat ->
      exists t g',
        getBestMoveForSort (PVS fuel) b legalMoves depth g = Some (t, g')).
Proof.
  unfold getBestMoveForSort. split.
  - intros t g' E.
    destruct (sortLoop_post fuel b depth (getPlayerToMove b) legalMoves
                (length legalMoves) 0%nat (-1) (- MATE_SCORE) MATE_SCORE
                [] g t g' E) as (HR & HC & Hpost).
    split; [exact HR|]. split; [exact HC|].
    destruct Hpost as [Hpost|(j & c & Hj & Hpost)]; [now left|].
    right. exists j, c. split; [lia|exact Hpost].
  - intros qrank Hrank Hpawn Hdepth Hfuel.
    destruct (sortLoop_spec qrank Hrank Hpawn
                (Z.max 2 (nullMoveCount (searchParams g))) (Z.le_max_l 2 _)
                fuel b depth Hdepth Hfuel (getPlayerToMove b) legalMoves
                (length legalMoves) 0%nat (-1) (- MATE_SCORE) MATE_SCORE
                [] g (Z.le_max_r 2 _) (Nat.le_0_l _))
      as (t & g' & E & _).
    now exists t, g'.
Qed.

(** X18.  A root move whose search the stop flag cuts short is the move
    [getBestMoveAtDepth] returns.  When the loop is at index [i] with the
    flag down, and the search of move [i] comes back with the stop
    sentinel and the flag up, the loop returns [i] with that move at the
    head of the line; the score of the caller is left as it was, or is
    [INFTY] if [i] was the last move. *)
Theorem rootLoop_interrupted (self : PVSfun) b color depth legalMoves n i
    tempMove alpha beta bestScore pvLine line g copy' line' g1 :
  isStop g = false ->
  alpha < INFTY -> beta <= INFTY ->
  self (doMove b (get legalMoves i) color) (depth - 1)
       (if Nat.eqb i 0 then - beta else - alpha - 1) (- alpha) line
       (inc_ply (stat g inc_nodes))
  = Some (- INFTY, copy', line', g1) ->
  isStop g1 = true ->
  rootLoop self b color depth legalMoves (S n) i tempMove alpha beta bestScore
    pvLine line g
  = Some (Z.of_nat i,
          match n with O => INFTY | S _ => bestScore end,
          changePV (get legalMoves i) line', dec_ply g1).
Proof.
  intros Hstop Ha Hb E Hstop1. simpl. rewrite Hstop. unfold rootSearch.
  destruct i as [|i]; simpl in E |- *; rewrite E.
  - rewrite Z.opp_involutive.
    rewrite (proj2 (Z.gtb_lt _ _)) by lia.
    destruct n; simpl; [reflexivity|]. now rewrite Hstop1.
  - rewrite Z.opp_involutive.
    replace ((alpha <? INFTY) && (INFTY <? beta)) with false
      by (symmetry; apply andb_false_iff; right; apply Z.ltb_ge; lia).
    rewrite (proj2 (Z.gtb_lt _ _)) by lia.
    destruct n; simpl; [reflexivity|]. now rewrite Hstop1.
Qed.

End RootFacts.

(** ** The late-move reduction *)
Section ReductionFacts.
Context `{SearchConstants} {Board : Type} `{BoardOps Board}.

(** X19.  The late-move reduction is never negative and leaves the
    reduced search a depth of at least one: it is at most [depth - 2].
    Only a quiet move that is no killer and gives no check, from the
    fourth move searched on, at depth three or more, outside the principal
    variation and out of check, with alpha not yet raised, is reduced. *)
Theorem lateMoveReduction_bounds (copy : Board) depth alpha prevAlpha
    isPVNode inCheck color movesSearched m k :
  let reduction :=
    lateMoveReduction copy depth alpha prevAlpha isPVNode inCheck color
      movesSearched m k in
  0 <= reduction /\
  (reduction <> 0 ->
   1 <= depth - 1 - reduction /\
   3 <= depth /\ 3 <= movesSearched /\ alpha <= prevAlpha /\
   isPVNode = false /\ inCheck = false /\
   isCapture m = false /\ isPromotion m = false /\
   m <> fst k /\ m <> snd k /\
   isInCheck copy (Z.lxor color 1) = false).
Proof.
  cbv zeta. unfold lateMoveReduction, nodeIsReducible.
  destruct (_ && _) eqn:Hcond; [|split; [lia|intros []; reflexivity]].
  do 8 (apply andb_true_iff in Hcond; destruct Hcond as [Hcond ?]).
  apply andb_true_iff in Hcond. destruct Hcond as [Hpv Hchk].
  assert (3 <= depth) by lia. assert (2 < movesSearched) by lia.
  assert (0 <= (19 * (depth - 3) + 8 * movesSearched) ÷ 76)
    by (apply Z.quot_pos; lia).
  split; [lia|]. intros _.
  repeat match goal with
         | Hb : negb _ = true |- _ => apply negb_true_iff in Hb
         end.
  repeat split; try lia; try assumption;
    try (intros ->; rewrite Z.eqb_refl in *; discriminate).
Qed.

End ReductionFacts.

(** ** The iterative-deepening driver *)
Section DriverFacts.
Context `{SearchConstants} {Board Hash : Type}
        `{BoardOps Board} `{HashOps Hash Board} `{SearchSpaceOps Board}
        `{RootOps Board} `{DriverOps Board Hash}.

Implicit Type g : Globals Hash.
Implicit Type b : Board.

Lemma toInt_NO_MOVE : toInt NO_MOVE = -1.
Proof. reflexivity. Qed.

Lemma toInt_index (j : nat) :
  Z.of_nat j < 2147483648 -> toInt (Z.of_nat j) = Z.of_nat j.
Proof.
  intros Hj. unfold toInt.
  destruct (Z.geb_spec (Z.of_nat j) 2147483648); [lia|reflexivity].
Qed.

Lemma get_swap_front_In (moves : MoveList) j :
  (j < length moves)%nat -> In (get (swap moves 0 j) 0) moves.
Proof.
  intros Hj.
  assert (Hlen : (0 < length (swap moves 0 j))%nat)
    by (rewrite length_swap; lia).
  destruct (lookup_lt_is_Some_2 _ _ Hlen) as [x Hx].
  rewrite (get_lookup _ _ _ Hx).
  apply list_elem_of_In. rewrite <- (swap_Permutation moves 0 j).
  exact (list_elem_of_lookup_2 _ _ _ Hx).
Qed.

(** The condition of the loop: another iteration stays within the
    deepest one. *)
Lemma deepen_condition mode value rootDepth (soft : bool) :
  ((mode =? TIME) && soft && (rootDepth + 1 <=? MAX_DEPTH))
  || ((mode =? DEPTH) && (rootDepth + 1 <=? value)) = true ->
  rootDepth + 1 <= depthLimit mode value.
Proof.
  intros Hcond. unfold depthLimit. apply orb_true_iff in Hcond.
  destruct Hcond as [Hc|Hc].
  - apply andb_true_iff in Hc. destruct Hc as [Hc Hle].
    apply andb_true_iff in Hc. destruct Hc as [-> _]. lia.
  - apply andb_true_iff in Hc. destruct Hc as [-> Hle]. lia.
Qed.

(** Whatever the loop of [getBestMove] returns. *)
Lemma deepen_post fuel b mode value :
  forall iters legalMoves bestMove bestScore rootDepth out g bestMove' out' g',
    rootDepth <= depthLimit mode value ->
    deepen iters (PVS fuel) b mode value legalMoves bestMove bestScore
      rootDepth out g = Some (bestMove', out', g') ->
    (exists infos,
        out' = out ++ infos /\
        (length infos <= S (Z.to_nat (depthLimit mode value - rootDepth)))%nat)
    /\
    SearchCounts (searchStats g) (searchStats g') /\
    (forall moves0 : MoveList,
        Z.of_nat (length moves0) < 2147483648 ->
        legalMoves ≡ₚ moves0 -> In bestMove moves0 -> In bestMove' moves0).
Proof.
  induction iters as [|iters IH];
    intros legalMoves bestMove bestScore rootDepth out g bestMove' out' g' Hd;
    [discriminate|].
  simpl. unfold getBestMoveAtDepth.
  set (g0 := set_searchParams g (params_reset (searchParams g))).
  destruct (rootLoop (PVS fuel) b _ rootDepth legalMoves _ _ _ _ _ _ _ _ g0)
    as [[[[t bs] pv'] g1]|] eqn:E1; [|discriminate].
  destruct (rootLoop_post fuel b rootDepth (getPlayerToMove b) legalMoves
              (length legalMoves) 0%nat NO_MOVE (- MATE_SCORE) MATE_SCORE
              bestScore [] [] g0 t bs pv' g1 (fun _ => Nat.le_0_l _) E1)
    as (_ & HC & Hpost).
  assert (HC1 : SearchCounts (searchStats g) (searchStats g1)) by exact HC.
  destruct (Z.eqb_spec (toInt t) (-1)) as [Ht|Ht].
  { intros [= <- <- <-]. split.
    - exists []. rewrite app_nil_r. split; [reflexivity|simpl; lia].
    - split; [exact HC1|]. intros moves0 _ _ Hin. exact Hin. }
  assert (Hin' : forall moves0 : MoveList,
             Z.of_nat (length moves0) < 2147483648 ->
             legalMoves ≡ₚ moves0 ->
             In (get (swap legalMoves 0 (Z.to_nat (toInt t))) 0) moves0).
  { intros moves0 Hsize Hperm.
    destruct Hpost as [(-> & _)|(j & l & Hj & -> & _)];
      [now rewrite toInt_NO_MOVE in Ht|].
    assert (Hlen : length legalMoves = length moves0)
      by now apply Permutation_length.
    rewrite toInt_index by lia. rewrite Nat2Z.id.
    apply list_elem_of_In. rewrite <- Hperm. apply list_elem_of_In.
    apply get_swap_front_In. lia. }
  set (line := infoLine _ _ _ _ _).
  destruct (_ || _) eqn:Hcond.
  - apply deepen_condition in Hcond. intros E.
    apply IH in E; [|exact Hcond].
    destruct E as ((infos & -> & Hn) & HC2 & Hmove). split.
    + exists (line :: infos). split; [now rewrite <- app_assoc|simpl; lia].
    + split; [eapply SearchCounts_trans; [exact HC1|exact HC2]|].
      intros moves0 Hsize Hperm _.
      apply (Hmove moves0 Hsize);
        [rewrite swap_Permutation; exact Hperm|exact (Hin' _ Hsize Hperm)].
  - intros [= <- <- <-]. split.
    + exists [line]. split; [reflexivity|simpl; lia].
    + split; [exact HC1|].
      intros moves0 Hsize Hperm _. exact (Hin' _ Hsize Hperm).
Qed.

Section Deepen.
Variable qrank : Board -> nat.
Hypothesis Hrank : quiescenceRank qrank.
Hypothesis Hpawn : 0 < PAWN_VALUE.
Variable fuel : nat.
Variable b : Board.
Variables mode value : Z.
Hypothesis Hmove :
  forall m, (qrank (doMove b m (getPlayerToMove b)) <= qrank b)%nat.
Hypothesis Hfuel :
  (Z.to_nat (depthLimit mode value) + qrank b <= fuel)%nat.

(** The loop returns within as many iterations as there are depths
    left. *)
Lemma deepen_returns :
  forall iters legalMoves bestMove bestScore rootDepth out g,
    1 <= rootDepth <= depthLimit mode value ->
    (Z.to_nat (depthLimit mode value - rootDepth) < iters)%nat ->
    exists bestMove' out' g',
      deepen iters (PVS fuel) b mode value legalMoves bestMove bestScore
        rootDepth out g = Some (bestMove', out', g').
Proof.
  induction iters as [|iters IH];
    intros legalMoves bestMove bestScore rootDepth out g Hd Hiters; [lia|].
  simpl. unfold getBestMoveAtDepth.
  set (g0 := set_searchParams g (params_reset (searchParams g))).
  assert (Hfuel' : (Z.to_nat rootDepth + qrank b <= fuel)%nat) by lia.
  destruct (rootLoop_spec qrank Hrank Hpawn
              (Z.max 2 (nullMoveCount (searchParams g0))) (Z.le_max_l 2 _)
              fuel b rootDepth (proj1 Hd) Hfuel' (getPlayerToMove b)
              legalMoves Hmove (length legalMoves) 0%nat NO_MOVE
              (- MATE_SCORE) MATE_SCORE bestScore [] [] g0
              (Z.le_max_r 2 _) (Nat.le_0_l _))
    as (t & bs & pv' & g1 & -> & _).
  destruct (toInt t =? -1); [now eexists _, _, _|].
  set (line := infoLine _ _ _ _ _).
  destruct (_ || _) eqn:Hcond; [|now eexists _, _, _].
  apply deepen_condition in Hcond. apply IH; lia.
Qed.

End Deepen.

(** X20.  Whatever [getBestMove] returns, it has printed at most
    [depthLimit] info lines (one iteration in any case, up to [MAX_DEPTH]
    in mode [TIME], up to [value] in mode [DEPTH]), then the statistics
    and the best move; the statistics are consistent from the reset state;
    the stop flag is left up; and on a position with at least one legal
    move (and fewer than 2^31) the move it announces is one of the legal
    moves of the position.  And it does return, given as many iterations
    as [depthLimit] and fuel above [depthLimit] plus a rank of the
    positions that no move raises and every quiescence move lowers. *)
Theorem getBestMove_spec fuel iters b mode value bestScore g :
  (forall bestMove out g',
      getBestMove iters (PVS fuel) b mode value bestScore g
      = Some (bestMove, out, g') ->
      (exists infos,
          out = infos ++ [StatsLines (printStatistics (searchStats g'));
                          BestMoveLine bestMove] /\
          (length infos <= Z.to_nat (depthLimit mode value))%nat) /\
      SearchCounts resetStats (searchStats g') /\
      isStop g' = true /\
      (getAllLegalMoves b (getPlayerToMove b) <> [] ->
       Z.of_nat (length (getAllLegalMoves b (getPlayerToMove b)))
       < 2147483648 ->
       In bestMove (getAllLegalMoves b (getPlayerToMove b)))) /\
  (forall qrank : Board -> nat,
      quiescenceRank qrank -> 0 < PAWN_VALUE ->
      (forall m, (qrank (doMove b m (getPlayerToMove b)) <= qrank b)%nat) ->
      (Z.to_nat (depthLimit mode value) + qrank b <= fuel)%nat ->
      (Z.to_nat (depthLimit mode value) <= iters)%nat ->
      exists bestMove out g',
        getBestMove iters (PVS fuel) b mode value bestScore g
        = Some (bestMove, out, g')).
Proof.
  unfold getBestMove.
  set (moves0 := getAllLegalMoves b (getPlayerToMove b)) in *.
  assert (Hlim : 1 <= depthLimit mode value) by (unfold depthLimit; lia).
  unfold readClock. cbv iota beta. split.
  - intros bestMove out g'.
    match goal with
    | |- context [deepen iters _ _ _ _ _ _ _ _ _ ?gg] =>
        destruct (deepen iters (PVS fuel) b mode value moves0 (get moves0 0)
                    bestScore 1 [] gg) as [[[bm out1] g1]|] eqn:E;
          [|discriminate]
    end.
    apply deepen_post in E; [|exact Hlim].
    destruct E as ((infos & -> & Hn) & HC & Hmove).
    intros [= <- <- <-]. split.
    + exists infos. split; [simpl; now rewrite <- app_assoc|lia].
    + split; [exact HC|]. split; [reflexivity|].
      intros Hne Hsize. apply (Hmove moves0 Hsize); [reflexivity|].
      destruct moves0 as [|m ms]; [contradiction|]. now left.
  - intros qrank Hrank Hpawn Hmove Hfuel Hiters.
    match goal with
    | |- context [deepen iters _ _ _ _ _ _ _ _ _ ?gg] =>
        destruct (deepen_returns qrank Hrank Hpawn fuel b mode value Hmove
                    Hfuel iters moves0 (get moves0 0) bestScore 1 [] gg)
          as (bm & out1 & g1 & ->); [lia|lia|]
    end.
    now eexists _, _, _.
Qed.

(** X22.  Once the stop flag is up, the index that [getBestMoveAtDepth]
    returned decides the move announced: if an iteration of the loop of
    [getBestMove] gets the index [j] of a move of the list with the flag
    up, the loop ends, at once or in the next iteration, with
    [legalMoves[j]] as the best move, whatever its score. *)
Theorem deepen_stopped iters (self : PVSfun) b mode value legalMoves bestMove
    bestScore rootDepth out g j bs pv g1 :
  getBestMoveAtDepth self b legalMoves rootDepth bestScore []
    (set_searchParams g (params_reset (searchParams g)))
  = Some (Z.of_nat j, bs, pv, g1) ->
  (j < length legalMoves)%nat ->
  Z.of_nat (length legalMoves) < 2147483648 ->
  isStop g1 = true ->
  exists out' g',
    deepen (S (S iters)) self b mode value legalMoves bestMove bestScore
      rootDepth out g = Some (get legalMoves j, out', g').
Proof.
  intros E Hj Hsize Hstop.
  change (deepen (S (S iters)) self b mode value legalMoves bestMove bestScore
            rootDepth out g)
    with (let g0 := set_searchParams g (params_reset (searchParams g)) in
          match getBestMoveAtDepth self b legalMoves rootDepth bestScore [] g0
          with
          | None => None
          | Some (tempMove, bestScore, pvLine, g) =>
              let bestMoveIndex := toInt tempMove in
              if bestMoveIndex =? -1 then Some (bestMove, out, g)
              else
                let legalMoves := swap legalMoves 0 (Z.to_nat bestMoveIndex) in
                let bestMove := get legalMoves 0 in
                let '(timeSoFar, g) := readClock g in
                let out :=
                  out ++ [infoLine rootDepth bestScore timeSoFar pvLine g] in
                let rootDepth := rootDepth + 1 in
                if ((mode =? TIME) && softTimeLeft timeSoFar value
                    && (rootDepth <=? MAX_DEPTH))
                   || ((mode =? DEPTH) && (rootDepth <=? value))
                then deepen (S iters) self b mode value legalMoves bestMove
                       bestScore rootDepth out g
                else Some (bestMove, out, g)
          end).
  cbv zeta. rewrite E. rewrite toInt_index by lia.
  destruct (Z.eqb_spec (Z.of_nat j) (-1)); [lia|].
  rewrite Nat2Z.id.
  assert (Hpos : (0 < length legalMoves)%nat) by lia.
  unfold readClock. cbv beta iota. unfold Move.
  rewrite (get_swap legalMoves 0 j 0 Hpos Hj).
  rewrite decide_True by reflexivity.
  destruct (_ || _); [|eexists _, _; reflexivity].
  simpl. unfold getBestMoveAtDepth. rewrite length_swap.
  destruct (length legalMoves) as [|k] eqn:Hlen; [lia|].
  simpl. rewrite Hstop. rewrite toInt_NO_MOVE. simpl.
  eexists _, _. reflexivity.
Qed.

(** X21.  The info line announces a mate as UCI asks.  A score
    [MATE_SCORE - p], a mate delivered [p] plies from the root, is printed
    as mate in [p / 2 + 1] moves, and a score [-MATE_SCORE + p], the engine
    mated [p] plies from the root, as mate in [-(p / 2)], for
    [0 <= p <= MAX_DEPTH < MATE_SCORE]; any score strictly between
    [-MATE_SCORE + MAX_DEPTH] and [MATE_SCORE - MAX_DEPTH] is printed in
    centipawns.  The score [INFTY] that the root takes from a search cut
    short is printed as a mate too. *)
Theorem uciScore_mate (p bestScore : Z) :
  0 <= p <= MAX_DEPTH -> MAX_DEPTH < MATE_SCORE ->
  uciScore (MATE_SCORE - p) = Mate (p / 2 + 1) /\
  uciScore (- MATE_SCORE + p) = Mate (- (p / 2)) /\
  (- MATE_SCORE + MAX_DEPTH < bestScore < MATE_SCORE - MAX_DEPTH ->
   uciScore bestScore = Cp (bestScore * 100 ÷ PAWN_VALUE_EG)) /\
  (MATE_SCORE <= INFTY ->
   uciScore INFTY = Mate ((MATE_SCORE - INFTY) ÷ 2 + 1)).
Proof.
  intros Hp Hm. unfold uciScore. split; [|split; [|split]].
  4:{ intros Hi. now rewrite (proj2 (Z.geb_le _ _)) by lia. }
  - rewrite (proj2 (Z.geb_le _ _)) by lia.
    replace (MATE_SCORE - (MATE_SCORE - p)) with p by lia.
    rewrite Z.quot_div_nonneg by lia. reflexivity.
  - destruct (Z.geb_spec (- MATE_SCORE + p) (MATE_SCORE - MAX_DEPTH)); [lia|].
    rewrite (proj2 (Z.leb_le _ _)) by lia.
    replace (- MATE_SCORE - (- MATE_SCORE + p)) with (- p) by lia.
    rewrite Z.quot_opp_l by lia. rewrite Z.quot_div_nonneg by lia.
    reflexivity.
  - intros Hs.
    destruct (Z.geb_spec bestScore (MATE_SCORE - MAX_DEPTH)); [lia|].
    destruct (Z.leb_spec bestScore (- MATE_SCORE + MAX_DEPTH)); [lia|].
    reflexivity.
Qed.

End DriverFacts.

(** * The further properties on concrete inputs *)
Module MoreExampleFacts.
Import Example RootExample.

(** Playing a move at the root leads to a tree no higher. *)
Lemma toy_doMove_rank b m c : (toy_rank (doMove b m c) <= toy_rank b)%nat.
Proof.
  simpl. destruct (toy_play (toy_moves b) m) as [c'|] eqn:E; [|lia].
  apply ExampleFacts.toy_move_rank in E. lia.
Qed.

(** X1 on the pair (-5, 7). *)
Lemma pack_unpack_witness :
  PackedScore.decEvalMg
    (PackedScore.add PackedScore.EVAL_ZERO (PackedScore.E (-5) 7)) = -5 /\
  PackedScore.decEvalEg
    (PackedScore.add PackedScore.EVAL_ZERO (PackedScore.E (-5) 7)) = 7.
Proof.
  apply (PackedScoreFacts.pack_unpack (-5) 7);
    unfold PackedScore.int16; lia.
Defined.

(** X2 on the packed pair (100, -40), to which (-300, 25) is added. *)
Lemma packed_arithmetic_witness :
  PackedScore.decEvalMg
    (PackedScore.add 2144895076 (PackedScore.E (-300) 25)) = 100 + -300 /\
  PackedScore.decEvalEg
    (PackedScore.add 2144895076 (PackedScore.E (-300) 25)) = -40 + 25.
Proof.
  apply (proj1 (PackedScoreFacts.packed_arithmetic 2144895076 (-300) 25
                  ltac:(lia)));
    unfold PackedScore.int16; vm_compute; split; discriminate.
Defined.

(** X3 on four moves with scores 10, 30, 20, 30, from index 1: the first
    of the two moves with score 30 is taken. *)
Lemma nextMove_first_maximum_witness :
  exists j,
    (1 <= j < 4)%nat /\
    nextMove [3; 1; 2; 4] [10; 30; 20; 30] 1
    = (get [3; 1; 2; 4] j, swap [3; 1; 2; 4] j 1,
       swap [10; 30; 20; 30] j 1) /\
    (forall k, (1 <= k < j)%nat ->
               get [10; 30; 20; 30] k < get [10; 30; 20; 30] j).
Proof.
  destruct (nextMove_first_maximum [3; 1; 2; 4] [10; 30; 20; 30] 1)
    as (j & Hj & E & _ & Hfirst & _); [reflexivity|simpl; lia|].
  exists j. auto.
Defined.

(** X4 on [oneCapture]. *)
Lemma quiescence_fail_hard_witness :
  exists r st',
    quiescence 3 0 oneCapture 0 (-100) 100 resetStats = Some (r, st') /\
    -100 <= r <= 100.
Proof.
  destruct (quiescence_fail_hard 3 0 oneCapture 0 (-100) 100
              resetStats ltac:(lia)) as (Hin & _ & Hret).
  destruct (Hret toy_rank ExampleFacts.toy_quiescenceRank ltac:(simpl; lia))
    as (r & st' & E).
  exists r, st'. split; [exact E|]. exact (Hin r st' E).
Defined.

(** X5 on [oneCapture], whose static evaluation is 0. *)
Lemma quiescence_stand_pat_witness :
  match quiescence 3 0 oneCapture 0 (-100) 100 resetStats with
  | Some (r, _) => 0 <= r <= 100
  | None => False
  end.
Proof.
  destruct (quiescence 3 0 oneCapture 0 (-100) 100 resetStats)
    as [[r st']|] eqn:E; [|discriminate E].
  assert (Hab : -100 <= 100) by lia.
  assert (Hpos : 0 <= 120) by lia.
  assert (Hmargin : 0 <= 120 + 975) by lia.
  exact (quiescence_stand_pat 3 0 oneCapture 0 (-100) 100 resetStats r st'
           Hab eq_refl Hpos Hmargin E).
Defined.

(** X6 on [mated], two plies into quiescence at ply 3. *)
Lemma checkQuiescence_mate_witness :
  checkQuiescence 2 3 mated 2 (-40000) 40000 resetStats
  = Some (-32761, resetStats).
Proof.
  assert (Hnone : forall m,
            In m (getPseudoLegalCheckEscapes mated (getPlayerToMove mated)) ->
            doPseudoLegalMove mated m (getPlayerToMove mated) = None)
    by (intros m Hin; reflexivity).
  assert (Hab : -40000 <= 40000) by lia.
  exact (proj1 (checkQuiescence_mate 2 3 mated 2 (-40000) 40000 resetStats
                  Hab Hnone)).
Defined.

(** X7 on [mated] at ply 1. *)
Lemma PVS_checkmate_witness :
  exists g',
    PVS 3 mated 2 (-40000) 40000 [] (toyGlobals 1 1000 0 false)
    = Some (-32765, mated, [], g').
Proof.
  destruct (PVS_checkmate 2 mated 2 (-40000) 40000 []
              (toyGlobals 1 1000 0 false))
    as (g' & E & _);
    [lia|lia|reflexivity|reflexivity|reflexivity|reflexivity|reflexivity
    |intros k; simpl; lia|].
  exists g'. exact E.
Defined.

(** X8 on [twoMoves] at ply 4. *)
Lemma PVS_restores_ply_witness :
  match PVS 8 twoMoves 2 (-100) 100 [] (toyGlobals 4 1000 0 false) with
  | Some (_, _, _, g') => ply (searchParams g') = 4
  | None => False
  end.
Proof.
  destruct (PVS 8 twoMoves 2 (-100) 100 [] (toyGlobals 4 1000 0 false))
    as [[[[r b'] pv'] g']|] eqn:E; [|discriminate E].
  apply (PVS_restores_ply 8 twoMoves 2 (-100) 100 []
           (toyGlobals 4 1000 0 false) r b' pv' g' E).
Defined.

(** X9 on [oneCapture]. *)
Lemma quiescence_counts_own_nodes_witness :
  match quiescence 3 0 oneCapture 0 (-100) 100 resetStats with
  | Some (_, st') => QuiescenceCounts resetStats st'
  | None => False
  end.
Proof.
  destruct (quiescence 3 0 oneCapture 0 (-100) 100 resetStats)
    as [[r st']|] eqn:E; [|discriminate E].
  apply (quiescence_counts_own_nodes 3 0 oneCapture 0 (-100)
           100 resetStats r st').
  left. exact E.
Defined.

(** X10 on [twoMoves]. *)
Lemma PVS_counts_witness :
  match PVS 8 twoMoves 2 (-100) 100 [] (toyGlobals 0 1000 0 false) with
  | Some (_, _, _, g') => SearchCounts resetStats (searchStats g')
  | None => False
  end.
Proof.
  destruct (PVS 8 twoMoves 2 (-100) 100 [] (toyGlobals 0 1000 0 false))
    as [[[[r b'] pv'] g']|] eqn:E; [|discriminate E].
  apply (PVS_counts 8 twoMoves 2 (-100) 100 [] (toyGlobals 0 1000 0 false)
           r b' pv' g' E).
Defined.

(** X11 on 1 of 3: 3333 hundredths of a percent. *)
Lemma tenThousandths_range_witness :
  0 <= tenThousandths 1 3 <= 10000 /\
  tenThousandths 1 3 * 3 <= 1 * 10000 < (tenThousandths 1 3 + 1) * 3.
Proof.
  destruct (tenThousandths_range 1 3) as (Hr & _ & Hf); [lia|lia|].
  split; [exact Hr|]. apply Hf. lia.
Defined.

(** X12 on the counters of a small search. *)
Lemma printStatistics_percentages_witness :
  Forall (fun line => 0 <= fst line <= 10000 /\ 0 <= snd line)
         (printStatistics (mkStats 10 5 3 1 1 1 2 1 4 1 1)).
Proof.
  apply (printStatistics_percentages (mkStats 10 5 3 1 1 1 2 1 4 1 1));
    [unfold SearchCounts; simpl; lia|simpl; lia|simpl; lia|simpl; lia].
Defined.

(** X13 on a child line of two moves and an empty parent. *)
Lemma changePV_array_line_witness :
  Line.visible
    (Line.changePV 7 (Line.mkPV 0 [0; 0; 0; 0]) (Line.mkPV 2 [5; 6; 0; 0]))
  = changePV 7 (Line.visible (Line.mkPV 2 [5; 6; 0; 0])).
Proof.
  apply (changePV_array_line 7 (Line.mkPV 0 [0; 0; 0; 0])
           (Line.mkPV 2 [5; 6; 0; 0])); simpl; lia.
Defined.

(** X14 on a line of two moves. *)
Lemma retrievePV_line_witness :
  Line.retrievePV toyMoveToString (Line.mkPV 2 [65; 66; 0])
  = String.concat Line.space
      (map toyMoveToString (Line.visible (Line.mkPV 2 [65; 66; 0]))).
Proof.
  apply (proj1 (retrievePV_line toyMoveToString (Line.mkPV 2 [65; 66; 0])
                  ltac:(simpl; lia))).
  simpl. lia.
Defined.

(** X15 on [raiseThenCut] at depth 2 with the window [0, 20]: move 1
    raises alpha to 10 and writes the line, move 3 fails high, and PVS
    returns beta with the line of move 1 left behind. *)
Lemma PVS_line_length_witness :
  match PVS 8 raiseThenCut 2 0 20 [] (toyGlobals 0 1000 0 false) with
  | Some (r, _, pv', _) => r = 20 /\ pv' = [1; 2] /\ (length pv' <= 2)%nat
  | None => False
  end.
Proof.
  assert (Hrun :
    option_map (fun x => (fst (fst (fst x)), snd (fst x)))
      (PVS 8 raiseThenCut 2 0 20 [] (toyGlobals 0 1000 0 false))
    = Some (20, [1; 2])) by (vm_compute; reflexivity).
  destruct (PVS 8 raiseThenCut 2 0 20 [] (toyGlobals 0 1000 0 false))
    as [[[[r b'] pv'] g']|] eqn:E; [|discriminate Hrun].
  simpl in Hrun. injection Hrun as Hr Hpv.
  split; [exact Hr|]. split; [exact Hpv|].
  assert (Hpawn : 0 < PAWN_VALUE) by (simpl; lia).
  exact (PVS_line_length Hpawn 8 raiseThenCut 2 0 20 []
           (toyGlobals 0 1000 0 false) r b' pv' g' E).
Defined.

(** X16 on [twoMoves] at depth 2. *)
Lemma getBestMoveAtDepth_spec_witness :
  exists t bs pv' g',
    getBestMoveAtDepth (PVS 8) twoMoves [1; 3] 2 0 []
      (toyGlobals 0 1000 0 false) = Some (t, bs, pv', g') /\
    Restores (toyGlobals 0 1000 0 false) g' /\
    ((t = NO_MOVE /\ pv' = []) \/
     (exists j l, (j < 2)%nat /\ t = Z.of_nat j /\ pv' = get [1; 3] j :: l)).
Proof.
  assert (Hpawn : 0 < PAWN_VALUE) by (simpl; lia).
  assert (Hfuel : (Z.to_nat 2 + toy_rank twoMoves <= 8)%nat) by (simpl; lia).
  assert (Hdepth : 1 <= 2) by lia.
  destruct (getBestMoveAtDepth_spec 8 twoMoves [1; 3] 2 0 []
              (toyGlobals 0 1000 0 false)) as (Hwhatever & Hreturns).
  destruct (Hreturns toy_rank ExampleFacts.toy_quiescenceRank Hpawn Hdepth
              (fun m => toy_doMove_rank twoMoves m _) Hfuel)
    as (t & bs & pv' & g' & E).
  destruct (Hwhatever t bs pv' g' E) as (HR & _ & Hpost).
  exists t, bs, pv', g'. split; [exact E|]. split; [exact HR|].
  destruct Hpost as [(Ht & Hpv & _)|(j & l & Hj & Ht & Hpv & _)].
  - left. auto.
  - right. exists j, l. auto.
Defined.

(** X17 on [twoMoves] at depth 2. *)
Lemma getBestMoveForSort_spec_witness :
  exists t g',
    getBestMoveForSort (PVS 8) twoMoves [1; 3] 2 (toyGlobals 0 1000 0 false)
    = Some (t, g') /\
    (t = -1 \/
     exists j copy,
       (j < 2)%nat /\ t = Z.of_nat j /\
       doPseudoLegalMove twoMoves (get [1; 3] j) 0 = Some copy).
Proof.
  assert (Hpawn : 0 < PAWN_VALUE) by (simpl; lia).
  assert (Hfuel : (Z.to_nat 2 + toy_rank twoMoves <= 8)%nat) by (simpl; lia).
  assert (Hdepth : 1 <= 2) by lia.
  destruct (getBestMoveForSort_spec 8 twoMoves [1; 3] 2
              (toyGlobals 0 1000 0 false)) as (Hwhatever & Hreturns).
  destruct (Hreturns toy_rank ExampleFacts.toy_quiescenceRank Hpawn Hdepth
              Hfuel) as (t & g' & E).
  destruct (Hwhatever t g' E) as (_ & _ & Hpost).
  exists t, g'. split; [exact E|exact Hpost].
Defined.

(** X18 on [twoMoves]: the clock passes the limit after the search of
    move 1, which scored 30; the search of move 3 is cut short, and move 3
    is returned with the score [INFTY]. *)
Lemma rootLoop_interrupted_witness :
  exists line' g1,
    rootLoop (PVS 8) twoMoves 0 2 [1; 3] 1 1 0 30 32766 77 [1; 2] [2]
      (toyGlobals 0 1000 2000 false)
    = Some (1, 32767, 3 :: line', dec_ply g1).
Proof.
  assert (Hcut :
    option_map (fun x => (fst (fst (fst x)), isStop (snd x)))
      (PVS 8 (doMove twoMoves (get [1; 3] 1) 0) (2 - 1) (- 30 - 1) (- 30)
         [2] (inc_ply (stat (toyGlobals 0 1000 2000 false) inc_nodes)))
    = Some (- INFTY, true)) by (vm_compute; reflexivity).
  destruct (PVS 8 (doMove twoMoves (get [1; 3] 1) 0) (2 - 1) (- 30 - 1) (- 30)
              [2] (inc_ply (stat (toyGlobals 0 1000 2000 false) inc_nodes)))
    as [[[[r copy'] line'] g1]|] eqn:E; [|discriminate Hcut].
  simpl in Hcut. injection Hcut as Hr Hs. subst r.
  exists line', g1.
  assert (Ha : 30 < INFTY) by (simpl; lia).
  assert (Hb : 32766 <= INFTY) by (simpl; lia).
  exact (rootLoop_interrupted (PVS 8) twoMoves 0 2 [1; 3] 0 1 0 30 32766 77
           [1; 2] [2] (toyGlobals 0 1000 2000 false) copy' line' g1
           eq_refl Ha Hb E Hs).
Defined.

(** X20 on [twoMoves], in mode [DEPTH] with two iterations. *)
Lemma getBestMove_spec_witness :
  exists bestMove infos g',
    getBestMove 3 (PVS 10) twoMoves DEPTH 2 0 (toyGlobals 0 1000 0 false)
    = Some (bestMove,
            infos ++ [StatsLines (printStatistics (searchStats g'));
                      BestMoveLine bestMove],
            g') /\
    In bestMove [1; 3] /\
    (length infos <= 2)%nat /\
    isStop g' = true.
Proof.
  assert (Hpawn : 0 < PAWN_VALUE) by (simpl; lia).
  assert (Hfuel : (Z.to_nat (depthLimit DEPTH 2) + toy_rank twoMoves <= 10)%nat)
    by (vm_compute; lia).
  assert (Hiters : (Z.to_nat (depthLimit DEPTH 2) <= 3)%nat)
    by (vm_compute; lia).
  assert (Hne : getAllLegalMoves twoMoves (getPlayerToMove twoMoves) <> [])
    by discriminate.
  assert (Hsize :
    Z.of_nat (length (getAllLegalMoves twoMoves (getPlayerToMove twoMoves)))
    < 2147483648) by (simpl; lia).
  destruct (getBestMove_spec 10 3 twoMoves DEPTH 2 0
              (toyGlobals 0 1000 0 false)) as (Hwhatever & Hreturns).
  destruct (Hreturns toy_rank ExampleFacts.toy_quiescenceRank Hpawn
              (fun m => toy_doMove_rank twoMoves m _) Hfuel Hiters)
    as (bestMove & out & g' & E).
  destruct (Hwhatever bestMove out g' E)
    as ((infos & Hout & Hn) & _ & Hstop & Hin).
  exists bestMove, infos, g'. split; [rewrite E, Hout; reflexivity|].
  split; [exact (Hin Hne Hsize)|]. split; [exact Hn|exact Hstop].
Defined.

(** X21 with a mate three plies from the root: mate in 2. *)
Lemma uciScore_mate_witness :
  uciScore (MATE_SCORE - 3) = Mate 2 /\
  uciScore (- MATE_SCORE + 4) = Mate (-2).
Proof.
  assert (Hp3 : 0 <= 3 <= MAX_DEPTH) by (simpl; lia).
  assert (Hp4 : 0 <= 4 <= MAX_DEPTH) by (simpl; lia).
  assert (Hm : MAX_DEPTH < MATE_SCORE) by (simpl; lia).
  split.
  - exact (proj1 (uciScore_mate 3 0 Hp3 Hm)).
  - exact (proj1 (proj2 (uciScore_mate 4 0 Hp4 Hm))).
Defined.

(** X22 on [twoMoves]: the clock passes the limit while move 3 is
    searched at depth 2; move 3 is announced, though move 1 scored 30. *)
Lemma deepen_stopped_witness :
  exists out' g',
    deepen 2 (PVS 8) twoMoves TIME 500 [1; 3] 1 30 2 [] (lateGlobals 1)
    = Some (3, out', g').
Proof.
  assert (Hcut :
    option_map (fun x => (fst (fst (fst x)), isStop (snd x)))
      (getBestMoveAtDepth (PVS 8) twoMoves [1; 3] 2 30 []
         (set_searchParams (lateGlobals 1)
            (params_reset (searchParams (lateGlobals 1)))))
    = Some (Z.of_nat 1, true)) by (vm_compute; reflexivity).
  destruct (getBestMoveAtDepth (PVS 8) twoMoves [1; 3] 2 30 []
              (set_searchParams (lateGlobals 1)
                 (params_reset (searchParams (lateGlobals 1)))))
    as [[[[t bs] pv] g1]|] eqn:E; [|discriminate Hcut].
  simpl in Hcut. injection Hcut as Ht Hs. subst t.
  assert (Hj : (1 < length [1; 3])%nat) by (simpl; lia).
  assert (Hsize : Z.of_nat (length [1; 3]) < 2147483648) by (simpl; lia).
  exact (deepen_stopped 0 (PVS 8) twoMoves TIME 500 [1; 3] 1 30 2 []
           (lateGlobals 1) 1 bs pv g1 E Hj Hsize Hs).
Defined.

(** X23 on [twoMoves], in a frame that tries a null move. *)
Lemma PVS_keeps_board_witness :
  match PVS 8 twoMoves 3 (-1) 0 [] (toyGlobals 0 1000 0 false) with
  | Some (_, b', _, _) => b' = twoMoves
  | None => False
  end.
Proof.
  assert (Hundo : forall b : ToyBoard, doNullMove (doNullMove b) = b).
  { intros [k s d c e n ms]. simpl. f_equal.
    rewrite Z.lxor_assoc. apply Z.lxor_0_r. }
  destruct (PVS 8 twoMoves 3 (-1) 0 [] (toyGlobals 0 1000 0 false))
    as [[[[r b'] pv'] g']|] eqn:E; [|discriminate E].
  exact (PVS_keeps_board Hundo 8 twoMoves 3 (-1) 0 []
           (toyGlobals 0 1000 0 false) r b' pv' g' E).
Defined.

(** X19 on the fifth quiet move at depth 7: the reduction is 1. *)
Lemma lateMoveReduction_bounds_witness :
  1 <= 7 - 1 - lateMoveReduction twoMoves 7 0 0 false false 0 5 1 (0, 0).
Proof.
  assert (Hred : lateMoveReduction twoMoves 7 0 0 false false 0 5 1 (0, 0)
                 <> 0) by (vm_compute; discriminate).
  exact (proj1 (proj2 (lateMoveReduction_bounds twoMoves 7 0 0 false false 0
                         5 1 (0, 0)) Hred)).
Defined.

(** X24 on the stalemate with static evaluation 40. *)
Lemma quiescence_no_move_witness :
  quiescence 1 0 (stalemate 40) 0 (-100) 100 resetStats
  = Some (40, resetStats).
Proof.
  assert (Hab : -100 <= 100) by lia.
  assert (Hpos : - 120 <= 0 <= 120) by lia.
  assert (Hmargin : 0 <= 120 + 975) by lia.
  assert (Hnone : forall m,
            doPseudoLegalMove (stalemate 40) m (getPlayerToMove (stalemate 40))
            = None)
    by (intros m; apply (proj2 (ExampleFacts.stalemate_stalemated 40) m)).
  exact (quiescence_no_move 0 0 (stalemate 40) 0 (-100) 100 resetStats
           Hab eq_refl Hpos Hmargin Hnone).
Defined.

End MoreExampleFacts.
